(* ===================================================================== *)
(* cloner: the chunked diff-and-apply pipeline of pkg/clone               *)
(*                                                                        *)
(* A shallow embedding of the row streams, the shard gate, the chunk      *)
(* predicates, the batcher and the per-table supervisor, with the         *)
(* properties the specification states about them.                        *)
(* ===================================================================== *)

From Stdlib Require Import ZArith String Ascii List Lia Bool.
From stdpp Require Import gmap strings list fin_maps pretty.

Local Open Scope Z_scope.

(* --------------------------------------------------------------------- *)
(* Shared data model                                                      *)
(* --------------------------------------------------------------------- *)

(** Go's [error] values as far as the pipeline looks at them:
    [context.Canceled], [context.DeadlineExceeded], any other error, and
    the wrappers [errors.WithStack] / [errors.Wrap] put around them. *)
Inductive error : Type :=
  | Canceled
  | DeadlineExceeded
  | ErrorString (msg : string)
  | WithStack (cause : error).

(** [errors.WithStack(err)]: nil stays nil. *)
Definition errors_WithStack (err : option error) : option error :=
  match err with
  | None => None
  | Some e => Some (WithStack e)
  end.

(** [errors.Is(err, context.Canceled)]: walks the chain of causes. *)
Fixpoint errors_Is_Canceled (err : error) : bool :=
  match err with
  | Canceled => true
  | DeadlineExceeded => false
  | ErrorString _ => false
  | WithStack cause => errors_Is_Canceled cause
  end.

(** A Go call returning [(value, error)]. *)
Inductive result (A : Type) : Type :=
  | Ok (a : A)
  | Err (e : error).
Arguments Ok {A} a.
Arguments Err {A} e.

(** One column value of a scanned row ([interface{}] in the source). *)
Inductive Cell : Type :=
  | CNull
  | CInt (z : Z)
  | CBytes (s : string).

Record Table : Type := mkTable {
  Table_Name : string;
  Table_ColumnList : string;
  Table_IDColumn : string;
  Table_IDColumnIndex : nat;
  Table_ShardingColumnIndex : nat
}.

(** [Row] of the sharded reader: [ID] and [ShardingID] are int64. *)
Record Row : Type := mkRow {
  Row_Table : Table;
  Row_ID : Z;
  Row_ShardingID : Z;
  Row_Data : list Cell
}.

Record Chunk : Type := mkChunk {
  Chunk_Table : Table;
  Chunk_Start : Z;
  Chunk_End : Z;
  Chunk_First : bool;
  Chunk_Last : bool
}.

Definition min_int64 : Z := - 2 ^ 63.
Definition max_int64 : Z := 2 ^ 63 - 1.
Definition is_int64 (z : Z) : Prop := min_int64 <= z <= max_int64.

(* --------------------------------------------------------------------- *)
(* Row streams and the shard gate (stream.go)                             *)
(* --------------------------------------------------------------------- *)

Module ShardGate.

(** [topodata.KeyRange]: two byte strings. *)
Record KeyRange : Type := mkKeyRange {
  KeyRange_Start : list Byte.byte;
  KeyRange_End : list Byte.byte
}.

(** [bytes.Compare]: lexicographic order on byte strings. *)
Fixpoint bytes_Compare (a b : list Byte.byte) : comparison :=
  match a, b with
  | [], [] => Eq
  | [], _ :: _ => Lt
  | _ :: _, [] => Gt
  | x :: a', y :: b' =>
      match N.compare (Byte.to_N x) (Byte.to_N y) with
      | Eq => bytes_Compare a' b'
      | c => c
      end
  end.

(** Modelled from the spec: [key.KeyRangeContains] of the sharding library,
    which is not part of the sources. Containment is half-open, the start
    is inclusive and the end exclusive, an empty end is unbounded, and a
    nil range contains every keyspace id. *)
Definition KeyRangeContains (kr : option KeyRange) (id : list Byte.byte) : bool :=
  match kr with
  | None => true
  | Some r =>
      match bytes_Compare (KeyRange_Start r) id with
      | Gt => false
      | _ =>
          match KeyRange_End r with
          | [] => true
          | _ :: _ =>
              match bytes_Compare id (KeyRange_End r) with
              | Lt => true
              | _ => false
              end
          end
      end
  end.

(** [uint64(v)] of an int64 [v]. *)
Definition uint64 (v : Z) : Z := v mod 2 ^ 64.

Section Gate.

(** The scatter hash [vhash(uint64) []byte]; the gate only needs it to be
    a function. *)
Variable vhash : Z -> list Byte.byte.

(** [InShard]: the loop over the key ranges returns at the first range
    that contains the destination. *)
Fixpoint InShard_loop (destination : list Byte.byte)
    (shard : list (option KeyRange)) : bool :=
  match shard with
  | [] => false
  | keyRange :: rest =>
      if KeyRangeContains keyRange destination then true
      else InShard_loop destination rest
  end.

Definition InShard (id : Z) (shard : list (option KeyRange)) : bool :=
  let destination := vhash id in
  InShard_loop destination shard.

(** The reject function that [filterStreamByShard] installs. *)
Definition shardReject (targetFilter : list (option KeyRange))
    (row : Row) : result bool :=
  let shardingValue := Row_ShardingID row in
  Ok (negb (InShard (uint64 shardingValue) targetFilter)).

(** A [RowStream] is an object with a [Next] method; its state has some
    type [S] and [Next] returns the row (or nil, or an error) and the new
    state. *)
Section Streams.

Context {S : Type}.
Variable source_Next : S -> result (option Row) * S.

(** [rejectStream.Next]: the [for] loop asks the source until a row is
    not rejected. The loop has no bound in the source; [fuel] bounds the
    number of iterations and [None] means it was not enough. *)
Fixpoint rejectStream_Next (reject : Row -> result bool) (fuel : nat) (s : S)
    : option (result (option Row) * S) :=
  match fuel with
  | O => None
  | Datatypes.S fuel' =>
      match source_Next s with
      | (Err err, s') => Some (Err (WithStack err), s')
      | (Ok None, s') => Some (Ok None, s')
      | (Ok (Some next), s') =>
          match reject next with
          | Err err => Some (Err (WithStack err), s')
          | Ok true => rejectStream_Next reject fuel' s'
          | Ok false => Some (Ok (Some next), s')
          end
      end
  end.

(** [filterStreamByShard(stream, table, targetFilter).Next]. *)
Definition filterStreamByShard_Next (table : Table)
    (targetFilter : list (option KeyRange)) (fuel : nat) (s : S)
    : option (result (option Row) * S) :=
  rejectStream_Next (shardReject targetFilter) fuel s.

End Streams.

(** What one call of [Next] does, as a relation between the state before,
    the value returned and the state after. *)
Definition NextRel (S : Type) : Type := S -> result (option Row) -> S -> Prop.

Definition source_rel {S : Type} (source_Next : S -> result (option Row) * S)
    : NextRel S :=
  fun s r s' => source_Next s = (r, s').

(** The filtered stream's [Next] returns when the loop does. *)
Definition filtered_rel {S : Type} (source_Next : S -> result (option Row) * S)
    (table : Table) (targetFilter : list (option KeyRange)) : NextRel S :=
  fun s r s' =>
    exists fuel, filterStreamByShard_Next source_Next table targetFilter fuel s
                 = Some (r, s').

(** [Yields next s rows]: calling [Next] again and again from state [s]
    returns exactly [rows], in this order, and then nil. *)
Inductive Yields {S : Type} (next : NextRel S) : S -> list Row -> Prop :=
  | Yields_done s s' :
      next s (Ok None) s' -> Yields next s []
  | Yields_row s row s' rows :
      next s (Ok (Some row)) s' -> Yields next s' rows ->
      Yields next s (row :: rows).

(** [Fails next s rows err]: the calls of [Next] from state [s] return
    [rows], in this order, and then the error [err]. *)
Inductive Fails {S : Type} (next : NextRel S) : S -> list Row -> error -> Prop :=
  | Fails_now s err s' :
      next s (Err err) s' -> Fails next s [] err
  | Fails_row s row s' rows err :
      next s (Ok (Some row)) s' -> Fails next s' rows err ->
      Fails next s (row :: rows) err.

(** The rows the gate admits. *)
Definition shard_rows (targetFilter : list (option KeyRange)) (rows : list Row)
    : list Row :=
  List.filter (fun row => InShard (uint64 (Row_ShardingID row)) targetFilter) rows.

End Gate.

(** A stream over rows held in memory: [Next] pops the head. *)
Definition bufferStream_Next (rows : list Row) : result (option Row) * list Row :=
  match rows with
  | [] => (Ok None, [])
  | row :: rest => (Ok (Some row), rest)
  end.

End ShardGate.

(* --------------------------------------------------------------------- *)
(* Chunk predicates                                                       *)
(* --------------------------------------------------------------------- *)

(** [%d] of an int64. *)
Definition fmt_d (z : Z) : string := pretty z.

(** [strings.Join(elems, sep)]. *)
Fixpoint strings_Join (elems : list string) (sep : string) : string :=
  match elems with
  | [] => EmptyString
  | [e] => e
  | e :: rest => e ++ sep ++ strings_Join rest sep
  end.

(** One conjunct of a WHERE clause. The source builds the text directly;
    the conjuncts are kept as data so that a statement can be both
    rendered (the text the source builds) and evaluated on a primary
    key. *)
Inductive Clause : Type :=
  | ClauseExtra (sql : string)              (* "(" + extraWhereClause + ")" *)
  | ClauseLt (column : string) (bound : Z)  (* column < bound *)
  | ClauseGe (column : string) (bound : Z). (* column >= bound *)

(** Whether a row with primary key [id] satisfies the conjunct;
    [extra id] tells whether the row satisfies the caller's extra
    clause. *)
Definition Clause_holds (extra : Z -> bool) (id : Z) (c : Clause) : bool :=
  match c with
  | ClauseExtra _ => extra id
  | ClauseLt _ bound => id <? bound
  | ClauseGe _ bound => id >=? bound
  end.

Definition Clauses_hold (extra : Z -> bool) (id : Z) (cs : list Clause) : bool :=
  forallb (Clause_holds extra id) cs.

Definition Clause_on_key (c : Clause) : bool :=
  match c with
  | ClauseExtra _ => false
  | ClauseLt _ _ => true
  | ClauseGe _ _ => true
  end.

(** The reader with a WHERE clause built by [chunkWhere] (reader.go). *)
Module Reader.

(** [fmt.Sprintf("%s < %d", ...)], [fmt.Sprintf("%s >= %d", ...)] and
    ["(" + extraWhereClause + ")"]. *)
Definition Clause_text (c : Clause) : string :=
  match c with
  | ClauseExtra sql => "(" ++ sql ++ ")"
  | ClauseLt column bound => column ++ " < " ++ fmt_d bound
  | ClauseGe column bound => column ++ " >= " ++ fmt_d bound
  end.

(** The [clauses] slice of [chunkWhere] when the function reaches its
    last statement. *)
Definition chunkClauses (chunk : Chunk) (extraWhereClause : string) : list Clause :=
  let table := Chunk_Table chunk in
  let clauses : list Clause := [] in
  let clauses :=
    if String.eqb extraWhereClause EmptyString then clauses
    else clauses ++ [ClauseExtra extraWhereClause] in
  if Chunk_First chunk && Chunk_Last chunk then
    clauses
  else if Chunk_First chunk then
    clauses ++ [ClauseLt (Table_IDColumn table) (Chunk_End chunk)]
  else if Chunk_Last chunk then
    clauses ++ [ClauseGe (Table_IDColumn table) (Chunk_Start chunk)]
  else
    clauses ++ [ClauseGe (Table_IDColumn table) (Chunk_Start chunk);
                ClauseLt (Table_IDColumn table) (Chunk_End chunk)].

Definition chunkWhere (chunk : Chunk) (extraWhereClause : string) : string :=
  let clauses := List.map Clause_text (chunkClauses chunk extraWhereClause) in
  match clauses with
  | [] => EmptyString
  | _ :: _ => "where " ++ strings_Join clauses " and "
  end.

(** The statement [StreamChunk] hands to [QueryContext]. *)
Definition StreamChunk_stmt (chunk : Chunk) (hint extraWhereClause : string) : string :=
  let table := Chunk_Table chunk in
  let columns := Table_ColumnList table in
  let where_ := chunkWhere chunk extraWhereClause in
  "select " ++ columns ++ " " ++ hint ++ " from " ++ Table_Name table ++ " "
    ++ where_ ++ " order by " ++ Table_IDColumn table ++ " asc".

(** Whether the statement selects the row with primary key [id]. *)
Definition StreamChunk_selects (chunk : Chunk) (extraWhereClause : string)
    (extra : Z -> bool) (id : Z) : bool :=
  Clauses_hold extra id (chunkClauses chunk extraWhereClause).

End Reader.

(** The reader of the sharded pipeline, with placeholders (stream.go). *)
Module ShardedReader.

(** A statement with [?] placeholders and its arguments. *)
Record Query : Type := mkQuery {
  Query_sql : string;
  Query_args : list Z
}.

(** The statement and arguments [StreamChunk] hands to [QueryContext]. *)
Definition StreamChunk_query (chunk : Chunk) : Query :=
  let table := Chunk_Table chunk in
  let columns := Table_ColumnList table in
  if Chunk_First chunk then
    mkQuery ("select " ++ columns ++ " from " ++ Table_Name table ++ " where "
               ++ Table_IDColumn table ++ " < ? order by "
               ++ Table_IDColumn table ++ " asc")
            [Chunk_End chunk]
  else if Chunk_Last chunk then
    mkQuery ("select " ++ columns ++ " from " ++ Table_Name table ++ " where "
               ++ Table_IDColumn table ++ " >= ? order by "
               ++ Table_IDColumn table ++ " asc")
            [Chunk_Start chunk]
  else
    mkQuery ("select " ++ columns ++ " from " ++ Table_Name table ++ " where "
               ++ Table_IDColumn table ++ " >= ? and "
               ++ Table_IDColumn table ++ " < ? order by "
               ++ Table_IDColumn table ++ " asc")
            [Chunk_Start chunk; Chunk_End chunk].

(** The conjuncts of the WHERE clause of that statement, with each
    placeholder bound to its argument. *)
Definition StreamChunk_clauses (chunk : Chunk) : list Clause :=
  let table := Chunk_Table chunk in
  if Chunk_First chunk then
    [ClauseLt (Table_IDColumn table) (Chunk_End chunk)]
  else if Chunk_Last chunk then
    [ClauseGe (Table_IDColumn table) (Chunk_Start chunk)]
  else
    [ClauseGe (Table_IDColumn table) (Chunk_Start chunk);
     ClauseLt (Table_IDColumn table) (Chunk_End chunk)].

(** Text of a conjunct with a placeholder for its bound. *)
Definition Clause_placeholder (c : Clause) : string :=
  match c with
  | ClauseExtra sql => "(" ++ sql ++ ")"
  | ClauseLt column _ => column ++ " < ?"
  | ClauseGe column _ => column ++ " >= ?"
  end.

Definition Clause_args (c : Clause) : list Z :=
  match c with
  | ClauseExtra _ => []
  | ClauseLt _ bound => [bound]
  | ClauseGe _ bound => [bound]
  end.

(** Whether the statement selects the row with primary key [id]. *)
Definition StreamChunk_selects (chunk : Chunk) (id : Z) : bool :=
  Clauses_hold (fun _ => true) id (StreamChunk_clauses chunk).

End ShardedReader.

(** A run of chunks that share boundaries: a prefix chunk, interior
    chunks that each start where the previous one ended, and a tail
    chunk that starts where the last one ended. Every interior chunk is
    a range [Start, End) with [Start <= End]. *)
Fixpoint chunk_chain (table : Table) (lower : Z) (chunks : list Chunk) : Prop :=
  match chunks with
  | [] => False
  | c :: rest =>
      Chunk_Table c = table /\ Chunk_First c = false /\ Chunk_Start c = lower /\
      is_int64 (Chunk_Start c) /\
      match rest with
      | [] => Chunk_Last c = true
      | _ :: _ =>
          Chunk_Last c = false /\ is_int64 (Chunk_End c) /\
          Chunk_Start c <= Chunk_End c /\
          chunk_chain table (Chunk_End c) rest
      end
  end.

Definition chunk_sequence (table : Table) (chunks : list Chunk) : Prop :=
  match chunks with
  | [] => False
  | c :: rest =>
      Chunk_Table c = table /\ Chunk_First c = true /\ Chunk_Last c = false /\
      is_int64 (Chunk_End c) /\ chunk_chain table (Chunk_End c) rest
  end.

(* --------------------------------------------------------------------- *)
(* Diffs, batches, channels and the enqueue counter                       *)
(* --------------------------------------------------------------------- *)

(** Modelled from the spec: the declaration of [DiffType] is not part of
    the sources. A diff is one of insert, update and delete, and the
    type's text is the [type] label of the counters. *)
Inductive DiffType : Type := Insert | Update | Delete.

Definition DiffType_string (t : DiffType) : string :=
  match t with
  | Insert => "insert"
  | Update => "update"
  | Delete => "delete"
  end.

#[global] Instance DiffType_eq_dec : EqDecision DiffType.
Proof. solve_decision. Defined.

#[global] Instance DiffType_countable : Countable DiffType.
Proof.
  refine (inj_countable'
            (fun t => match t with Insert => 0%nat | Update => 1%nat | Delete => 2%nat end)
            (fun n => match n with 0%nat => Insert | 1%nat => Update | _ => Delete end) _).
  intros []; reflexivity.
Defined.

Record Diff : Type := mkDiff {
  Diff_Type : DiffType;
  Diff_Row : Row
}.

Record Batch : Type := mkBatch {
  Batch_Type : DiffType;
  Batch_Table : Table;
  Batch_Rows : list Row
}.

(** A channel as its producer sees it: what has been sent so far, oldest
    first, and how many times [close] was called on it. *)
Record chan (A : Type) : Type := mkChan {
  chan_sent : list A;
  chan_closes : nat
}.
Arguments mkChan {A} _ _.
Arguments chan_sent {A} _.
Arguments chan_closes {A} _.

Definition make_chan {A : Type} : chan A := mkChan [] 0.

Definition chan_send {A : Type} (c : chan A) (a : A) : chan A :=
  mkChan (chan_sent c ++ [a]) (chan_closes c).

Definition chan_close {A : Type} (c : chan A) : chan A :=
  mkChan (chan_sent c) (Datatypes.S (chan_closes c)).

(** A counter vector labelled by table and type. The counters are
    floating point in the source; they only ever receive row counts,
    which are integers. *)
Definition CounterVec_Add (vec : gmap (string * string) Z)
    (table type : string) (n : Z) : gmap (string * string) Z :=
  <[(table, type) := default 0 (vec !! (table, type)) + n]> vec.

Definition CounterVec_value (vec : gmap (string * string) Z)
    (table type : string) : Z :=
  default 0 (vec !! (table, type)).

(** [len(rows)] as a Go [int]. *)
Definition len {A : Type} (l : list A) : Z := Z.of_nat (length l).

(** How a [select] loop over an input channel and [ctx.Done()] ends:
    the input is closed, or the loop observes the cancellation first. *)
Inductive ending : Type := InputClosed | CtxDone.

(* --------------------------------------------------------------------- *)
(* The batcher (batcher.go)                                               *)
(* --------------------------------------------------------------------- *)

Module Batcher.

(** What the batcher writes to: the [writesEnqueued] counter vector
    that batcher.go declares and the [batches] channel. *)
Record Out : Type := mkOut {
  writesEnqueued : gmap (string * string) Z;
  batches : chan Batch
}.

Definition Out_init : Out := mkOut ∅ make_chan.

Definition enqueueBatch (out : Out) (batch : Batch) : Out :=
  mkOut (CounterVec_Add (writesEnqueued out)
           (Table_Name (Batch_Table batch)) (DiffType_string (Batch_Type batch))
           (len (Batch_Rows batch)))
        (chan_send (batches out) batch).

(** [for _, batch := range ...] over the open batches: those with rows
    are enqueued. Go ranges over a map in no particular order; the model
    takes the order of the map's list of bindings. *)
Fixpoint flush (open : list Batch) (out : Out) : Out :=
  match open with
  | [] => out
  | batch :: rest =>
      let out := if 0 <? len (Batch_Rows batch) then enqueueBatch out batch else out in
      flush rest out
  end.

(** The [select] loop of [BatchTableWrites], started with the open
    batches [batchesByType]: it receives [diffs] one by one and then
    ends as [fin] tells. *)
Fixpoint BatchTableWrites_loop (batchSize : Z) (diffs : list Diff) (fin : ending)
    (batchesByType : gmap DiffType Batch) (out : Out) : Out :=
  match diffs with
  | [] =>
      match fin with
      | InputClosed => flush (snd <$> map_to_list batchesByType) out
      | CtxDone => out
      end
  | diff :: more =>
      let batch :=
        match batchesByType !! Diff_Type diff with
        | Some batch => batch
        | None => mkBatch (Diff_Type diff) (Row_Table (Diff_Row diff)) []
        end in
      let batch := mkBatch (Batch_Type batch) (Batch_Table batch)
                     (Batch_Rows batch ++ [Diff_Row diff]) in
      let '(batch, out) :=
        if len (Batch_Rows batch) >=? batchSize
        then (mkBatch (Batch_Type batch) (Batch_Table batch) [], enqueueBatch out batch)
        else (batch, out) in
      BatchTableWrites_loop batchSize more fin
        (<[Diff_Type diff := batch]> batchesByType) out
  end.

(** [BatchTableWrites]: the batcher of one table. It always returns nil. *)
Definition BatchTableWrites (batchSize : Z) (diffs : list Diff) (fin : ending)
    (out : Out) : Out :=
  BatchTableWrites_loop batchSize diffs fin ∅ out.

(** The open batches of [BatchWrites], table by table within each type. *)
Definition open_batches (batchesByType : gmap DiffType (gmap string Batch))
    : list Batch :=
  concat ((fun byTable : gmap string Batch => snd <$> map_to_list byTable)
            <$> (snd <$> map_to_list batchesByType)).

(** The [readChannel] loop of [BatchWrites]; it returns the open batches
    it leaves and what it has written. *)
Fixpoint BatchWrites_loop (batchSize : Z) (diffs : list Diff)
    (batchesByType : gmap DiffType (gmap string Batch)) (out : Out)
    : gmap DiffType (gmap string Batch) * Out :=
  match diffs with
  | [] => (batchesByType, out)
  | diff :: more =>
      let '(batchesByTable, batchesByType) :=
        match batchesByType !! Diff_Type diff with
        | Some batchesByTable => (batchesByTable, batchesByType)
        | None => (∅, <[Diff_Type diff := ∅]> batchesByType)
        end in
      let name := Table_Name (Row_Table (Diff_Row diff)) in
      let batch :=
        match batchesByTable !! name with
        | Some batch => batch
        | None => mkBatch (Diff_Type diff) (Row_Table (Diff_Row diff)) []
        end in
      let batch := mkBatch (Batch_Type batch) (Batch_Table batch)
                     (Batch_Rows batch ++ [Diff_Row diff]) in
      let '(batch, out) :=
        if len (Batch_Rows batch) >=? batchSize
        then (mkBatch (Batch_Type batch) (Batch_Table batch) [], enqueueBatch out batch)
        else (batch, out) in
      (* batchesByTable is a map held by reference in batchesByType *)
      BatchWrites_loop batchSize more
        (<[Diff_Type diff := <[name := batch]> batchesByTable]> batchesByType) out
  end.

(** [BatchWrites]: both ways out of the loop, the closed input and the
    cancellation, break to the same code after it, which enqueues the
    open batches and closes the channel. It always returns nil. *)
Definition BatchWrites (batchSize : Z) (diffs : list Diff) (fin : ending)
    (out : Out) : Out :=
  let '(batchesByType, out) := BatchWrites_loop batchSize diffs ∅ out in
  let out := flush (open_batches batchesByType) out in
  mkOut (writesEnqueued out) (chan_close (batches out)).

(** A batch and the diffs it was built from: they are a subsequence of
    the diffs received, their rows are the rows of the batch in order,
    and they all have the type of the batch. *)
Definition built_from (received : list Diff) (batch : Batch) : Prop :=
  exists ds : list Diff,
    sublist ds received /\
    Diff_Row <$> ds = Batch_Rows batch /\
    Forall (fun d => Diff_Type d = Batch_Type batch) ds.

End Batcher.

(* --------------------------------------------------------------------- *)
(* The per-table pipeline and its supervisor (reader.go)                  *)
(* --------------------------------------------------------------------- *)

Module Supervisor.

(** How a task or a call ends: it returns its error, it panics (which
    takes the process down), or it never returns. *)
Inductive outcome : Type :=
  | Returned (err : option error)
  | Panicked
  | Blocked.

(** [*semaphore.Weighted]; the pointer may be nil. *)
Record Weighted : Type := mkWeighted { Weighted_size : Z }.

Inductive acquired : Type :=
  | AcquireOk
  | AcquireErr (err : error)
  | AcquirePanic
  | AcquireBlocks.

(** [s.Acquire(ctx, 1)]. The method locks [s.mu] first, so a nil
    receiver is a nil-pointer dereference. On a semaphore that exists,
    [answer] is the context's error when the context is done before a
    permit is free, and nil when the context is never done: the call
    then returns nil with its permit, unless the semaphore has no
    permit at all to give (a size below 1), in which case it waits for
    the context for ever. *)
Definition Weighted_Acquire (s : option Weighted) (answer : option error) : acquired :=
  match s with
  | None => AcquirePanic
  | Some w =>
      match answer with
      | Some err => AcquireErr err
      | None => if Weighted_size w <? 1 then AcquireBlocks else AcquireOk
      end
  end.

(** The options of the [Clone] command the pipeline reads. *)
Record Clone : Type := mkClone {
  QueueSize : Z;
  ChunkSize : Z;
  WriteBatchSize : Z
}.

(** What the collaborators outside these sources do during one run of
    the pipeline of a table, when the cancellation is observed, and how
    the goroutines are scheduled. [GenerateTableChunks], [diffChunk]
    and [scheduleWriteBatch] are given the context, and the first two a
    timeout; they are described as calls that return, and their sends
    are their own: a run in which one of them waits for ever is not
    described by any [env]. *)
Record Env : Type := mkEnv {
  (* the chunker's Acquire on a semaphore that exists *)
  env_chunker_Acquire : option error;
  (* GenerateTableChunks: the chunks it sends and the error it returns *)
  env_GenerateTableChunks : list Chunk * option error;
  (* the differ's Acquire for a chunk, on a semaphore that exists *)
  env_differ_Acquire : Chunk -> option error;
  (* diffChunk: the diffs it sends and the error it returns *)
  env_diffChunk : Chunk -> list Diff * option error;
  (* Some k: the batcher's select takes ctx.Done() after k diffs *)
  env_batcher_Done : option nat;
  (* scheduleWriteBatch: the error it returns *)
  env_scheduleWriteBatch : Batch -> option error;
  (* the error of the write that scheduleWriteBatch started in the group *)
  env_write : Batch -> option error;
  (* the chunk diffs run side by side: the one whose next send on the
     diffs channel comes next, send after send, numbered as started *)
  env_diff_schedule : list nat;
  (* the chunk diffs that return first, in the order in which they do *)
  env_diff_finish : list nat;
  (* the writes that return first, in the order in which they do,
     numbered as scheduled *)
  env_write_finish : list nat;
  (* the tasks of the table that return first, in the order in which
     they do: 0 the chunker, 1 the differ, 2 the batcher, 3 the writer *)
  env_task_order : list nat
}.

Inductive LogEntry : Type :=
  | LogInfo (msg : string)
  | LogError (err : error).

Definition is_LogError (e : LogEntry) : bool :=
  match e with
  | LogInfo _ => false
  | LogError _ => true
  end.

(** State that outlives one table: the counter vector [writesEnqueued]
    that reader.go declares, and the log. *)
Record World : Type := mkWorld {
  world_writesEnqueued : gmap (string * string) Z;
  world_log : list LogEntry
}.

(** [g.Wait()] of an errgroup whose tasks returned [results], in the
    order in which they returned: the first error, or nil. *)
Fixpoint errgroup_Wait (results : list (option error)) : option error :=
  match results with
  | [] => None
  | Some err :: _ => Some err
  | None :: rest => errgroup_Wait rest
  end.

(** The results of the goroutines of a group in the order in which the
    goroutines returned: [order] names those that returned first, the
    others follow as they were started. *)
Definition in_time {A : Type} (order : list nat) (results : list A) : list A :=
  flat_map (fun i => match results !! i with
                     | Some r => [r]
                     | None => []
                     end) order
  ++ results.

(** What a channel gets from goroutines that send side by side, each
    its own list in order: [schedule] names the goroutine whose next
    send the channel takes next; what is left when the schedule ends
    follows goroutine after goroutine. *)
Fixpoint interleave {A : Type} (schedule : list nat) (queues : list (list A))
    : list A :=
  match schedule with
  | [] => concat queues
  | i :: schedule =>
      match queues !! i with
      | Some (a :: queue) => a :: interleave schedule (<[i := queue]> queues)
      | _ => interleave schedule queues
      end
  end.

Definition chan_send_all {A : Type} (c : chan A) (l : list A) : chan A :=
  fold_left chan_send l c.

(** The chunker task. *)
Definition chunkerTask (readerLimiter : option Weighted) (env : Env)
    (chunks : chan Chunk) : outcome * chan Chunk :=
  match Weighted_Acquire readerLimiter (env_chunker_Acquire env) with
  | AcquirePanic => (Panicked, chunks)
  | AcquireBlocks => (Blocked, chunks)
  | AcquireErr err => (Returned (errors_WithStack (Some err)), chunks)
  | AcquireOk =>
      let '(emitted, err) := env_GenerateTableChunks env in
      let chunks := chan_send_all chunks emitted in
      let chunks := chan_close chunks in
      (Returned (errors_WithStack err), chunks)
  end.

(** The differ task: the chunk diffs it started, each with the diffs it
    sends and the error it returns, the diffs channel, and the count of
    chunks. *)
Record Differ : Type := mkDiffer {
  differ_started : list (list Diff * option error);
  differ_diffs : chan Diff;
  differ_chunkCount : Z
}.

(** [for c := range chunks]: [None] when the loop came to the end of the
    chunks received, [Some o] when the body left the task with [o]. The
    body starts the diff of the chunk in a goroutine and goes on. *)
Fixpoint differ_range (readerLimiter : option Weighted) (env : Env)
    (received : list Chunk) (st : Differ) : Differ * option outcome :=
  match received with
  | [] => (st, None)
  | chunk :: rest =>
      match Weighted_Acquire readerLimiter (env_differ_Acquire env chunk) with
      | AcquirePanic => (st, Some Panicked)
      | AcquireBlocks => (st, Some Blocked)
      | AcquireErr err => (st, Some (Returned (errors_WithStack (Some err))))
      | AcquireOk =>
          differ_range readerLimiter env rest
            (mkDiffer (differ_started st ++ [env_diffChunk env chunk])
                      (differ_diffs st)
                      (differ_chunkCount st + 1))
      end
  end.

(** The chunk diffs that were started send on the diffs channel side by
    side, whatever becomes of the task; the inner [g.Wait()] gets their
    errors in the order in which they return. *)
Definition differTask (readerLimiter : option Weighted) (env : Env)
    (chunks : chan Chunk) (diffs : chan Diff) : outcome * Differ :=
  let '(st, exit) := differ_range readerLimiter env (chan_sent chunks)
                       (mkDiffer [] diffs 0) in
  let sent := interleave (env_diff_schedule env)
                (List.map fst (differ_started st)) in
  let st := mkDiffer (differ_started st)
              (chan_send_all (differ_diffs st) sent)
              (differ_chunkCount st) in
  match exit with
  | Some o => (o, st)
  | None =>
      match chan_closes chunks with
      | O => (Blocked, st)  (* range over a channel nobody closes *)
      | Datatypes.S _ =>
          match errgroup_Wait (in_time (env_diff_finish env)
                                 (List.map snd (differ_started st))) with
          | Some err => (Returned (errors_WithStack (Some err)), st)
          | None =>
              (* All diffing done, close the diffs channel *)
              (Returned None,
               mkDiffer (differ_started st) (chan_close (differ_diffs st))
                        (differ_chunkCount st))
          end
      end
  end.

(** [make(chan Batch, cmd.QueueSize)]: the sends that complete while
    nobody receives. The tasks are those of a pipeline whose channels
    were made; a size below 0, with which [make] panics, gives no room
    here. *)
Definition chan_capacity (cmd : Clone) : nat := Z.to_nat (QueueSize cmd).

(** The loop of the writer task receives batch after batch and leaves
    at the first batch that [scheduleWriteBatch] refuses: [Some n] when
    it takes [n] of [batches] and no more, [None] when it takes all
    that come. *)
Fixpoint writer_takes (env : Env) (batches : list Batch) : option nat :=
  match batches with
  | [] => None
  | batch :: rest =>
      match env_scheduleWriteBatch env batch with
      | Some _ => Some 1%nat
      | None =>
          match writer_takes env rest with
          | Some n => Some (Datatypes.S n)
          | None => None
          end
      end
  end.

(** The send in [enqueueBatch] has no way out: of the batches [wanted]
    that a run of the batcher comes to send, all go through ([None]) as
    long as the writer receives; once the writer has left, those it
    took and those the channel buffers go through, and the next send
    ([Some n], after [n] sends) stays for ever. *)
Definition sends_completed (env : Env) (cmd : Clone) (wanted : list Batch)
    : option nat :=
  match writer_takes env wanted with
  | Some taken =>
      let room := (taken + chan_capacity cmd)%nat in
      if (room <? length wanted)%nat then Some room else None
  | None => None
  end.

(** The batcher task: [BatchTableWrites], then [close(batches)]. *)
Definition batcherTask (env : Env) (cmd : Clone) (diffs : chan Diff)
    (out : Batcher.Out) : outcome * Batcher.Out :=
  let '(received, fin, returns) :=
    match env_batcher_Done env with
    | Some k => (take k (chan_sent diffs), CtxDone, true)
    | None =>
        match chan_closes diffs with
        | O => (* neither case of the select ever fires again *)
            (chan_sent diffs, CtxDone, false)
        | Datatypes.S _ => (chan_sent diffs, InputClosed, true)
        end
    end in
  let run := Batcher.BatchTableWrites (WriteBatchSize cmd) received fin out in
  let wanted := drop (length (chan_sent (Batcher.batches out)))
                  (chan_sent (Batcher.batches run)) in
  match sends_completed env cmd wanted with
  | Some room =>
      (* enqueueBatch has counted the batch and stays in its send *)
      let upto := fold_left Batcher.enqueueBatch (take (Datatypes.S room) wanted) out in
      (Blocked,
       Batcher.mkOut (Batcher.writesEnqueued upto)
         (chan_send_all (Batcher.batches out) (take room wanted)))
  | None =>
      if returns : bool then
        let err : option error := None in
        (Returned (errors_WithStack err),
         Batcher.mkOut (Batcher.writesEnqueued run)
           (chan_close (Batcher.batches run)))
      else (Blocked, run)
  end.

(** The writer task: its counters, the counter vector and the group of
    the writes it scheduled. *)
Record Writer : Type := mkWriter {
  writer_updates : Z;
  writer_deletes : Z;
  writer_inserts : Z;
  writer_writesEnqueued : gmap (string * string) Z;
  writer_results : list (option error)
}.

Fixpoint writer_range (env : Env) (received : list Batch) (st : Writer)
    : Writer * option outcome :=
  match received with
  | [] => (st, None)
  | batch :: rest =>
      let size := len (Batch_Rows batch) in
      let updates := match Batch_Type batch with
                     | Update => writer_updates st + size
                     | _ => writer_updates st end in
      let deletes := match Batch_Type batch with
                     | Delete => writer_deletes st + size
                     | _ => writer_deletes st end in
      let inserts := match Batch_Type batch with
                     | Insert => writer_inserts st + size
                     | _ => writer_inserts st end in
      let vec := CounterVec_Add (writer_writesEnqueued st)
                   (Table_Name (Batch_Table batch))
                   (DiffType_string (Batch_Type batch))
                   (len (Batch_Rows batch)) in
      match env_scheduleWriteBatch env batch with
      | Some err =>
          (mkWriter updates deletes inserts vec (writer_results st),
           Some (Returned (errors_WithStack (Some err))))
      | None =>
          writer_range env rest
            (mkWriter updates deletes inserts vec
                      (writer_results st ++ [env_write env batch]))
      end
  end.

Definition writerTask (env : Env) (batches : chan Batch)
    (vec : gmap (string * string) Z) : outcome * Writer :=
  let '(st, exit) := writer_range env (chan_sent batches)
                       (mkWriter 0 0 0 vec []) in
  match exit with
  | Some o => (o, st)
  | None =>
      match chan_closes batches with
      | O => (Blocked, st)
      | Datatypes.S _ =>
          (Returned (errgroup_Wait (in_time (env_write_finish env)
                                      (writer_results st))), st)
      end
  end.

(** The four tasks of one table and the three channels between them.
    Each channel has one receiver, which takes what the channel got in
    order; the model runs the tasks one after the other, and [env] says
    how the goroutines interleave and when the cancellation is
    observed. The counter [writesEnqueued] of reader.go, which the
    writer task adds to, starts from [vec]; batcher.go has a counter
    [writesEnqueued] of its own, another variable, which starts here
    from nothing. *)
Record Stages : Type := mkStages {
  st_chunker : outcome;
  st_differ : outcome;
  st_batcher : outcome;
  st_writer : outcome;
  st_chunks : chan Chunk;
  st_diffs : chan Diff;
  st_batches : chan Batch;
  st_writesEnqueued : gmap (string * string) Z;  (* the counter of reader.go *)
  st_counts : Z * Z * Z * Z;  (* chunks, inserts, deletes, updates *)
  st_batcher_writesEnqueued : gmap (string * string) Z;  (* the counter of batcher.go *)
  st_order : list nat  (* the tasks that returned first *)
}.

Definition runStages (env : Env) (cmd : Clone) (readerLimiter : option Weighted)
    (vec : gmap (string * string) Z) : Stages :=
  let '(chunker, chunks) := chunkerTask readerLimiter env make_chan in
  let '(differ, d) := differTask readerLimiter env chunks make_chan in
  let '(batcher, out) := batcherTask env cmd (differ_diffs d)
                           (Batcher.mkOut ∅ make_chan) in
  let '(writer, w) := writerTask env (Batcher.batches out) vec in
  mkStages chunker differ batcher writer
    chunks (differ_diffs d) (Batcher.batches out) (writer_writesEnqueued w)
    (differ_chunkCount d, writer_inserts w, writer_deletes w, writer_updates w)
    (Batcher.writesEnqueued out) (env_task_order env).

(** [g.Wait()] of the group of the four tasks. A panic in a task ends
    the process; a task that never returns keeps [Wait] from returning.
    The group keeps the error of the task that returned one first. *)
Definition stages_Wait (s : Stages) : outcome :=
  let tasks := [st_chunker s; st_differ s; st_batcher s; st_writer s] in
  if existsb (fun o => match o with Panicked => true | _ => false end) tasks
  then Panicked
  else if existsb (fun o => match o with Blocked => true | _ => false end) tasks
  then Blocked
  else Returned (errgroup_Wait
                   (in_time (st_order s)
                      (List.map (fun o => match o with Returned err => err | _ => None end)
                         tasks))).

(** The end of [processTable], from [err := g.Wait()] on. *)
Definition processTable_report (err : option error) (log : list LogEntry)
    : option error * list LogEntry :=
  match err with
  | Some e =>
      let log := if negb (errors_Is_Canceled e) then log ++ [LogError e] else log in
      (errors_WithStack (Some e), log)
  | None => (None, log ++ [LogInfo "success"])
  end.

Definition processTable (env : Env) (table : Table) (cmd : Clone)
    (writerLimiter readerLimiter : option Weighted)
    (targetFilter : list (option ShardGate.KeyRange)) (w : World)
    : outcome * World :=
  let log := world_log w ++ [LogInfo "start"] in
  let s := runStages env cmd readerLimiter (world_writesEnqueued w) in
  match stages_Wait s with
  | Returned err =>
      let '(ret, log) := processTable_report err log in
      (Returned ret, mkWorld (st_writesEnqueued s) log)
  | Panicked => (Panicked, mkWorld (st_writesEnqueued s) log)
  | Blocked => (Blocked, mkWorld (st_writesEnqueued s) log)
  end.

(** What the [select] of [ProcessTables] takes, one entry per turn of
    its loop. *)
Inductive TableEvent : Type :=
  | RecvTable (table : Table)
  | TableChClosed
  | ParentDone.

(** The loop of [ProcessTables] around a call [run] per table. *)
Fixpoint ProcessTables_loop (run : Table -> World -> outcome * World)
    (events : list TableEvent) (w : World) : outcome * World :=
  match events with
  | [] => (Blocked, w)
  | TableChClosed :: _ => (Returned None, w)
  | ParentDone :: _ => (Returned None, w)
  | RecvTable table :: rest =>
      match run table w with
      | (Returned None, w) => ProcessTables_loop run rest w
      | (Returned (Some err), w) => (Returned (errors_WithStack (Some err)), w)
      | (Panicked, w) => (Panicked, w)
      | (Blocked, w) => (Blocked, w)
      end
  end.

(** [ProcessTables]: the reader limiter it passes on is nil. *)
Definition ProcessTables (env : Table -> Env) (events : list TableEvent)
    (cmd : Clone) (writerLimiter : option Weighted)
    (targetFilter : list (option ShardGate.KeyRange)) (w : World)
    : outcome * World :=
  ProcessTables_loop
    (fun table w =>
       processTable (env table) table cmd writerLimiter None targetFilter w)
    events w.

End Supervisor.

(* --------------------------------------------------------------------- *)
(* Buffered streams (reader.go)                                           *)
(* --------------------------------------------------------------------- *)

Module Buffered.

(** [bufferStream.Next] and [bufferStream.Close], for rows of any type:
    [Next] pops the head, [Close] has nothing to do. *)
Definition bufferStream_Next {R : Type} (rows : list R)
    : result (option R) * list R :=
  match rows with
  | [] => (Ok None, rows)
  | row :: rest => (Ok (Some row), rest)
  end.

Definition bufferStream_Close {R : Type} (rows : list R) : option error * list R :=
  (None, rows).

(** [stream(rows)]: the rows as a stream. *)
Definition stream {R : Type} (rows : list R) : list R := rows.

Section Source.

(** A [RowStream] with state [S]: its [Next] and its [Close]. *)
Context {R S : Type}.
Variable Next : S -> result (option R) * S.
Variable Close : S -> option error * S.

(** The loop of [readAll]; it has no bound in the source, [fuel] bounds
    the number of its turns. *)
Fixpoint readAll_loop (fuel : nat) (s : S) (rows : list R)
    : option (result (list R) * S) :=
  match fuel with
  | O => None
  | Datatypes.S fuel' =>
      match Next s with
      | (Err err, s') => Some (Err (WithStack err), s')
      | (Ok None, s') => Some (Ok rows, s')
      | (Ok (Some row), s') => readAll_loop fuel' s' (rows ++ [row])
      end
  end.

(** [readAll]: the loop, and the deferred [Close], whose error is
    dropped. *)
Definition readAll (fuel : nat) (s : S) : option (result (list R) * S) :=
  match readAll_loop fuel s [] with
  | None => None
  | Some (r, s') => Some (r, (Close s').2)
  end.

(** [buffer]: the rows read become a buffered stream; an error is
    wrapped once more. *)
Definition buffer (fuel : nat) (s : S) : option (result (list R) * S) :=
  match readAll fuel s with
  | None => None
  | Some (Err err, s') => Some (Err (WithStack err), s')
  | Some (Ok rows, s') => Some (Ok (stream rows), s')
  end.

(** [Drains s rows last]: the calls of [Next] from state [s] return
    [rows], in this order, and then nil, which leaves the state
    [last]. *)
Inductive Drains : S -> list R -> S -> Prop :=
  | Drains_end s s' :
      Next s = (Ok None, s') -> Drains s [] s'
  | Drains_row s row s' rows last :
      Next s = (Ok (Some row), s') -> Drains s' rows last ->
      Drains s (row :: rows) last.

(** [Breaks s rows err last]: the calls of [Next] from state [s] return
    [rows] and then the error [err], which leaves the state [last]. *)
Inductive Breaks : S -> list R -> error -> S -> Prop :=
  | Breaks_now s err s' :
      Next s = (Err err, s') -> Breaks s [] err s'
  | Breaks_row s row s' rows err last :
      Next s = (Ok (Some row), s') -> Breaks s' rows err last ->
      Breaks s (row :: rows) err last.

End Source.

End Buffered.

(* --------------------------------------------------------------------- *)
(* Rows and their primary key (reader.go)                                 *)
(* --------------------------------------------------------------------- *)

Module PlainRows.

(** The [Row] of reader.go: it has no sharding id. *)
Record Row : Type := mkRow {
  Row_Table : Table;
  Row_ID : Z;
  Row_Data : list Cell
}.

Section Ops.

(** [Table.PkOfRow], whose source is not at hand: the primary key that
    a slice of column values holds. *)
Variable PkOfRow : Table -> list Cell -> Z.

Definition PkAfterOrEqual (r : Row) (row : list Cell) : bool :=
  Row_ID r >=? PkOfRow (Row_Table r) row.

Definition PkEqual (r : Row) (row : list Cell) : bool :=
  Row_ID r =? PkOfRow (Row_Table r) row.

(** [Updated]: [None] stands for the panic. *)
Definition Updated (r : Row) (row : list Cell) : option Row :=
  if negb (PkOfRow (Row_Table r) row =? Row_ID r) then None
  else Some (mkRow (Row_Table r) (Row_ID r) row).

End Ops.

End PlainRows.

(* --------------------------------------------------------------------- *)
(* Scanning a row (stream.go and reader.go)                               *)
(* --------------------------------------------------------------------- *)

(** How a call that may panic ends. *)
Inductive called (A : Type) : Type :=
  | Gives (r : result A)
  | Panics.
Arguments Gives {A} r.
Arguments Panics {A}.

Module Scanner.

(** [*sql.Rows] as the streams use it: the rows still to come, each
    with the values of its columns as the driver hands them over, and
    what [Columns] returns. *)
Record Rows : Type := mkRows {
  Rows_pending : list (list Cell);
  Rows_Columns : result (list string)
}.

Definition Rows_advance (rows : Rows) : Rows :=
  mkRows (tail (Rows_pending rows)) (Rows_Columns rows).

(** The error of [Scan] when the number of destinations is not the
    number of values of the row. *)
Definition scan_count_error (values dests : nat) : error :=
  ErrorString ("sql: expected " ++ pretty values
               ++ " destination arguments in Scan, not " ++ pretty dests).

(** [rowStream.Next] of stream.go. Every destination of [Scan] is an
    [interface{}] slot of [row], which takes the driver's value as it
    is; [Scan] fails, storing nothing, when the counts differ. The two
    type assertions come before the test of the error. *)
Definition Next_sharded (table : Table) (rows : Rows) : called (option Row) * Rows :=
  match Rows_pending rows with
  | [] => (Gives (Ok None), rows)
  | values :: _ =>
      let rows' := Rows_advance rows in
      match Rows_Columns rows with
      | Err err => (Gives (Err (WithStack err)), rows')
      | Ok cols =>
          let n := length cols in
          let row : list Cell := replicate n CNull in
          if negb (Table_IDColumnIndex table <? n)%nat then (Panics, rows') else
          let row := <[Table_IDColumnIndex table := CInt 0]> row in
          if negb (Table_ShardingColumnIndex table <? n)%nat then (Panics, rows') else
          let row := <[Table_ShardingColumnIndex table := CInt 0]> row in
          let '(row, err) :=
            if (length values =? n)%nat then (values, None)
            else (row, Some (scan_count_error (length values) n)) in
          match row !! Table_IDColumnIndex table with
          | Some (CInt id) =>
              match row !! Table_ShardingColumnIndex table with
              | Some (CInt shardingID) =>
                  match err with
                  | Some err => (Gives (Err (WithStack err)), rows')
                  | None =>
                      (Gives (Ok (Some (mkRow table id shardingID row))), rows')
                  end
              | _ => (Panics, rows')
              end
          | _ => (Panics, rows')
          end
      end
  end.

Section Plain.

(** The conversion [Scan] makes into an [int64] destination; it is the
    library's, and may fail. *)
Variable asInt64 : Cell -> result Z.

(** [rowStream.Next] of reader.go. The destination for the id column is
    the local [id]; the other destinations are the slots of [row]. If no
    column is the id column, [id] stays zero and the assignment to the
    id slot after the scan is out of range. *)
Definition Next_plain (table : Table) (rows : Rows)
    : called (option PlainRows.Row) * Rows :=
  match Rows_pending rows with
  | [] => (Gives (Ok None), rows)
  | values :: _ =>
      let rows' := Rows_advance rows in
      match Rows_Columns rows with
      | Err err => (Gives (Err (WithStack err)), rows')
      | Ok cols =>
          let n := length cols in
          if negb (length values =? n)%nat
          then (Gives (Err (WithStack (scan_count_error (length values) n))), rows')
          else
            match values !! Table_IDColumnIndex table with
            | None => (Panics, rows')
            | Some v =>
                match asInt64 v with
                | Err err => (Gives (Err (WithStack err)), rows')
                | Ok id =>
                    let row := <[Table_IDColumnIndex table := CInt id]> values in
                    (Gives (Ok (Some (PlainRows.mkRow table id row))), rows')
                end
            end
      end
  end.

End Plain.

End Scanner.

(* --------------------------------------------------------------------- *)
(* The limited reader (reader.go)                                         *)
(* --------------------------------------------------------------------- *)

Module Limited.

(** The errors [QueryContext] returns: [errors.Wrap] of the context's
    error, [errors.New], and [errors.WithStack] of the reader's error. *)
Inductive qerror : Type :=
  | Wrap (cause : error) (msg : string)
  | New (msg : string)
  | Stack (cause : error).

(** How a call ends, with what it did: it returns rows or an error, or
    it panics. *)
Inductive called_with (E A F : Type) : Type :=
  | Returns (r : A + E) (effects : F)
  | Panicking (effects : F).
Arguments Returns {E A F} r effects.
Arguments Panicking {E A F} effects.

(** A call on the token of the limiter. *)
Inductive TokenCall : Type := OnSuccess | OnDropped.

(** What a call of [QueryContext] does besides returning. *)
Record Effects : Type := mkEffects {
  token_calls : list TokenCall;
  observed : bool;   (* acquireTimer.ObserveDuration() *)
  queried : bool     (* l.reader.QueryContext(...) *)
}.

(** [limitingDBReader.QueryContext]. [token] tells whether the token
    [Acquire] returned is not nil and [ok] is its second result;
    [ctxErr] is [ctx.Err()]; [answer] is what the reader underneath
    returns if it is asked. A deferred call on a nil token panics. *)
Definition QueryContext {Rows : Type} (token ok : bool) (ctxErr : option error)
    (answer : result Rows) : called_with qerror Rows Effects :=
  if negb ok then
    let calls := if token then [OnDropped] else [] in
    match ctxErr with
    | Some err =>
        Returns (inr (Wrap err "context deadline exceeded")) (mkEffects calls false false)
    | None =>
        Returns (inr (New "context deadline exceeded")) (mkEffects calls false false)
    end
  else
    match answer with
    | Ok rows =>
        if token then Returns (inl rows) (mkEffects [OnSuccess] true true)
        else Panicking (mkEffects [] true true)
    | Err err =>
        if token then Returns (inr (Stack err)) (mkEffects [OnDropped] true true)
        else Panicking (mkEffects [] true true)
    end.

End Limited.

(* --------------------------------------------------------------------- *)
(* Successive calls of Next                                               *)
(* --------------------------------------------------------------------- *)

Module StreamSteps.

(** [Steps next s rows s']: successive calls of [Next] from state [s]
    return the rows [rows], in this order, and leave the state [s']. *)
Inductive Steps {S : Type} (next : S -> result (option Row) * S)
    : S -> list Row -> S -> Prop :=
  | Steps_none s : Steps next s [] s
  | Steps_row s row s' rows s'' :
      next s = (Ok (Some row), s') -> Steps next s' rows s'' ->
      Steps next s (row :: rows) s''.

End StreamSteps.

(* --------------------------------------------------------------------- *)
(* Predicates used to state the properties                                *)
(* --------------------------------------------------------------------- *)

(** The range of primary keys a chunk stands for: no lower bound when
    it is the first chunk, no upper bound when it is the last. *)
Definition in_range (c : Chunk) (id : Z) : bool :=
  (Chunk_First c || (Chunk_Start c <=? id)) && (Chunk_Last c || (id <? Chunk_End c)).

(** An emitted batch as it should be, given the diffs received so far
    and the size limit. *)
Definition well_formed (batchSize : Z) (received : list Diff) (b : Batch) : Prop :=
  1 <= len (Batch_Rows b) <= batchSize /\
  Batcher.built_from received b /\
  exists d, d ∈ received /\ Batch_Table b = Row_Table (Diff_Row d).

(** An open batch kept under the type [t]. *)
Definition open_ok (batchSize : Z) (received : list Diff) (t : DiffType)
    (b : Batch) : Prop :=
  Batch_Type b = t /\
  len (Batch_Rows b) < batchSize /\
  Batcher.built_from received b /\
  exists d, d ∈ received /\ Batch_Table b = Row_Table (Diff_Row d).

(** The batch taken from the map, or the fresh one, before the row of
    [diff] is appended to it. *)
Definition candidate (batchSize : Z) (pre : list Diff) (diff : Diff) (b : Batch) : Prop :=
  Batch_Type b = Diff_Type diff /\
  len (Batch_Rows b) < batchSize /\
  Batcher.built_from pre b /\
  (Batch_Rows b = [] /\ Batch_Table b = Row_Table (Diff_Row diff) \/
   exists d, d ∈ pre /\ Batch_Table b = Row_Table (Diff_Row d)).

(** The rows of the batches in [bs] that carry the labels [table] and
    [type]. *)
Fixpoint rows_labelled (table type : string) (bs : list Batch) : Z :=
  match bs with
  | [] => 0
  | b :: rest =>
      (if decide ((Table_Name (Batch_Table b), DiffType_string (Batch_Type b))
                  = (table, type))
       then len (Batch_Rows b) else 0) + rows_labelled table type rest
  end.

(** What has been sent and what has been counted go together. *)
Definition counted (out out' : Batcher.Out) : Prop :=
  exists new,
    chan_sent (Batcher.batches out') = chan_sent (Batcher.batches out) ++ new /\
    forall table type,
      CounterVec_value (Batcher.writesEnqueued out') table type =
      CounterVec_value (Batcher.writesEnqueued out) table type +
      rows_labelled table type new.

(** The rows of the batches of type [t], batch after batch. *)
Fixpoint rows_of_type (t : DiffType) (bs : list Batch) : list Row :=
  match bs with
  | [] => []
  | b :: rest =>
      (if decide (Batch_Type b = t) then Batch_Rows b else [])
        ++ rows_of_type t rest
  end.

(** The rows of the diffs of type [t], diff after diff. *)
Fixpoint diff_rows_of_type (t : DiffType) (ds : list Diff) : list Row :=
  match ds with
  | [] => []
  | d :: rest =>
      (if decide (Diff_Type d = t) then [Diff_Row d] else [])
        ++ diff_rows_of_type t rest
  end.

(** The rows held in the open batch of type [t]. *)
Definition open_rows (m : gmap DiffType Batch) (t : DiffType) : list Row :=
  match m !! t with
  | Some b => Batch_Rows b
  | None => []
  end.

(** The rows of the batches that satisfy [p], batch after batch. *)
Fixpoint rows_where (p : Batch -> bool) (bs : list Batch) : list Row :=
  match bs with
  | [] => []
  | b :: rest => (if p b then Batch_Rows b else []) ++ rows_where p rest
  end.

(** The rows of the diffs that satisfy [p], diff after diff. *)
Fixpoint diff_rows_where (p : Diff -> bool) (ds : list Diff) : list Row :=
  match ds with
  | [] => []
  | d :: rest => (if p d then [Diff_Row d] else []) ++ diff_rows_where p rest
  end.

(** A batch, or a diff, of type [t] for the table named [n]. *)
Definition batch_for (t : DiffType) (n : string) (b : Batch) : bool :=
  bool_decide (Batch_Type b = t /\ Table_Name (Batch_Table b) = n).

Definition diff_for (t : DiffType) (n : string) (d : Diff) : bool :=
  bool_decide (Diff_Type d = t /\ Table_Name (Row_Table (Diff_Row d)) = n).

(** The rows held in the open batch of [BatchWrites] for the type [t]
    and the table named [n]. *)
Definition open_rows_for (m : gmap DiffType (gmap string Batch))
    (t : DiffType) (n : string) : list Row :=
  match m !! t with
  | Some byTable =>
      match byTable !! n with
      | Some b => Batch_Rows b
      | None => []
      end
  | None => []
  end.

(** The open batches of [BatchWrites] are kept under their own type and
    table name, and their rows are rows of tables of that name. *)
Definition keyed (m : gmap DiffType (gmap string Batch)) : Prop :=
  forall t byTable n b,
    m !! t = Some byTable -> byTable !! n = Some b ->
    Batch_Type b = t /\ Table_Name (Batch_Table b) = n /\
    Forall (fun r => Table_Name (Row_Table r) = n) (Batch_Rows b).

(** A batch whose rows all are rows of tables with the name of the
    batch's table. *)
Definition one_table_name (b : Batch) : Prop :=
  Forall (fun r => Table_Name (Row_Table r) = Table_Name (Batch_Table b)) (Batch_Rows b).



(** The number of rows of the batches of type [t]. *)
Definition count_of_type (t : DiffType) (bs : list Batch) : Z :=
  len (rows_of_type t bs).


(** A source that comes to its end, or to an error, after [rows]. *)
Definition finite_source {S : Type} (source_Next : S -> result (option Row) * S)
    (s : S) (rows : list Row) : Prop :=
  ShardGate.Yields (ShardGate.source_rel source_Next) s rows \/
  exists err, ShardGate.Fails (ShardGate.source_rel source_Next) s rows err.

(* --------------------------------------------------------------------- *)
(* Concrete tables, rows and runs used in the examples                    *)
(* --------------------------------------------------------------------- *)

Module Sample.

Definition customers : Table := mkTable "customers" "id, name" "id" 0 0.

Definition customer (id : Z) (name : string) : Row :=
  mkRow customers id id [CInt id; CBytes name].

Definition rows4 : list Row :=
  [customer 1 "A"; customer 2 "B"; customer 3 "C"; customer 4 "D"].

(** A stand-in for the scatter hash: the low byte of the id. *)
Definition low_byte (id : Z) : list Byte.byte :=
  match Byte.of_N (Z.to_N (id mod 256)) with
  | Some b => [b]
  | None => []
  end.

(** The key range [0x02, 0x04). *)
Definition range_2_4 : option ShardGate.KeyRange :=
  Some (ShardGate.mkKeyRange [Byte.x02] [Byte.x04]).

(** Three chunks that share the boundaries 3 and 5. *)
Definition chunks3 : list Chunk :=
  [mkChunk customers 0 3 true false;
   mkChunk customers 3 5 false false;
   mkChunk customers 5 0 false true].

Definition insert1 : Diff := mkDiff Insert (customer 1 "A").

Definition diffs3 : list Diff :=
  [mkDiff Insert (customer 1 "A"); mkDiff Update (customer 2 "B");
   mkDiff Insert (customer 3 "C")].

Definition cmd : Supervisor.Clone := Supervisor.mkClone 10 2 10.

Definition limiter : option Supervisor.Weighted := Some (Supervisor.mkWeighted 4).

Definition world0 : Supervisor.World := Supervisor.mkWorld ∅ [].

(** A run in which nothing fails: one chunk, whose diff is one insert. *)
Definition env_one_insert : Supervisor.Env :=
  Supervisor.mkEnv None ([mkChunk customers 0 0 true true], None)
    (fun _ => None) (fun _ => ([insert1], None)) None
    (fun _ => None) (fun _ => None) [] [] [] [].

(** A run cancelled while the table is chunked: [GenerateTableChunks]
    returns the context's error, and nothing else fails. *)
Definition env_cancelled : Supervisor.Env :=
  Supervisor.mkEnv None ([], Some Canceled)
    (fun _ => None) (fun _ => ([], None)) None
    (fun _ => None) (fun _ => None) [] [] [] [].

(** A run in which the diff of the only chunk fails. *)
Definition env_read_failed : Supervisor.Env :=
  Supervisor.mkEnv None ([mkChunk customers 0 0 true true], None)
    (fun _ => None) (fun _ => ([], Some (ErrorString "read failed"))) (Some 0%nat)
    (fun _ => None) (fun _ => None) [] [] [] [].

(** A run of two chunks with one insert each, in which the diff of the
    second chunk sends before the diff of the first. *)
Definition env_two_chunks : Supervisor.Env :=
  Supervisor.mkEnv None
    ([mkChunk customers 0 3 true false; mkChunk customers 3 0 false true], None)
    (fun _ => None)
    (fun c => ([mkDiff Insert (customer (Chunk_Start c + 1) "A")], None)) None
    (fun _ => None) (fun _ => None) [1%nat; 0%nat] [] [] [].

(** A run in which the diff of the only chunk sends two inserts, and no
    batch can be scheduled. *)
Definition env_not_scheduled : Supervisor.Env :=
  Supervisor.mkEnv None ([mkChunk customers 0 0 true true], None)
    (fun _ => None)
    (fun _ => ([mkDiff Insert (customer 1 "A"); mkDiff Insert (customer 2 "B")], None))
    None
    (fun _ => Some (ErrorString "not scheduled")) (fun _ => None) [] [] [] [].

(** Batches of one row, and channels without a buffer. *)
Definition cmd_unbuffered : Supervisor.Clone := Supervisor.mkClone 0 2 1.

(** A run cancelled before the chunker gets its permit. *)
Definition env_refused : Supervisor.Env :=
  Supervisor.mkEnv (Some Canceled) ([], None)
    (fun _ => None) (fun _ => ([], None)) (Some 0%nat)
    (fun _ => None) (fun _ => None) [] [] [] [].

(** A stream of numbers that fails at its second call. *)
Definition flaky_Next (s : list (result nat)) : result (option nat) * list (result nat) :=
  match s with
  | [] => (Ok None, [])
  | Ok n :: rest => (Ok (Some n), rest)
  | Err e :: rest => (Err e, rest)
  end.

Definition flaky : list (result nat) := [Ok 1%nat; Err Canceled; Ok 2%nat].

(** A primary key read from the first column. *)
Definition first_column (table : Table) (row : list Cell) : Z :=
  match row with
  | CInt id :: _ => id
  | _ => 0
  end.

(** A conversion to int64 that takes integers only. *)
Definition int_only (v : Cell) : result Z :=
  match v with
  | CInt z => Ok z
  | _ => Err (ErrorString "unsupported Scan")
  end.

(** A stream of rows that fails after its second row. *)
Definition failing_Next (s : list (result Row)) : result (option Row) * list (result Row) :=
  match s with
  | [] => (Ok None, [])
  | Ok row :: rest => (Ok (Some row), rest)
  | Err e :: rest => (Err e, rest)
  end.

Definition failing : list (result Row) :=
  [Ok (customer 1 "A"); Ok (customer 2 "B"); Err Canceled; Ok (customer 3 "C")].

End Sample.

(* ===================================================================== *)
(* Properties                                                             *)
(* ===================================================================== *)

(* --------------------------------------------------------------------- *)
(* The shard gate                                                         *)
(* --------------------------------------------------------------------- *)

Module ShardGateFacts.
Import ShardGate.

(** Containment is half-open: the start is inclusive, the end exclusive,
    and an empty end is no bound. *)
Lemma KeyRangeContains_half_open (r : KeyRange) (id : list Byte.byte) :
  KeyRangeContains (Some r) id = true <->
  bytes_Compare (KeyRange_Start r) id <> Gt /\
  (KeyRange_End r = [] \/ bytes_Compare id (KeyRange_End r) = Lt).
Proof.
  unfold KeyRangeContains.
  destruct (bytes_Compare (KeyRange_Start r) id) eqn:Hs;
    destruct (KeyRange_End r) as [|e es] eqn:He;
    try destruct (bytes_Compare id (e :: es)) eqn:Hc;
    split; intros H; try discriminate; try reflexivity;
    try (split; [discriminate | auto; fail]);
    try (destruct H as [H _]; congruence);
    try (destruct H as [_ [H | H]]; congruence).
Qed.

Section Gate.

Variable vhash : Z -> list Byte.byte.

Lemma InShard_loop_exists (destination : list Byte.byte)
    (shard : list (option KeyRange)) :
  InShard_loop destination shard = true <->
  exists keyRange, keyRange ∈ shard /\ KeyRangeContains keyRange destination = true.
Proof.
  induction shard as [|kr rest IH]; simpl.
  - split; [discriminate | intros (k & Hk & _); inversion Hk].
  - destruct (KeyRangeContains kr destination) eqn:Hkr.
    + split; [intros _ | reflexivity]. exists kr. split; [left | exact Hkr].
    + rewrite IH. split.
      * intros (k & Hk & Hc). exists k. split; [right; exact Hk | exact Hc].
      * intros (k & Hk & Hc). apply elem_of_cons in Hk as [-> | Hk].
        -- congruence.
        -- exists k. split; assumption.
Qed.

Lemma InShard_exists (id : Z) (shard : list (option KeyRange)) :
  InShard vhash id shard = true <->
  exists keyRange, keyRange ∈ shard /\ KeyRangeContains keyRange (vhash id) = true.
Proof. unfold InShard. apply InShard_loop_exists. Qed.

Section Streams.

Context {S : Type}.
Variable source_Next : S -> result (option Row) * S.
Variable table : Table.
Variable targetFilter : list (option KeyRange).

#[local] Abbreviation src := (source_rel source_Next).
#[local] Abbreviation flt := (filtered_rel vhash source_Next table targetFilter).

(** More fuel does not change what the loop returns. *)
Lemma rejectStream_Next_more_fuel (reject : Row -> result bool) (f f' : nat) (s : S) x :
  rejectStream_Next source_Next reject f s = Some x -> (f <= f')%nat ->
  rejectStream_Next source_Next reject f' s = Some x.
Proof.
  revert f' s. induction f as [|f IH]; intros f' s H Hle; [discriminate|].
  destruct f' as [|f']; [lia|]. simpl in *.
  destruct (source_Next s) as [[[next|]|err] s']; try exact H.
  destruct (reject next) as [[|]|err]; try exact H.
  apply IH; [exact H | lia].
Qed.

(** The filtered [Next] is a function of the state. *)
Lemma filtered_rel_functional (s : S) r1 s1 r2 s2 :
  flt s r1 s1 -> flt s r2 s2 -> r1 = r2 /\ s1 = s2.
Proof.
  intros [f1 H1] [f2 H2]. unfold filterStreamByShard_Next in *.
  apply rejectStream_Next_more_fuel with (f' := Nat.max f1 f2) in H1; [|lia].
  apply rejectStream_Next_more_fuel with (f' := Nat.max f1 f2) in H2; [|lia].
  rewrite H1 in H2. inversion H2. split; reflexivity.
Qed.

(** A row of the source that the gate rejects is skipped. *)
Lemma filtered_rel_skip (s s' : S) (row : Row) r s'' :
  source_Next s = (Ok (Some row), s') ->
  InShard vhash (uint64 (Row_ShardingID row)) targetFilter = false ->
  flt s' r s'' -> flt s r s''.
Proof.
  intros Hs Hin [f Hf]. exists (Datatypes.S f).
  unfold filterStreamByShard_Next in *. simpl. rewrite Hs.
  unfold shardReject at 1. rewrite Hin. simpl. exact Hf.
Qed.

(** A row of the source that the gate admits is returned. *)
Lemma filtered_rel_keep (s s' : S) (row : Row) :
  source_Next s = (Ok (Some row), s') ->
  InShard vhash (uint64 (Row_ShardingID row)) targetFilter = true ->
  flt s (Ok (Some row)) s'.
Proof.
  intros Hs Hin. exists 1%nat.
  unfold filterStreamByShard_Next. simpl. rewrite Hs.
  unfold shardReject. rewrite Hin. reflexivity.
Qed.

Lemma filtered_rel_end (s s' : S) :
  source_Next s = (Ok None, s') -> flt s (Ok None) s'.
Proof.
  intros Hs. exists 1%nat.
  unfold filterStreamByShard_Next. simpl. rewrite Hs. reflexivity.
Qed.

Lemma Yields_filtered (s : S) (rows : list Row) :
  Yields src s rows -> Yields flt s (shard_rows vhash targetFilter rows).
Proof.
  induction 1 as [s s' Hend | s row s' rows Hrow _ IH].
  - simpl. eapply Yields_done. apply filtered_rel_end. exact Hend.
  - unfold shard_rows in *. simpl.
    destruct (InShard vhash (uint64 (Row_ShardingID row)) targetFilter) eqn:Hin.
    + eapply Yields_row; [|exact IH]. apply filtered_rel_keep; assumption.
    + inversion IH as [t t' Ht Heq | t r t' rest Ht Hrest Heq].
      * eapply Yields_done. eapply filtered_rel_skip; eassumption.
      * eapply Yields_row; [|exact Hrest].
        eapply filtered_rel_skip; eassumption.
Qed.

(** A source that fails after some rows: the filtered stream returns
    the rows of these that the gate admits and then the error, wrapped. *)
Lemma Fails_filtered (s : S) (rows : list Row) (err : error) :
  Fails src s rows err ->
  Fails flt s (shard_rows vhash targetFilter rows) (WithStack err).
Proof.
  induction 1 as [s err s' Herr | s row s' rows err Hrow _ IH].
  - simpl. eapply Fails_now. exists 1%nat.
    unfold filterStreamByShard_Next. simpl. rewrite Herr. reflexivity.
  - unfold shard_rows in *. simpl.
    destruct (InShard vhash (uint64 (Row_ShardingID row)) targetFilter) eqn:Hin.
    + eapply Fails_row; [|exact IH]. apply filtered_rel_keep; assumption.
    + inversion IH as [t e t' Ht Heq | t r t' rest e Ht Hrest Heq].
      * eapply Fails_now. eapply filtered_rel_skip; eassumption.
      * eapply Fails_row; [|exact Hrest].
        eapply filtered_rel_skip; eassumption.
Qed.

Lemma Yields_filtered_unique (s : S) (out1 out2 : list Row) :
  Yields flt s out1 -> Yields flt s out2 -> out1 = out2.
Proof.
  intros H1. revert out2.
  induction H1 as [s s' Hend | s row s' rows Hrow _ IH]; intros out2 H2.
  - inversion H2 as [t t' Ht | t r t' rest Ht Hrest]; subst; [reflexivity|].
    destruct (filtered_rel_functional _ _ _ _ _ Hend Ht) as [Hr _]. discriminate.
  - inversion H2 as [t t' Ht | t r t' rest Ht Hrest]; subst.
    + destruct (filtered_rel_functional _ _ _ _ _ Hrow Ht) as [Hr _]. discriminate.
    + destruct (filtered_rel_functional _ _ _ _ _ Hrow Ht) as [Hr Hs].
      inversion Hr; subst. f_equal. apply IH. exact Hrest.
Qed.

Lemma shard_rows_sublist (rows : list Row) :
  sublist (shard_rows vhash targetFilter rows) rows.
Proof.
  unfold shard_rows. induction rows as [|row rows IH]; simpl.
  - constructor.
  - destruct (InShard vhash (uint64 (Row_ShardingID row)) targetFilter).
    + apply sublist_skip. exact IH.
    + apply sublist_cons. exact IH.
Qed.

Lemma shard_rows_nil_filter (rows : list Row) :
  shard_rows vhash [] rows = [].
Proof.
  unfold shard_rows. induction rows as [|row rows IH]; simpl; [reflexivity | exact IH].
Qed.

(** C1. Whatever rows a stream yields, the stream [filterStreamByShard]
    builds over it yields exactly the rows the gate admits, in the
    order of the source: they are a subsequence of the source's rows,
    and a row of the source is kept if and only if some key range of the
    filter contains the hash of its sharding id (containment is
    half-open: start inclusive, end exclusive). *)
Theorem filterStreamByShard_yields_shard_rows (s : S) (rows : list Row) :
  Yields src s rows ->
  (forall out, Yields flt s out <-> out = shard_rows vhash targetFilter rows) /\
  sublist (shard_rows vhash targetFilter rows) rows /\
  (forall row, row ∈ shard_rows vhash targetFilter rows <->
     row ∈ rows /\
     exists keyRange, keyRange ∈ targetFilter /\
       KeyRangeContains keyRange (vhash (uint64 (Row_ShardingID row))) = true).
Proof.
  intros Hsrc. split; [|split].
  - intros out. split.
    + intros Hout. eapply Yields_filtered_unique; [exact Hout|].
      apply Yields_filtered. exact Hsrc.
    + intros ->. apply Yields_filtered. exact Hsrc.
  - apply shard_rows_sublist.
  - intros row. unfold shard_rows.
    rewrite !list_elem_of_In, filter_In, InShard_exists. reflexivity.
Qed.

End Streams.

(** C10. With no key range in the filter [InShard] is false for every
    id, so a stream filtered by the empty list yields no row at all,
    whatever the source yields. *)
Theorem InShard_empty_filter_rejects_all {S : Type}
    (source_Next : S -> result (option Row) * S) (table : Table)
    (s : S) (rows : list Row) :
  Yields (source_rel source_Next) s rows ->
  (forall id : Z, InShard vhash id [] = false) /\
  (forall out, Yields (filtered_rel vhash source_Next table []) s out <-> out = []).
Proof.
  intros Hsrc. split; [reflexivity|].
  intros out.
  pose proof (Yields_filtered source_Next table [] s rows Hsrc) as Hy.
  rewrite shard_rows_nil_filter in Hy. split.
  - intros Hout. eapply Yields_filtered_unique; eassumption.
  - intros ->. exact Hy.
Qed.

End Gate.

(** Rows held in memory are yielded as they are. *)
Lemma bufferStream_Yields (rows : list Row) :
  Yields (source_rel bufferStream_Next) rows rows.
Proof.
  induction rows as [|row rows IH].
  - eapply Yields_done. reflexivity.
  - eapply Yields_row; [reflexivity | exact IH].
Qed.

Lemma filterStreamByShard_yields_shard_rows_witness :
  Yields (source_rel bufferStream_Next) Sample.rows4 Sample.rows4 /\
  Yields (filtered_rel Sample.low_byte bufferStream_Next Sample.customers
            [Sample.range_2_4]) Sample.rows4
    [Sample.customer 2 "B"; Sample.customer 3 "C"].
Proof.
  split; [apply bufferStream_Yields|].
  apply (filterStreamByShard_yields_shard_rows Sample.low_byte bufferStream_Next
           Sample.customers [Sample.range_2_4] Sample.rows4 Sample.rows4
           (bufferStream_Yields Sample.rows4)).
  reflexivity.
Defined.

Lemma InShard_empty_filter_rejects_all_witness :
  Yields (source_rel bufferStream_Next) Sample.rows4 Sample.rows4 /\
  Yields (filtered_rel Sample.low_byte bufferStream_Next Sample.customers [])
    Sample.rows4 [].
Proof.
  split; [apply bufferStream_Yields|].
  apply (InShard_empty_filter_rejects_all Sample.low_byte bufferStream_Next
           Sample.customers Sample.rows4 Sample.rows4
           (bufferStream_Yields Sample.rows4)).
  reflexivity.
Defined.

End ShardGateFacts.

(* --------------------------------------------------------------------- *)
(* Chunk predicates                                                       *)
(* --------------------------------------------------------------------- *)

Module ChunkFacts.

Lemma geb_leb (a b : Z) : (a >=? b) = (b <=? a).
Proof. apply Z.geb_leb. Qed.

(** [chunkWhere] on a chunk that is both first and last: nothing but
    the caller's extra clause. *)
Lemma chunkClauses_full_table (c : Chunk) (extraWhereClause : string) :
  Chunk_First c = true -> Chunk_Last c = true ->
  Reader.chunkClauses c extraWhereClause =
    (if String.eqb extraWhereClause EmptyString then []
     else [ClauseExtra extraWhereClause]) /\
  existsb Clause_on_key (Reader.chunkClauses c extraWhereClause) = false /\
  Reader.chunkWhere c EmptyString = EmptyString /\
  (forall id, Reader.StreamChunk_selects c EmptyString (fun _ => true) id = true).
Proof.
  intros HF HL. unfold Reader.StreamChunk_selects, Reader.chunkWhere, Reader.chunkClauses.
  rewrite HF, HL. simpl.
  repeat split; destruct (String.eqb extraWhereClause EmptyString); reflexivity.
Qed.

(** What the statement of [chunkWhere] selects on any other chunk. *)
Lemma Reader_selects_in_range (c : Chunk) (w : string) (extra : Z -> bool) (id : Z) :
  Chunk_First c && Chunk_Last c = false ->
  Reader.StreamChunk_selects c w extra id =
    (if String.eqb w EmptyString then true else extra id) && in_range c id.
Proof.
  intros Hfl. unfold Reader.StreamChunk_selects, Reader.chunkClauses, in_range, Clauses_hold.
  rewrite Hfl.
  destruct (String.eqb w EmptyString), (Chunk_First c), (Chunk_Last c);
    try discriminate; simpl; rewrite ?geb_leb, ?andb_true_r; reflexivity.
Qed.

(** The statement of the sharded reader: a first chunk keeps only its
    upper bound, also when it is the last chunk as well. *)
Lemma ShardedReader_clauses_first (c : Chunk) :
  Chunk_First c = true ->
  ShardedReader.StreamChunk_clauses c =
    [ClauseLt (Table_IDColumn (Chunk_Table c)) (Chunk_End c)].
Proof. intros HF. unfold ShardedReader.StreamChunk_clauses. rewrite HF. reflexivity. Qed.

Lemma ShardedReader_selects_in_range (c : Chunk) (id : Z) :
  Chunk_First c && Chunk_Last c = false ->
  ShardedReader.StreamChunk_selects c id = in_range c id.
Proof.
  intros Hfl.
  unfold ShardedReader.StreamChunk_selects, ShardedReader.StreamChunk_clauses,
    in_range, Clauses_hold.
  destruct (Chunk_First c), (Chunk_Last c);
    try discriminate; simpl; rewrite ?geb_leb, ?andb_true_r; reflexivity.
Qed.

Lemma string_app_assoc (a b c : string) :
  ((a ++ b) ++ c)%string = (a ++ (b ++ c))%string.
Proof.
  induction a as [|ch a IH]; [reflexivity|].
  change (String ch ((a ++ b) ++ c) = String ch (a ++ (b ++ c)))%string.
  f_equal. exact IH.
Qed.

(** The text and arguments of the sharded reader's statement are those
    of its conjuncts. *)
Lemma ShardedReader_query_clauses (c : Chunk) :
  let table := Chunk_Table c in
  ShardedReader.StreamChunk_query c =
    ShardedReader.mkQuery
      ("select " ++ Table_ColumnList table ++ " from " ++ Table_Name table ++ " where "
         ++ strings_Join (List.map ShardedReader.Clause_placeholder
                            (ShardedReader.StreamChunk_clauses c)) " and "
         ++ " order by " ++ Table_IDColumn table ++ " asc")
      (concat (List.map ShardedReader.Clause_args (ShardedReader.StreamChunk_clauses c))).
Proof.
  unfold ShardedReader.StreamChunk_query, ShardedReader.StreamChunk_clauses.
  destruct (Chunk_First c); [|destruct (Chunk_Last c)]; simpl;
    f_equal; rewrite ?string_app_assoc; reflexivity.
Qed.

Section Partition.

Variable table : Table.

Lemma chain_lower (id : Z) (chunks : list Chunk) : forall lower c,
  chunk_chain table lower chunks -> c ∈ chunks -> in_range c id = true ->
  lower <= id.
Proof.
  induction chunks as [|c0 rest IH]; intros lower c Hch Hin Hr; [inversion Hin|].
  destruct Hch as (_ & HF & HS & _ & Hrest).
  apply elem_of_cons in Hin as [-> | Hin].
  - unfold in_range in Hr. rewrite HF in Hr. simpl in Hr.
    apply andb_true_iff in Hr as [Hr _]. lia.
  - destruct rest as [|c1 rest']; [inversion Hin|].
    destruct Hrest as (_ & _ & Hle & Hch').
    specialize (IH _ _ Hch' Hin Hr). lia.
Qed.

Lemma chain_cover (id : Z) (chunks : list Chunk) : forall lower,
  chunk_chain table lower chunks -> lower <= id ->
  exists c, c ∈ chunks /\ in_range c id = true.
Proof.
  induction chunks as [|c0 rest IH]; intros lower Hch Hle; [destruct Hch|].
  destruct Hch as (_ & HF & HS & _ & Hrest).
  destruct rest as [|c1 rest'].
  - exists c0. split; [left|]. unfold in_range. rewrite HF, Hrest. simpl.
    rewrite andb_true_r. lia.
  - destruct Hrest as (HL & _ & Hse & Hch').
    destruct (Z_lt_le_dec id (Chunk_End c0)) as [Hlt | Hge].
    + exists c0. split; [left|]. unfold in_range. rewrite HF, HL. simpl. lia.
    + destruct (IH _ Hch' Hge) as (c & Hin & Hr).
      exists c. split; [right; exact Hin | exact Hr].
Qed.

Lemma chain_disjoint (id : Z) (chunks : list Chunk) : forall lower i j ci cj,
  chunk_chain table lower chunks -> (i < j)%nat ->
  chunks !! i = Some ci -> chunks !! j = Some cj ->
  in_range ci id = true -> in_range cj id = true -> False.
Proof.
  induction chunks as [|c0 rest IH]; intros lower i j ci cj Hch Hij Hi Hj Hri Hrj;
    [destruct Hch|].
  destruct Hch as (_ & HF & HS & _ & Hrest).
  destruct j as [|j]; [lia|]. simpl in Hj.
  destruct rest as [|c1 rest']; [discriminate|].
  destruct Hrest as (HL & _ & Hse & Hch').
  destruct i as [|i].
  - simpl in Hi. inversion Hi; subst ci.
    assert (Chunk_End c0 <= id) as Hge.
    { eapply chain_lower; [exact Hch' | | exact Hrj].
      eapply list_elem_of_lookup_2. exact Hj. }
    unfold in_range in Hri. rewrite HL in Hri.
    apply andb_true_iff in Hri as [_ Hri]. simpl in Hri. lia.
  - simpl in Hi. eapply (IH _ i j); try eassumption. lia.
Qed.

Lemma chain_not_full (chunks : list Chunk) : forall lower c,
  chunk_chain table lower chunks -> c ∈ chunks -> Chunk_First c = false.
Proof.
  induction chunks as [|c0 rest IH]; intros lower c Hch Hin; [inversion Hin|].
  destruct Hch as (_ & HF & _ & _ & Hrest).
  apply elem_of_cons in Hin as [-> | Hin]; [exact HF|].
  destruct rest as [|c1 rest']; [inversion Hin|].
  destruct Hrest as (_ & _ & _ & Hch'). eapply IH; eassumption.
Qed.

Lemma chain_last (chunks : list Chunk) : forall lower,
  chunk_chain table lower chunks ->
  exists c, last chunks = Some c /\ Chunk_Last c = true /\ is_int64 (Chunk_Start c).
Proof.
  induction chunks as [|c0 rest IH]; intros lower Hch; [destruct Hch|].
  destruct Hch as (_ & HF & _ & Hint & Hrest).
  destruct rest as [|c1 rest'].
  - exists c0. auto.
  - destruct Hrest as (_ & _ & _ & Hch').
    destruct (IH _ Hch') as (c & Hl & Hc). exists c. split; [exact Hl | exact Hc].
Qed.

(** The ranges of a run of chunks that share boundaries split the keys:
    every key is in the range of some chunk, and of one chunk only. *)
Lemma sequence_in_range_partition (chunks : list Chunk) :
  chunk_sequence table chunks ->
  (forall c, c ∈ chunks -> Chunk_First c && Chunk_Last c = false) /\
  (forall id, exists c, c ∈ chunks /\ in_range c id = true) /\
  (forall id i j ci cj, i <> j ->
     chunks !! i = Some ci -> chunks !! j = Some cj ->
     ~ (in_range ci id = true /\ in_range cj id = true)) /\
  (exists c, last chunks = Some c /\ in_range c max_int64 = true).
Proof.
  destruct chunks as [|c0 rest]; [intros []|].
  intros (_ & HF & HL & Hint & Hch). repeat split.
  - intros c Hin. apply elem_of_cons in Hin as [-> | Hin].
    + rewrite HL. apply andb_false_r.
    + rewrite (chain_not_full _ _ _ Hch Hin). reflexivity.
  - intros id. destruct (Z_lt_le_dec id (Chunk_End c0)) as [Hlt | Hge].
    + exists c0. split; [left|]. unfold in_range. rewrite HF, HL. simpl. lia.
    + destruct (chain_cover id _ _ Hch Hge) as (c & Hin & Hr).
      exists c. split; [right; exact Hin | exact Hr].
  - assert (forall id i j ci cj, (i < j)%nat ->
              (c0 :: rest) !! i = Some ci -> (c0 :: rest) !! j = Some cj ->
              in_range ci id = true -> in_range cj id = true -> False) as Hlt.
    { intros id i j ci cj Hij Hi Hj Hri Hrj.
      destruct j as [|j]; [lia|]. simpl in Hj. destruct i as [|i].
      - simpl in Hi. inversion Hi; subst ci.
        assert (Chunk_End c0 <= id) as Hge.
        { eapply chain_lower; [exact Hch | | exact Hrj].
          eapply list_elem_of_lookup_2. exact Hj. }
        unfold in_range in Hri. rewrite HL in Hri.
        apply andb_true_iff in Hri as [_ Hri]. simpl in Hri. lia.
      - simpl in Hi. eapply (chain_disjoint id rest _ i j); try eassumption. lia. }
    intros id i j ci cj Hne Hi Hj [Hri Hrj].
    destruct (Nat.lt_total i j) as [Hij | [Heq | Hji]]; [|congruence|].
    + eapply Hlt; eassumption.
    + eapply (Hlt id j i); eassumption.
  - destruct (chain_last _ _ Hch) as (c & Hl & HcL & Hc).
    exists c. split.
    + destruct rest as [|c1 rest']; [discriminate | exact Hl].
    + unfold in_range. rewrite HcL. unfold is_int64 in Hc. simpl.
      rewrite andb_true_r. apply orb_true_iff. right. apply Z.leb_le. lia.
Qed.

End Partition.

(** The sharded reader on a chunk that is both first and last: the
    statement still bounds the key from above, so it reads the rows
    below [End] only. *)
Lemma ShardedReader_full_table_bounded (c : Chunk) (id : Z) :
  Chunk_First c = true -> Chunk_Last c = true ->
  ShardedReader.StreamChunk_selects c id = (id <? Chunk_End c).
Proof.
  intros HF HL. unfold ShardedReader.StreamChunk_selects.
  rewrite (ShardedReader_clauses_first c HF). simpl. apply andb_true_r.
Qed.

(** C3. The chunk with [First] and [Last] both set, for the table
    [customers]: the sharded reader's statement for it carries the
    predicate [id < ?] with the chunk's [End] (0) as argument and does
    not select the row with key 1, while [chunkWhere] builds no WHERE
    clause for the same chunk and its statement selects that row. *)
Theorem StreamChunk_full_table_chunk_keeps_bound :
  let chunk := mkChunk Sample.customers 0 0 true true in
  ShardedReader.StreamChunk_query chunk =
    ShardedReader.mkQuery
      "select id, name from customers where id < ? order by id asc" [0] /\
  ShardedReader.StreamChunk_selects chunk 1 = false /\
  Reader.chunkWhere chunk EmptyString = EmptyString /\
  Reader.StreamChunk_stmt chunk EmptyString EmptyString =
    "select id, name  from customers  order by id asc" /\
  Reader.StreamChunk_selects chunk EmptyString (fun _ => true) 1 = true.
Proof. repeat split; reflexivity. Qed.

(** C8. A run of chunks of one table that share boundaries (a first
    chunk up to E1, interior chunks [Ei, Ei+1), a last chunk from the
    preceding upper bound on): the statements built for them, by
    [chunkWhere] and by the sharded reader alike, select every int64 key
    in some chunk, no key in two chunks, and the last chunk's statement
    selects the largest int64. With an extra clause, this holds of the
    rows that satisfy it. *)
Theorem chunk_statements_partition (table : Table) (chunks : list Chunk)
    (w : string) (extra : Z -> bool) :
  chunk_sequence table chunks ->
  ((forall id, is_int64 id -> w = EmptyString \/ extra id = true ->
      exists c, c ∈ chunks /\ Reader.StreamChunk_selects c w extra id = true) /\
   (forall id i j ci cj, i <> j ->
      chunks !! i = Some ci -> chunks !! j = Some cj ->
      ~ (Reader.StreamChunk_selects ci w extra id = true /\
         Reader.StreamChunk_selects cj w extra id = true)) /\
   (w = EmptyString \/ extra max_int64 = true ->
    exists c, last chunks = Some c /\
      Reader.StreamChunk_selects c w extra max_int64 = true)) /\
  ((forall id, is_int64 id ->
      exists c, c ∈ chunks /\ ShardedReader.StreamChunk_selects c id = true) /\
   (forall id i j ci cj, i <> j ->
      chunks !! i = Some ci -> chunks !! j = Some cj ->
      ~ (ShardedReader.StreamChunk_selects ci id = true /\
         ShardedReader.StreamChunk_selects cj id = true)) /\
   (exists c, last chunks = Some c /\
      ShardedReader.StreamChunk_selects c max_int64 = true)).
Proof.
  intros Hseq.
  destruct (sequence_in_range_partition table chunks Hseq)
    as (Hnf & Hcover & Hdisj & (cl & Hlast & Hmax)).
  assert (forall id, w = EmptyString \/ extra id = true ->
            (if String.eqb w EmptyString then true else extra id) = true) as Hex.
  { intros id [-> | He]; [reflexivity|].
    destruct (String.eqb w EmptyString); [reflexivity | exact He]. }
  assert (cl ∈ chunks) as Hcl.
  { apply last_Some in Hlast as [l' ->]. apply elem_of_app. right. left. }
  split; repeat split.
  - intros id _ Hw. destruct (Hcover id) as (c & Hin & Hr).
    exists c. split; [exact Hin|].
    rewrite (Reader_selects_in_range c w extra id (Hnf c Hin)), Hr, (Hex id Hw).
    reflexivity.
  - intros id i j ci cj Hne Hi Hj [Hsi Hsj].
    rewrite Reader_selects_in_range in Hsi
      by (apply Hnf; eapply list_elem_of_lookup_2; exact Hi).
    rewrite Reader_selects_in_range in Hsj
      by (apply Hnf; eapply list_elem_of_lookup_2; exact Hj).
    apply andb_true_iff in Hsi as [_ Hsi]. apply andb_true_iff in Hsj as [_ Hsj].
    apply (Hdisj id i j ci cj Hne Hi Hj). split; assumption.
  - intros Hw. exists cl. split; [exact Hlast|].
    rewrite (Reader_selects_in_range cl w extra _ (Hnf cl Hcl)), Hmax, (Hex _ Hw).
    reflexivity.
  - intros id _. destruct (Hcover id) as (c & Hin & Hr).
    exists c. split; [exact Hin|].
    rewrite (ShardedReader_selects_in_range c id (Hnf c Hin)). exact Hr.
  - intros id i j ci cj Hne Hi Hj [Hsi Hsj].
    rewrite ShardedReader_selects_in_range in Hsi
      by (apply Hnf; eapply list_elem_of_lookup_2; exact Hi).
    rewrite ShardedReader_selects_in_range in Hsj
      by (apply Hnf; eapply list_elem_of_lookup_2; exact Hj).
    apply (Hdisj id i j ci cj Hne Hi Hj). split; assumption.
  - exists cl. split; [exact Hlast|].
    rewrite (ShardedReader_selects_in_range cl _ (Hnf cl Hcl)). exact Hmax.
Qed.

Lemma chunk_statements_partition_witness :
  chunk_sequence Sample.customers Sample.chunks3 /\
  exists c, last Sample.chunks3 = Some c /\
    ShardedReader.StreamChunk_selects c max_int64 = true.
Proof.
  assert (chunk_sequence Sample.customers Sample.chunks3) as H.
  { unfold Sample.chunks3, chunk_sequence, chunk_chain, is_int64, min_int64, max_int64.
    simpl. repeat split; try reflexivity; lia. }
  split; [exact H|].
  apply (chunk_statements_partition Sample.customers Sample.chunks3
           EmptyString (fun _ => true) H).
Defined.

(** The order of the boundaries matters for the second part: with an
    interior chunk [5, 3) the first and last statements both select
    key 4. *)
Example descending_boundaries_overlap :
  let first := mkChunk Sample.customers 0 5 true false in
  let tail := mkChunk Sample.customers 3 0 false true in
  Reader.StreamChunk_selects first EmptyString (fun _ => true) 4 = true /\
  Reader.StreamChunk_selects tail EmptyString (fun _ => true) 4 = true.
Proof. split; reflexivity. Qed.

End ChunkFacts.

(* --------------------------------------------------------------------- *)
(* The batcher                                                            *)
(* --------------------------------------------------------------------- *)

Module BatcherFacts.
Import Batcher.

Lemma built_from_more (received more : list Diff) (b : Batch) :
  built_from received b -> built_from (received ++ more) b.
Proof.
  intros (ds & Hsub & Hrows & Hty). exists ds.
  split; [apply sublist_inserts_r; exact Hsub | split; assumption].
Qed.

Lemma well_formed_more (batchSize : Z) (received more : list Diff) (b : Batch) :
  well_formed batchSize received b -> well_formed batchSize (received ++ more) b.
Proof.
  intros (Hlen & Hb & d & Hd & Ht). split; [exact Hlen|]. split.
  - apply built_from_more. exact Hb.
  - exists d. split; [apply elem_of_app; left; exact Hd | exact Ht].
Qed.

Lemma open_ok_more (batchSize : Z) (received more : list Diff) t (b : Batch) :
  open_ok batchSize received t b -> open_ok batchSize (received ++ more) t b.
Proof.
  intros (Hty & Hlen & Hb & d & Hd & Ht). split; [exact Hty|]. split; [exact Hlen|]. split.
  - apply built_from_more. exact Hb.
  - exists d. split; [apply elem_of_app; left; exact Hd | exact Ht].
Qed.

Lemma len_app_one {A : Type} (l : list A) (a : A) : len (l ++ [a]) = len l + 1.
Proof. unfold len. rewrite length_app. simpl. lia. Qed.

Lemma len_nonneg {A : Type} (l : list A) : 0 <= len l.
Proof. unfold len. lia. Qed.

Lemma enqueueBatch_sent (out : Out) (b : Batch) :
  chan_sent (batches (enqueueBatch out b)) = chan_sent (batches out) ++ [b].
Proof. reflexivity. Qed.

Lemma enqueueBatch_closes (out : Out) (b : Batch) :
  chan_closes (batches (enqueueBatch out b)) = chan_closes (batches out).
Proof. reflexivity. Qed.

(** [flush] sends the open batches that have rows, in order. *)
Lemma flush_sent (open : list Batch) : forall out,
  chan_sent (batches (flush open out)) =
  chan_sent (batches out) ++ List.filter (fun b => 0 <? len (Batch_Rows b)) open.
Proof.
  induction open as [|b rest IH]; intros out; simpl.
  - rewrite app_nil_r. reflexivity.
  - rewrite IH. destruct (0 <? len (Batch_Rows b)); [|reflexivity].
    rewrite enqueueBatch_sent, <- app_assoc. reflexivity.
Qed.

Lemma flush_closes (open : list Batch) : forall out,
  chan_closes (batches (flush open out)) = chan_closes (batches out).
Proof.
  induction open as [|b rest IH]; intros out; simpl; [reflexivity|].
  rewrite IH. destruct (0 <? len (Batch_Rows b)); reflexivity.
Qed.

(** One diff appended to the batch of its type (or to a fresh one). *)
Section Step.

Variable batchSize : Z.
Hypothesis Hsize : 1 <= batchSize.
Variables (pre : list Diff) (diff : Diff).

Lemma fresh_candidate :
  candidate batchSize pre diff (mkBatch (Diff_Type diff) (Row_Table (Diff_Row diff)) []).
Proof.
  split; [reflexivity|]. split; [unfold len; simpl; lia|]. split.
  - exists []. split; [apply sublist_nil_l|]. split; [reflexivity | constructor].
  - left. split; reflexivity.
Qed.

Lemma open_candidate (b : Batch) :
  open_ok batchSize pre (Diff_Type diff) b -> candidate batchSize pre diff b.
Proof. intros (Hty & Hlen & Hb & Hd). repeat split; auto. Qed.

Lemma appended_built (b : Batch) :
  candidate batchSize pre diff b ->
  built_from (pre ++ [diff])
    (mkBatch (Batch_Type b) (Batch_Table b) (Batch_Rows b ++ [Diff_Row diff])) /\
  exists d, d ∈ pre ++ [diff] /\ Batch_Table b = Row_Table (Diff_Row d).
Proof.
  intros (Hty & Hlen & (ds & Hsub & Hrows & Hall) & Htab). split.
  - exists (ds ++ [diff]). simpl. split; [|split].
    + apply sublist_app; [exact Hsub | reflexivity].
    + rewrite fmap_app, Hrows. reflexivity.
    + apply Forall_app. split; [exact Hall|]. constructor; [congruence | constructor].
  - destruct Htab as [[_ Ht] | (d & Hd & Ht)].
    + exists diff. split; [apply elem_of_app; right; left | exact Ht].
    + exists d. split; [apply elem_of_app; left; exact Hd | exact Ht].
Qed.

(** The appended batch is well formed when it is full, and the emptied
    batch that replaces it is a good open batch. *)
Lemma full_batch (b : Batch) :
  candidate batchSize pre diff b ->
  len (Batch_Rows b ++ [Diff_Row diff]) >= batchSize ->
  well_formed batchSize (pre ++ [diff])
    (mkBatch (Batch_Type b) (Batch_Table b) (Batch_Rows b ++ [Diff_Row diff])) /\
  len (Batch_Rows b ++ [Diff_Row diff]) = batchSize /\
  open_ok batchSize (pre ++ [diff]) (Diff_Type diff)
    (mkBatch (Batch_Type b) (Batch_Table b) []).
Proof.
  intros Hc Hfull. destruct (appended_built b Hc) as [Hb Hd].
  destruct Hc as (Hty & Hlen & _ & _).
  rewrite len_app_one in Hfull. pose proof (len_nonneg (Batch_Rows b)).
  split; [|split].
  - split; [simpl; rewrite len_app_one; lia|]. split; [exact Hb | exact Hd].
  - rewrite len_app_one. lia.
  - split; [exact Hty|]. split; [unfold len; simpl; lia|]. split; [|exact Hd].
    exists []. split; [apply sublist_nil_l|]. split; [reflexivity | constructor].
Qed.

Lemma partial_batch (b : Batch) :
  candidate batchSize pre diff b ->
  len (Batch_Rows b ++ [Diff_Row diff]) < batchSize ->
  open_ok batchSize (pre ++ [diff]) (Diff_Type diff)
    (mkBatch (Batch_Type b) (Batch_Table b) (Batch_Rows b ++ [Diff_Row diff])).
Proof.
  intros Hc Hlt. destruct (appended_built b Hc) as [Hb Hd].
  destruct Hc as (Hty & _ & _ & _).
  split; [exact Hty|]. split; [exact Hlt|]. split; [exact Hb | exact Hd].
Qed.

End Step.

(** The loop of [BatchTableWrites] only adds well-formed batches, and
    when it ends on the cancellation, only full ones. *)
Lemma BatchTableWrites_loop_sent (batchSize : Z) (fin : ending) (diffs : list Diff) :
  1 <= batchSize ->
  forall (pre : list Diff) (m : gmap DiffType Batch) (out : Out),
  (forall t b, m !! t = Some b -> open_ok batchSize pre t b) ->
  exists new,
    chan_sent (batches (BatchTableWrites_loop batchSize diffs fin m out)) =
      chan_sent (batches out) ++ new /\
    Forall (fun b => well_formed batchSize (pre ++ diffs) b /\
                     (fin = CtxDone -> len (Batch_Rows b) = batchSize)) new.
Proof.
  intros Hsize. induction diffs as [|diff more IH]; intros pre m out Hm.
  - simpl. destruct fin.
    + rewrite flush_sent. eexists. split; [reflexivity|].
      rewrite app_nil_r. apply Forall_forall. intros b Hb.
      apply list_elem_of_In, filter_In in Hb as [Hb Hpos].
      apply list_elem_of_In, list_elem_of_fmap in Hb as ([t b'] & -> & Hb).
      apply elem_of_map_to_list in Hb. simpl in *.
      destruct (Hm t b' Hb) as (_ & Hlen & Hbuilt & Hd).
      split; [|discriminate]. split; [lia|]. split; assumption.
    + exists []. rewrite app_nil_r. split; [reflexivity | constructor].
  - cbn [BatchTableWrites_loop].
    set (b0 := match m !! Diff_Type diff with
               | Some batch => batch
               | None => mkBatch (Diff_Type diff) (Row_Table (Diff_Row diff)) []
               end).
    assert (candidate batchSize pre diff b0) as Hc.
    { subst b0. destruct (m !! Diff_Type diff) as [b|] eqn:Hlk.
      - apply open_candidate. apply Hm. exact Hlk.
      - apply fresh_candidate. exact Hsize. }
    cbn [Batch_Rows Batch_Type Batch_Table].
    replace (pre ++ diff :: more) with ((pre ++ [diff]) ++ more)
      by (rewrite <- app_assoc; reflexivity).
    destruct (len (Batch_Rows b0 ++ [Diff_Row diff]) >=? batchSize) eqn:Hfull.
    + destruct (full_batch batchSize Hsize pre diff b0 Hc) as (Hwf & Hexact & Hopen);
        [lia|].
      edestruct (IH (pre ++ [diff])) as (new & Hsent & Hnew).
      2:{ rewrite Hsent, enqueueBatch_sent, <- app_assoc.
          eexists. split; [reflexivity|].
          constructor; [|exact Hnew].
          split; [apply well_formed_more; exact Hwf | intros _; exact Hexact]. }
      intros t b Hlk. destruct (decide (Diff_Type diff = t)) as [<- | Hne].
      * rewrite lookup_insert_eq in Hlk. inversion Hlk; subst b. exact Hopen.
      * rewrite lookup_insert_ne in Hlk by exact Hne.
        apply open_ok_more. apply Hm. exact Hlk.
    + pose proof (partial_batch batchSize pre diff b0 Hc) as Hopen.
      edestruct (IH (pre ++ [diff])) as (new & Hsent & Hnew).
      2:{ rewrite Hsent. exists new. split; [reflexivity | exact Hnew]. }
      intros t b Hlk. destruct (decide (Diff_Type diff = t)) as [<- | Hne].
      * rewrite lookup_insert_eq in Hlk. inversion Hlk; subst b. apply Hopen. lia.
      * rewrite lookup_insert_ne in Hlk by exact Hne.
        apply open_ok_more. apply Hm. exact Hlk.
Qed.

(** The same for the loop of [BatchWrites], whose open batches are kept
    by type and by table name. *)
Lemma BatchWrites_loop_sent (batchSize : Z) (diffs : list Diff) :
  1 <= batchSize ->
  forall (pre : list Diff) (m : gmap DiffType (gmap string Batch)) (out : Out),
  (forall t byTable name b,
     m !! t = Some byTable -> byTable !! name = Some b -> open_ok batchSize pre t b) ->
  (forall t byTable name b,
     (BatchWrites_loop batchSize diffs m out).1 !! t = Some byTable ->
     byTable !! name = Some b -> open_ok batchSize (pre ++ diffs) t b) /\
  exists new,
    chan_sent (batches (BatchWrites_loop batchSize diffs m out).2) =
      chan_sent (batches out) ++ new /\
    chan_closes (batches (BatchWrites_loop batchSize diffs m out).2) =
      chan_closes (batches out) /\
    Forall (well_formed batchSize (pre ++ diffs)) new.
Proof.
  intros Hsize. induction diffs as [|diff more IH]; intros pre m out Hm.
  - simpl. rewrite !app_nil_r. split; [exact Hm|].
    exists []. rewrite app_nil_r. repeat split. constructor.
  - cbn [BatchWrites_loop].
    set (name := Table_Name (Row_Table (Diff_Row diff))).
    set (bt := match m !! Diff_Type diff with Some byTable => byTable | None => ∅ end).
    set (m1 := match m !! Diff_Type diff with
               | Some _ => m
               | None => <[Diff_Type diff := ∅]> m
               end).
    replace (match m !! Diff_Type diff with
             | Some batchesByTable => (batchesByTable, m)
             | None => (∅, <[Diff_Type diff := ∅]> m)
             end) with (bt, m1)
      by (subst bt m1; destruct (m !! Diff_Type diff); reflexivity).
    set (b0 := match bt !! name with
               | Some batch => batch
               | None => mkBatch (Diff_Type diff) (Row_Table (Diff_Row diff)) []
               end).
    assert (candidate batchSize pre diff b0) as Hc.
    { subst b0. destruct (bt !! name) as [b|] eqn:Hlk.
      - apply open_candidate. subst bt.
        destruct (m !! Diff_Type diff) as [byTable|] eqn:Hty.
        + eapply Hm; eassumption.
        + rewrite lookup_empty in Hlk. discriminate.
      - apply fresh_candidate. exact Hsize. }
    assert (forall b1, open_ok batchSize (pre ++ [diff]) (Diff_Type diff) b1 ->
              forall t byTable n b,
                <[Diff_Type diff := <[name := b1]> bt]> m1 !! t = Some byTable ->
                byTable !! n = Some b -> open_ok batchSize (pre ++ [diff]) t b) as Hins.
    { intros b1 Hb1 t byTable n b Hlk Hn.
      destruct (decide (Diff_Type diff = t)) as [<- | Hne].
      - rewrite lookup_insert_eq in Hlk. inversion Hlk; subst byTable.
        destruct (decide (name = n)) as [<- | Hnn].
        + rewrite lookup_insert_eq in Hn. inversion Hn; subst b. exact Hb1.
        + rewrite lookup_insert_ne in Hn by exact Hnn.
          apply open_ok_more. subst bt.
          destruct (m !! Diff_Type diff) as [byTable|] eqn:Hty.
          * eapply Hm; eassumption.
          * rewrite lookup_empty in Hn. discriminate.
      - rewrite lookup_insert_ne in Hlk by exact Hne.
        apply open_ok_more. subst m1.
        destruct (m !! Diff_Type diff) as [byTable'|] eqn:Hty.
        + eapply Hm; eassumption.
        + rewrite lookup_insert_ne in Hlk by exact Hne. eapply Hm; eassumption. }
    cbn [Batch_Rows Batch_Type Batch_Table].
    replace (pre ++ diff :: more) with ((pre ++ [diff]) ++ more)
      by (rewrite <- app_assoc; reflexivity).
    destruct (len (Batch_Rows b0 ++ [Diff_Row diff]) >=? batchSize) eqn:Hfull.
    + destruct (full_batch batchSize Hsize pre diff b0 Hc) as (Hwf & _ & Hopen); [lia|].
      edestruct (IH (pre ++ [diff])) as (Hm' & new & Hsent & Hcl & Hnew);
        [exact (Hins _ Hopen)|].
      split; [exact Hm'|].
      rewrite Hsent, Hcl, enqueueBatch_sent, <- app_assoc.
      eexists. split; [reflexivity|]. split; [reflexivity|].
      constructor; [|exact Hnew]. apply well_formed_more. exact Hwf.
    + pose proof (partial_batch batchSize pre diff b0 Hc) as Hopen.
      edestruct (IH (pre ++ [diff])) as (Hm' & new & Hsent & Hcl & Hnew);
        [apply Hins; apply Hopen; lia|].
      split; [exact Hm'|].
      rewrite Hsent, Hcl. exists new. repeat split. exact Hnew.
Qed.

Lemma elem_of_open_batches (m : gmap DiffType (gmap string Batch)) (b : Batch) :
  b ∈ open_batches m ->
  exists t byTable name, m !! t = Some byTable /\ byTable !! name = Some b.
Proof.
  unfold open_batches. intros Hb.
  apply list_elem_of_In, in_concat in Hb as (l & Hl & Hb).
  apply list_elem_of_In, list_elem_of_fmap in Hl as (byTable & -> & Hbt).
  apply list_elem_of_fmap in Hbt as ([t byTable'] & -> & Hbt).
  apply elem_of_map_to_list in Hbt.
  apply list_elem_of_In, list_elem_of_fmap in Hb as ([name b'] & -> & Hb).
  apply elem_of_map_to_list in Hb.
  exists t, byTable', name. split; assumption.
Qed.

(** What a well-formed batch says when all diffs are of one table. *)
Lemma well_formed_one_table (batchSize : Z) (received : list Diff) (b : Batch)
    (table : Table) :
  well_formed batchSize received b ->
  Forall (fun d => Row_Table (Diff_Row d) = table) received ->
  Batch_Table b = table /\ Forall (fun r => Row_Table r = table) (Batch_Rows b).
Proof.
  intros (_ & (ds & Hsub & Hrows & _) & d & Hd & Ht) Hall.
  rewrite Forall_forall in Hall. split.
  - rewrite Ht. apply Hall. exact Hd.
  - rewrite <- Hrows. apply Forall_fmap, Forall_forall. intros d' Hd'.
    simpl. apply Hall. eapply elem_of_sublist; eassumption.
Qed.

(** C2. With a batch size of at least one, whatever diffs the batcher
    receives and however its loop ends, every batch it sends (by
    [BatchTableWrites] and by [BatchWrites] alike) has at least one row
    and at most [batchSize] rows; its rows are, in order, the rows of a
    subsequence of the diffs received, all of the batch's type; and when
    all diffs received by [BatchTableWrites] are of one table, the batch
    and all its rows are of that table. *)
Theorem batches_well_formed (batchSize : Z) (diffs : list Diff) (fin : ending)
    (out : Out) :
  1 <= batchSize ->
  (exists new,
     chan_sent (batches (BatchTableWrites batchSize diffs fin out)) =
       chan_sent (batches out) ++ new /\
     forall b, b ∈ new ->
       1 <= len (Batch_Rows b) <= batchSize /\
       built_from diffs b /\
       forall table, Forall (fun d => Row_Table (Diff_Row d) = table) diffs ->
         Batch_Table b = table /\
         Forall (fun r => Row_Table r = table) (Batch_Rows b)) /\
  (exists new,
     chan_sent (batches (BatchWrites batchSize diffs fin out)) =
       chan_sent (batches out) ++ new /\
     forall b, b ∈ new ->
       1 <= len (Batch_Rows b) <= batchSize /\ built_from diffs b).
Proof.
  intros Hsize. split.
  - destruct (BatchTableWrites_loop_sent batchSize fin diffs Hsize [] ∅ out)
      as (new & Hsent & Hnew).
    { intros t b Hlk. rewrite lookup_empty in Hlk. discriminate. }
    exists new. split; [exact Hsent|]. simpl in Hnew.
    rewrite Forall_forall in Hnew. intros b Hb.
    destruct (Hnew b Hb) as [Hwf _]. pose proof Hwf as (Hlen & Hbuilt & Hd).
    split; [exact Hlen|]. split; [exact Hbuilt|].
    intros table Hall. eapply well_formed_one_table; [exact Hwf | exact Hall].
  - destruct (BatchWrites_loop_sent batchSize diffs Hsize [] ∅ out)
      as (Hm & new & Hsent & _ & Hnew).
    { intros t byTable name b Hlk. rewrite lookup_empty in Hlk. discriminate. }
    unfold BatchWrites.
    destruct (BatchWrites_loop batchSize diffs ∅ out) as [m' out'] eqn:Hloop.
    simpl in *. rewrite flush_sent, Hsent, <- app_assoc.
    eexists. split; [reflexivity|].
    intros b Hb. apply elem_of_app in Hb as [Hb | Hb].
    + rewrite Forall_forall in Hnew. destruct (Hnew b Hb) as (Hlen & Hbuilt & _).
      split; assumption.
    + apply list_elem_of_In, filter_In in Hb as [Hb Hpos].
      apply list_elem_of_In, elem_of_open_batches in Hb as (t & byTable & name & Ht & Hn).
      destruct (Hm t byTable name b Ht Hn) as (_ & Hlen & Hbuilt & _).
      split; [lia | exact Hbuilt].
Qed.

Lemma batches_well_formed_witness :
  1 <= 2 /\
  exists new,
    chan_sent (batches (BatchWrites 2 Sample.diffs3 InputClosed Out_init)) =
      chan_sent (batches Out_init) ++ new /\
    forall b, b ∈ new ->
      1 <= len (Batch_Rows b) <= 2 /\ built_from Sample.diffs3 b.
Proof.
  split; [lia|].
  apply (batches_well_formed 2 Sample.diffs3 InputClosed Out_init). lia.
Defined.

(** When its select takes the cancellation, [BatchTableWrites] returns
    at once: whatever the open batches hold, nothing is sent. *)
Lemma BatchTableWrites_returns_on_cancellation (batchSize : Z)
    (batchesByType : gmap DiffType Batch) (out : Out) :
  BatchTableWrites_loop batchSize [] CtxDone batchesByType out = out.
Proof. reflexivity. Qed.

(** So a run of [BatchTableWrites] that ends on the cancellation has
    sent full batches only. *)
Lemma BatchTableWrites_cancelled_sends_full_batches (batchSize : Z)
    (diffs : list Diff) (out : Out) :
  1 <= batchSize ->
  exists new,
    chan_sent (batches (BatchTableWrites batchSize diffs CtxDone out)) =
      chan_sent (batches out) ++ new /\
    Forall (fun b => len (Batch_Rows b) = batchSize) new.
Proof.
  intros Hsize.
  destruct (BatchTableWrites_loop_sent batchSize CtxDone diffs Hsize [] ∅ out)
    as (new & Hsent & Hnew).
  { intros t b Hlk. rewrite lookup_empty in Hlk. discriminate. }
  exists new. split; [exact Hsent|].
  eapply Forall_impl; [exact Hnew|]. intros b [_ Hb]. apply Hb. reflexivity.
Qed.

(** [BatchWrites] does the same whether its input was closed or the
    cancellation was observed. *)
Lemma BatchWrites_ignores_ending (batchSize : Z) (diffs : list Diff) (out : Out) :
  BatchWrites batchSize diffs CtxDone out = BatchWrites batchSize diffs InputClosed out.
Proof. reflexivity. Qed.

(** C7. One insert received, batch size 2, then the cancellation:
    [BatchWrites] still sends the open batch with its single row (and
    counts it), while [BatchTableWrites] sends nothing. *)
Theorem BatchWrites_sends_partial_batch_when_cancelled :
  chan_sent (batches (BatchWrites 2 [Sample.insert1] CtxDone Out_init)) =
    [mkBatch Insert Sample.customers [Sample.customer 1 "A"]] /\
  CounterVec_value (writesEnqueued (BatchWrites 2 [Sample.insert1] CtxDone Out_init))
    "customers" "insert" = 1 /\
  chan_sent (batches (BatchTableWrites 2 [Sample.insert1] CtxDone Out_init)) = [].
Proof. repeat split; vm_compute; reflexivity. Qed.

End BatcherFacts.

(* --------------------------------------------------------------------- *)
(* The supervisor                                                         *)
(* --------------------------------------------------------------------- *)

Module SupervisorFacts.
Import Supervisor.

Lemma errors_Is_Canceled_WithStack (err : error) :
  errors_Is_Canceled (WithStack err) = errors_Is_Canceled err.
Proof. reflexivity. Qed.

(** The end of [processTable] on a cancellation: no entry is added to
    the log, and the error is returned with one more wrapper. *)
Lemma processTable_report_cancelled (err : error) (log : list LogEntry) :
  errors_Is_Canceled err = true ->
  processTable_report (Some err) log = (Some (WithStack err), log).
Proof. intros H. unfold processTable_report. rewrite H. reflexivity. Qed.

(** Any other error is logged, and returned as well. *)
Lemma processTable_report_failed (err : error) (log : list LogEntry) :
  errors_Is_Canceled err = false ->
  processTable_report (Some err) log = (Some (WithStack err), log ++ [LogError err]).
Proof. intros H. unfold processTable_report. rewrite H. reflexivity. Qed.

(** [ProcessTables] passes on, wrapped, the error [processTable]
    returned for the table it received. *)
Lemma ProcessTables_loop_error (run : Table -> World -> outcome * World)
    (table : Table) (rest : list TableEvent) (w w' : World) (err : error) :
  run table w = (Returned (Some err), w') ->
  ProcessTables_loop run (RecvTable table :: rest) w =
    (Returned (Some (WithStack err)), w').
Proof. intros H. simpl. rewrite H. reflexivity. Qed.

(** [ProcessTables] returns nil when its own select takes the
    cancellation, or finds the table channel closed. *)
Lemma ProcessTables_loop_nil (run : Table -> World -> outcome * World)
    (rest : list TableEvent) (w : World) :
  ProcessTables_loop run (ParentDone :: rest) w = (Returned None, w) /\
  ProcessTables_loop run (TableChClosed :: rest) w = (Returned None, w).
Proof. split; reflexivity. Qed.

(** C5. A pipeline whose group ends with a cancellation as its error:
    [processTable] adds nothing to the log but its start line, yet it
    returns the error, wrapped once more, and a [ProcessTables] loop
    that gets this result returns the error too, wrapped again, rather
    than nil. [ProcessTables] returns nil for a cancellation only when
    its own select observes it. *)
Theorem cancellation_not_logged_but_returned (env : Env) (table : Table)
    (cmd : Clone) (writerLimiter readerLimiter : option Weighted)
    (targetFilter : list (option ShardGate.KeyRange)) (w : World) (err : error) :
  stages_Wait (runStages env cmd readerLimiter (world_writesEnqueued w))
    = Returned (Some err) ->
  errors_Is_Canceled err = true ->
  let r := processTable env table cmd writerLimiter readerLimiter targetFilter w in
  r.1 = Returned (Some (WithStack err)) /\
  world_log r.2 = world_log w ++ [LogInfo "start"] /\
  existsb is_LogError (world_log r.2) = existsb is_LogError (world_log w) /\
  errors_Is_Canceled (WithStack err) = true /\
  (forall run rest w0,
     run table w0 = r ->
     ProcessTables_loop run (RecvTable table :: rest) w0 =
       (Returned (Some (WithStack (WithStack err))), r.2)) /\
  (forall run rest w0,
     ProcessTables_loop run (ParentDone :: rest) w0 = (Returned None, w0)).
Proof.
  intros Hwait Hcan r. subst r. unfold processTable. rewrite Hwait.
  rewrite (processTable_report_cancelled err _ Hcan). simpl.
  split; [reflexivity|]. split; [reflexivity|]. split.
  - rewrite existsb_app. simpl. apply orb_false_r.
  - split; [exact Hcan|]. split.
    + intros run rest w0 Hrun. rewrite Hrun. reflexivity.
    + reflexivity.
Qed.

Lemma cancellation_not_logged_but_returned_witness :
  stages_Wait (runStages Sample.env_cancelled Sample.cmd Sample.limiter
                 (world_writesEnqueued Sample.world0))
    = Returned (Some (WithStack Canceled)) /\
  errors_Is_Canceled (WithStack Canceled) = true /\
  (processTable Sample.env_cancelled Sample.customers Sample.cmd Sample.limiter
     Sample.limiter [] Sample.world0).1
    = Returned (Some (WithStack (WithStack Canceled))).
Proof.
  split; [vm_compute; reflexivity|]. split; [reflexivity|].
  apply (cancellation_not_logged_but_returned Sample.env_cancelled Sample.customers
           Sample.cmd Sample.limiter Sample.limiter [] Sample.world0
           (WithStack Canceled)).
  - vm_compute. reflexivity.
  - reflexivity.
Defined.

(** Against C5 as stated: a pipeline that ends with a cancellation and
    whose [processTable] does not return nil. *)
Lemma cancellation_is_returned :
  ~ (forall (env : Env) (table : Table) (cmd : Clone)
       (writerLimiter readerLimiter : option Weighted)
       (targetFilter : list (option ShardGate.KeyRange)) (w : World) (err : error),
       stages_Wait (runStages env cmd readerLimiter (world_writesEnqueued w))
         = Returned (Some err) ->
       errors_Is_Canceled err = true ->
       (processTable env table cmd writerLimiter readerLimiter targetFilter w).1
         = Returned None).
Proof.
  intros H.
  specialize (H Sample.env_cancelled Sample.customers Sample.cmd Sample.limiter
                Sample.limiter [] Sample.world0 (WithStack Canceled)).
  assert (stages_Wait (runStages Sample.env_cancelled Sample.cmd Sample.limiter
                         (world_writesEnqueued Sample.world0))
          = Returned (Some (WithStack Canceled))) as Hw by (vm_compute; reflexivity).
  specialize (H Hw eq_refl). vm_compute in H. discriminate H.
Qed.

(** C9. Whatever table [ProcessTables] receives, the chunker task of
    the [processTable] it calls acquires on the nil reader limiter and
    panics, so the call never returns. *)
Theorem ProcessTables_panics_on_nil_limiter (env : Table -> Env) (table : Table)
    (rest : list TableEvent) (cmd : Clone) (writerLimiter : option Weighted)
    (targetFilter : list (option ShardGate.KeyRange)) (w : World) :
  (forall chunks, chunkerTask None (env table) chunks = (Panicked, chunks)) /\
  (ProcessTables env (RecvTable table :: rest) cmd writerLimiter targetFilter w).1
    = Panicked.
Proof.
  split; [reflexivity|].
  unfold ProcessTables. cbn [ProcessTables_loop].
  unfold processTable, stages_Wait, runStages.
  cbn [chunkerTask Weighted_Acquire].
  destruct (differTask None (env table) make_chan make_chan) as [differ d].
  destruct (batcherTask (env table) cmd (differ_diffs d)
              (Batcher.mkOut ∅ make_chan)) as [batcher out].
  destruct (writerTask (env table) (Batcher.batches out)
              (world_writesEnqueued w)) as [writer wr].
  reflexivity.
Qed.

(* Closing of the channels *)

Lemma chan_send_all_closes {A : Type} (l : list A) : forall c : chan A,
  chan_closes (chan_send_all c l) = chan_closes c.
Proof.
  unfold chan_send_all. induction l as [|a l IH]; intros c; simpl; [reflexivity|].
  rewrite IH. reflexivity.
Qed.

Lemma differ_range_closes (readerLimiter : option Weighted) (env : Env)
    (received : list Chunk) : forall st,
  chan_closes (differ_diffs (differ_range readerLimiter env received st).1) =
  chan_closes (differ_diffs st).
Proof.
  induction received as [|chunk rest IH]; intros st; simpl; [reflexivity|].
  destruct (Weighted_Acquire readerLimiter (env_differ_Acquire env chunk));
    try reflexivity.
  rewrite IH. reflexivity.
Qed.

(** The range of the differ leaves the task with an error, a panic or
    for ever, never with nil. *)
Lemma differ_range_exit (readerLimiter : option Weighted) (env : Env)
    (received : list Chunk) : forall st,
  (differ_range readerLimiter env received st).2 <> Some (Returned None).
Proof.
  induction received as [|chunk rest IH]; intros st; simpl; [discriminate|].
  destruct (Weighted_Acquire readerLimiter (env_differ_Acquire env chunk));
    try discriminate.
  apply IH.
Qed.

Lemma BatchTableWrites_loop_closes (batchSize : Z) (fin : ending) (diffs : list Diff) :
  forall (m : gmap DiffType Batch) (out : Batcher.Out),
  chan_closes (Batcher.batches (Batcher.BatchTableWrites_loop batchSize diffs fin m out)) =
  chan_closes (Batcher.batches out).
Proof.
  induction diffs as [|diff more IH]; intros m out.
  - simpl. destruct fin; [apply BatcherFacts.flush_closes | reflexivity].
  - cbn [Batcher.BatchTableWrites_loop].
    destruct (len _ >=? batchSize); rewrite IH; reflexivity.
Qed.

Lemma chunkerTask_closes (readerLimiter : option Weighted) (env : Env) :
  match Weighted_Acquire readerLimiter (env_chunker_Acquire env) with
  | AcquireOk =>
      (chunkerTask readerLimiter env make_chan).1
        = Returned (errors_WithStack (env_GenerateTableChunks env).2) /\
      chan_closes (chunkerTask readerLimiter env make_chan).2 = 1%nat
  | _ => chan_closes (chunkerTask readerLimiter env make_chan).2 = 0%nat
  end.
Proof.
  unfold chunkerTask.
  destruct (Weighted_Acquire readerLimiter (env_chunker_Acquire env)); try reflexivity.
  destruct (env_GenerateTableChunks env) as [emitted err]. simpl.
  rewrite chan_send_all_closes. split; reflexivity.
Qed.

Lemma differTask_closes (readerLimiter : option Weighted) (env : Env)
    (chunks : chan Chunk) :
  chan_closes (differ_diffs (differTask readerLimiter env chunks make_chan).2) =
  match (differTask readerLimiter env chunks make_chan).1 with
  | Returned None => 1%nat
  | _ => 0%nat
  end.
Proof.
  unfold differTask.
  pose proof (differ_range_closes readerLimiter env (chan_sent chunks)
                (mkDiffer [] make_chan 0)) as Hcl.
  pose proof (differ_range_exit readerLimiter env (chan_sent chunks)
                (mkDiffer [] make_chan 0)) as Hne.
  destruct (differ_range readerLimiter env (chan_sent chunks) (mkDiffer [] make_chan 0))
    as [st exit].
  simpl in Hcl, Hne. destruct exit as [o|].
  - cbn [fst snd differ_diffs]. rewrite chan_send_all_closes, Hcl.
    destruct o as [[e|]| |]; try reflexivity. congruence.
  - destruct (chan_closes chunks).
    + cbn [fst snd differ_diffs]. rewrite chan_send_all_closes. exact Hcl.
    + cbn [differ_started].
      destruct (errgroup_Wait _); cbn [fst snd differ_diffs chan_close chan_closes];
        rewrite chan_send_all_closes, Hcl; reflexivity.
Qed.

Lemma batcherTask_closes (env : Env) (cmd : Clone) (diffs : chan Diff)
    (vec : gmap (string * string) Z) :
  chan_closes (Batcher.batches
                 (batcherTask env cmd diffs (Batcher.mkOut vec make_chan)).2) =
  match (batcherTask env cmd diffs (Batcher.mkOut vec make_chan)).1 with
  | Returned _ => 1%nat
  | _ => 0%nat
  end.
Proof.
  unfold batcherTask, Batcher.BatchTableWrites.
  destruct (env_batcher_Done env) as [k|]; [|destruct (chan_closes diffs)];
    destruct (sends_completed env cmd _);
    cbn [fst snd Batcher.batches chan_close chan_closes];
    rewrite ?chan_send_all_closes, ?BatchTableWrites_loop_closes; reflexivity.
Qed.

Lemma batcherTask_no_panic (env : Env) (cmd : Clone) (diffs : chan Diff)
    (out : Batcher.Out) :
  (batcherTask env cmd diffs out).1 <> Panicked.
Proof.
  unfold batcherTask.
  destruct (env_batcher_Done env); [|destruct (chan_closes diffs)];
    destruct (sends_completed env cmd _); discriminate.
Qed.

Lemma writer_range_no_panic (env : Env) (received : list Batch) : forall st,
  (writer_range env received st).2 <> Some Panicked.
Proof.
  induction received as [|b rest IH]; intros st; cbn [writer_range]; [discriminate|].
  destruct (env_scheduleWriteBatch env b); [discriminate | apply IH].
Qed.

Lemma writerTask_no_panic (env : Env) (batches : chan Batch)
    (vec : gmap (string * string) Z) :
  (writerTask env batches vec).1 <> Panicked.
Proof.
  unfold writerTask.
  pose proof (writer_range_no_panic env (chan_sent batches) (mkWriter 0 0 0 vec [])) as H.
  destruct (writer_range env (chan_sent batches) (mkWriter 0 0 0 vec [])) as [st exit].
  destruct exit as [o|]; simpl in *; [congruence|].
  destruct (chan_closes batches); discriminate.
Qed.

(** When the chunker does not get its permit it returns before
    [close(chunks)]: the channel stays open, a differ that has a limiter
    never comes out of its range over it, and the group's [Wait] never
    returns. *)
Lemma chunker_refused_leaves_differ_blocked (env : Env) (cmd : Clone)
    (limiter : Weighted) (vec : gmap (string * string) Z) (err : error) :
  env_chunker_Acquire env = Some err ->
  let s := runStages env cmd (Some limiter) vec in
  st_chunker s = Returned (Some (WithStack err)) /\
  chan_closes (st_chunks s) = 0%nat /\
  st_differ s = Blocked /\
  stages_Wait s = Blocked.
Proof.
  intros Hacq. unfold runStages, chunkerTask, Weighted_Acquire. rewrite Hacq.
  cbn [errors_WithStack]. unfold differTask.
  cbn [make_chan chan_sent chan_closes differ_range differ_diffs differ_started
       differ_chunkCount List.map].
  match goal with
  | |- context [batcherTask env cmd ?ds ?o] =>
      pose proof (batcherTask_no_panic env cmd ds o) as Hb;
      destruct (batcherTask env cmd ds o) as [batcher out]
  end.
  pose proof (writerTask_no_panic env (Batcher.batches out) vec) as Hw.
  destruct (writerTask env (Batcher.batches out) vec) as [writer wr].
  simpl in Hb, Hw. repeat split.
  unfold stages_Wait. cbn [st_chunker st_differ st_batcher st_writer].
  destruct batcher, writer; try congruence; reflexivity.
Qed.

(** C6. The three channels of a pipeline, whatever happens in it. The
    batches channel is closed once when the batcher task returns. The
    diffs channel is closed once when the differ task returns nil, and
    not at all when it returns an error. The chunks channel is closed
    once, and the chunker task returns, when the chunker got its reader
    permit, whether the chunking then failed or not. *)
Theorem stage_channels_closed (env : Env) (cmd : Clone)
    (readerLimiter : option Weighted) (vec : gmap (string * string) Z) :
  let s := runStages env cmd readerLimiter vec in
  chan_closes (st_batches s) =
    match st_batcher s with Returned _ => 1%nat | _ => 0%nat end /\
  chan_closes (st_diffs s) =
    match st_differ s with Returned None => 1%nat | _ => 0%nat end /\
  match Weighted_Acquire readerLimiter (env_chunker_Acquire env) with
  | AcquireOk =>
      st_chunker s = Returned (errors_WithStack (env_GenerateTableChunks env).2) /\
      chan_closes (st_chunks s) = 1%nat
  | _ => True
  end.
Proof.
  unfold runStages.
  pose proof (chunkerTask_closes readerLimiter env) as Hc.
  destruct (chunkerTask readerLimiter env make_chan) as [chunker chunks].
  pose proof (differTask_closes readerLimiter env chunks) as Hd.
  destruct (differTask readerLimiter env chunks make_chan) as [differ d].
  pose proof (batcherTask_closes env cmd (differ_diffs d) ∅) as Hb.
  destruct (batcherTask env cmd (differ_diffs d) (Batcher.mkOut ∅ make_chan))
    as [batcher out].
  destruct (writerTask env (Batcher.batches out) vec) as [writer wr].
  simpl in *. split; [exact Hb|]. split; [exact Hd|].
  destruct (Weighted_Acquire readerLimiter (env_chunker_Acquire env)); auto.
Qed.

(** Against C6 as stated: a pipeline that terminates, with the error of
    a failed chunk diff, and whose differ task returned without closing
    the diffs channel. *)
Lemma diffs_left_open_on_failure :
  ~ (forall (env : Env) (cmd : Clone) (readerLimiter : option Weighted)
       (vec : gmap (string * string) Z) (r : option error),
       let s := runStages env cmd readerLimiter vec in
       stages_Wait s = Returned r ->
       chan_closes (st_chunks s) = 1%nat /\
       chan_closes (st_diffs s) = 1%nat /\
       chan_closes (st_batches s) = 1%nat).
Proof.
  intros H.
  specialize (H Sample.env_read_failed Sample.cmd Sample.limiter ∅
                (Some (WithStack (ErrorString "read failed")))).
  simpl in H.
  assert (stages_Wait (runStages Sample.env_read_failed Sample.cmd Sample.limiter ∅)
          = Returned (Some (WithStack (ErrorString "read failed")))) as Hw
    by (vm_compute; reflexivity).
  destruct (H Hw) as (_ & Hd & _). vm_compute in Hd. discriminate Hd.
Qed.

End SupervisorFacts.

(* --------------------------------------------------------------------- *)
(* The writes_enqueued counter                                            *)
(* --------------------------------------------------------------------- *)

Module CounterFacts.
Import Supervisor.

Lemma CounterVec_Add_value (vec : gmap (string * string) Z)
    (table type table' type' : string) (n : Z) :
  CounterVec_value (CounterVec_Add vec table type n) table' type' =
  CounterVec_value vec table' type' +
  (if decide ((table, type) = (table', type')) then n else 0).
Proof.
  unfold CounterVec_value, CounterVec_Add.
  destruct (decide ((table, type) = (table', type'))) as [Heq | Hne].
  - rewrite <- Heq, lookup_insert_eq. reflexivity.
  - rewrite lookup_insert_ne by exact Hne. lia.
Qed.

Lemma rows_labelled_app (table type : string) (l1 l2 : list Batch) :
  rows_labelled table type (l1 ++ l2) =
  rows_labelled table type l1 + rows_labelled table type l2.
Proof. induction l1 as [|b l1 IH]; simpl; [reflexivity | rewrite IH; lia]. Qed.

Lemma counted_refl (out : Batcher.Out) : counted out out.
Proof.
  exists []. rewrite app_nil_r. split; [reflexivity|]. intros. simpl. lia.
Qed.

Lemma counted_trans (o1 o2 o3 : Batcher.Out) :
  counted o1 o2 -> counted o2 o3 -> counted o1 o3.
Proof.
  intros (n1 & Hs1 & Hv1) (n2 & Hs2 & Hv2). exists (n1 ++ n2). split.
  - rewrite Hs2, Hs1, app_assoc. reflexivity.
  - intros table type. rewrite Hv2, Hv1, rows_labelled_app. lia.
Qed.

Lemma enqueueBatch_counted (out : Batcher.Out) (b : Batch) :
  counted out (Batcher.enqueueBatch out b).
Proof.
  exists [b]. split; [reflexivity|]. intros table type. simpl.
  rewrite CounterVec_Add_value. lia.
Qed.

Lemma flush_counted (open : list Batch) : forall out,
  counted out (Batcher.flush open out).
Proof.
  induction open as [|b rest IH]; intros out; simpl; [apply counted_refl|].
  eapply counted_trans; [|apply IH].
  destruct (0 <? len (Batch_Rows b)); [apply enqueueBatch_counted | apply counted_refl].
Qed.

Lemma BatchTableWrites_loop_counted (batchSize : Z) (fin : ending) (diffs : list Diff) :
  forall (m : gmap DiffType Batch) (out : Batcher.Out),
  counted out (Batcher.BatchTableWrites_loop batchSize diffs fin m out).
Proof.
  induction diffs as [|diff more IH]; intros m out.
  - simpl. destruct fin; [apply flush_counted | apply counted_refl].
  - cbn [Batcher.BatchTableWrites_loop].
    destruct (len _ >=? batchSize).
    + eapply counted_trans; [apply enqueueBatch_counted | apply IH].
    + apply IH.
Qed.














(** The pipeline of the table [customers] with a single insert to
    apply: one batch of one row goes to the writer, and each of the two
    counters labelled [customers], [insert] has grown by 1. *)
Lemma writes_enqueued_one_insert :
  let s := runStages Sample.env_one_insert Sample.cmd Sample.limiter ∅ in
  let r := processTable Sample.env_one_insert Sample.customers Sample.cmd
             Sample.limiter Sample.limiter [] Sample.world0 in
  chan_sent (st_batches s) = [mkBatch Insert Sample.customers [Sample.customer 1 "A"]] /\
  r.1 = Returned None /\
  CounterVec_value (world_writesEnqueued r.2) "customers" "insert" = 1 /\
  CounterVec_value (st_batcher_writesEnqueued s) "customers" "insert" = 1.
Proof. repeat split; vm_compute; reflexivity. Qed.

End CounterFacts.

(* --------------------------------------------------------------------- *)
(* More on the chunk statements                                           *)
(* --------------------------------------------------------------------- *)

Module ChunkMore.

(** X5. The statement built with [chunkWhere] selects the keys of the
    chunk's range, whatever the flags of the chunk, among the rows that
    satisfy the extra clause if there is one. *)
Lemma chunkWhere_selects_range (c : Chunk) (w : string) (extra : Z -> bool) (id : Z) :
  Reader.StreamChunk_selects c w extra id =
    (if String.eqb w EmptyString then true else extra id) && in_range c id.
Proof.
  unfold Reader.StreamChunk_selects, Reader.chunkClauses, in_range, Clauses_hold.
  destruct (String.eqb w EmptyString), (Chunk_First c), (Chunk_Last c);
    simpl; rewrite ?Z.geb_leb, ?andb_true_r; reflexivity.
Qed.

(** X6. [chunkWhere] returns the empty text exactly when there is no extra
    clause and the chunk is both first and last. In every other case
    the text is the word [where], a blank, and the conjuncts joined by
    [and]: the extra clause in brackets if there is one, then the
    bounds of the chunk, none for a chunk that is first and last, one
    for a first or a last chunk, two otherwise. *)
Theorem chunkWhere_empty_or_where (c : Chunk) (w : string) :
  (Reader.chunkWhere c w = EmptyString <->
   w = EmptyString /\ Chunk_First c = true /\ Chunk_Last c = true) /\
  (w = EmptyString /\ Chunk_First c = true /\ Chunk_Last c = true \/
   Reader.chunkWhere c w =
     String.append "where "
       (strings_Join (List.map Reader.Clause_text (Reader.chunkClauses c w)) " and ")) /\
  Reader.chunkClauses c w =
    (if String.eqb w EmptyString then [] else [ClauseExtra w]) ++
    (if Chunk_First c && Chunk_Last c then []
     else if Chunk_First c then [ClauseLt (Table_IDColumn (Chunk_Table c)) (Chunk_End c)]
     else if Chunk_Last c then [ClauseGe (Table_IDColumn (Chunk_Table c)) (Chunk_Start c)]
     else [ClauseGe (Table_IDColumn (Chunk_Table c)) (Chunk_Start c);
           ClauseLt (Table_IDColumn (Chunk_Table c)) (Chunk_End c)]).
Proof.
  split; [|split].
  - unfold Reader.chunkWhere, Reader.chunkClauses. split.
    + destruct (String.eqb w EmptyString) eqn:Hw.
      * apply String.eqb_eq in Hw.
        destruct (Chunk_First c), (Chunk_Last c); simpl; intros H;
          try discriminate H. auto.
      * destruct (Chunk_First c), (Chunk_Last c); simpl; intros H; discriminate H.
    + intros (-> & -> & ->). reflexivity.
  - unfold Reader.chunkWhere, Reader.chunkClauses.
    destruct (String.eqb w EmptyString) eqn:Hw.
    + apply String.eqb_eq in Hw.
      destruct (Chunk_First c), (Chunk_Last c); cbn [andb app List.map];
        first [left; split; [exact Hw | split; reflexivity] | right; reflexivity].
    + right. destruct (Chunk_First c), (Chunk_Last c); reflexivity.
  - unfold Reader.chunkClauses.
    destruct (String.eqb w EmptyString), (Chunk_First c), (Chunk_Last c); reflexivity.
Qed.

End ChunkMore.

(* --------------------------------------------------------------------- *)
(* More on the batcher: no row is lost, none is sent twice                *)
(* --------------------------------------------------------------------- *)

Module BatcherMore.
Import Batcher.

#[local] Abbreviation has_rows := (fun b : Batch => 0 <? len (Batch_Rows b)).

Lemma rows_of_type_app (t : DiffType) (l1 l2 : list Batch) :
  rows_of_type t (l1 ++ l2) = rows_of_type t l1 ++ rows_of_type t l2.
Proof.
  induction l1 as [|b l1 IH]; simpl; [reflexivity|].
  rewrite IH, app_assoc. reflexivity.
Qed.

Lemma diff_rows_of_type_app (t : DiffType) (l1 l2 : list Diff) :
  diff_rows_of_type t (l1 ++ l2) = diff_rows_of_type t l1 ++ diff_rows_of_type t l2.
Proof.
  induction l1 as [|d l1 IH]; simpl; [reflexivity|].
  rewrite IH, app_assoc. reflexivity.
Qed.

Lemma no_rows_nil (b : Batch) : has_rows b = false -> Batch_Rows b = [].
Proof.
  unfold len. destruct (Batch_Rows b) as [|r rs]; [reflexivity|].
  intros H. apply Z.ltb_ge in H. simpl length in H. lia.
Qed.

(** Bindings whose batches carry their key as type: a type that is not
    a key has no rows among them. *)
Lemma rows_of_type_absent (t : DiffType) (l : list (DiffType * Batch)) :
  (forall k b, (k, b) ∈ l -> Batch_Type b = k) ->
  t ∉ l.*1 ->
  rows_of_type t (List.filter has_rows (l.*2)) = [].
Proof.
  induction l as [|[k b0] l IH]; intros Hty Hnot; [reflexivity|].
  rewrite fmap_cons. cbn [List.filter snd]. assert (rows_of_type t (List.filter has_rows (l.*2)) = []) as Hrest.
  { apply IH.
    - intros k' b' Hin. apply Hty. right. exact Hin.
    - intros Hin. apply Hnot. simpl. right. exact Hin. }
  assert (Batch_Type b0 <> t) as Hne.
  { rewrite (Hty k b0) by left. intros ->. apply Hnot. simpl. left. }
  destruct (0 <? len (Batch_Rows b0)); [|exact Hrest].
  simpl. rewrite Hrest. destruct (decide (Batch_Type b0 = t)); [congruence | reflexivity].
Qed.

(** With distinct keys, the rows of type [t] are those of the batch
    bound to [t]. *)
Lemma rows_of_type_bound (t : DiffType) (b : Batch) (l : list (DiffType * Batch)) :
  (forall k b, (k, b) ∈ l -> Batch_Type b = k) ->
  NoDup (l.*1) ->
  (t, b) ∈ l ->
  rows_of_type t (List.filter has_rows (l.*2)) = Batch_Rows b.
Proof.
  induction l as [|[k b0] l IH]; intros Hty Hnd Hin; [inversion Hin|].
  simpl in Hnd. apply NoDup_cons in Hnd as [Hk Hnd].
  assert (forall k' b', (k', b') ∈ l -> Batch_Type b' = k') as Hty'
    by (intros k' b' H; apply Hty; right; exact H).
  apply elem_of_cons in Hin as [Heq | Hin].
  - inversion Heq; subst k b0. rewrite fmap_cons. cbn [List.filter snd].
    pose proof (rows_of_type_absent t l Hty' Hk) as Hrest.
    destruct (0 <? len (Batch_Rows b)) eqn:Hrows.
    + simpl. rewrite Hrest, app_nil_r.
      destruct (decide (Batch_Type b = t)) as [_ | Hne]; [reflexivity|].
      exfalso. apply Hne. apply Hty. left.
    + rewrite Hrest. symmetry. apply no_rows_nil. exact Hrows.
  - assert (k <> t) as Hne.
    { intros ->. apply Hk. apply list_elem_of_fmap. exists (t, b). split; [reflexivity | exact Hin]. }
    rewrite fmap_cons. cbn [List.filter snd]. destruct (0 <? len (Batch_Rows b0)).
    + simpl. destruct (decide (Batch_Type b0 = t)) as [He | _].
      * exfalso. apply Hne. rewrite <- He. symmetry. apply Hty. left.
      * simpl. apply IH; assumption.
    + apply IH; assumption.
Qed.

(** What the final loop over the open batches sends, type by type. *)
Lemma flushed_rows (m : gmap DiffType Batch) (t : DiffType) :
  (forall k b, m !! k = Some b -> Batch_Type b = k) ->
  rows_of_type t (List.filter has_rows (snd <$> map_to_list m)) = open_rows m t.
Proof.
  intros Hty. unfold open_rows.
  assert (forall k b, (k, b) ∈ map_to_list m -> Batch_Type b = k) as Hty'.
  { intros k b Hin. apply Hty. apply elem_of_map_to_list. exact Hin. }
  destruct (m !! t) as [b|] eqn:Hlk.
  - apply rows_of_type_bound; [exact Hty' | apply NoDup_fst_map_to_list |].
    apply elem_of_map_to_list. exact Hlk.
  - apply rows_of_type_absent; [exact Hty'|].
    intros Hin. apply list_elem_of_fmap in Hin as ([k b] & -> & Hin).
    apply elem_of_map_to_list in Hin. simpl in *. congruence.
Qed.

(** The loop of [BatchTableWrites], whatever the batch size: the run
    that ends on the closed input sends what the run that ends on the
    cancellation sends, and then the open batches; and type by type, the
    rows sent followed by the rows still open are the rows that were
    open before followed by the rows of the diffs, in order. *)
Lemma BatchTableWrites_loop_rows (batchSize : Z) (diffs : list Diff) :
  forall (m : gmap DiffType Batch) (out : Out),
  (forall k b, m !! k = Some b -> Batch_Type b = k) ->
  exists new m',
    chan_sent (batches (BatchTableWrites_loop batchSize diffs CtxDone m out)) =
      chan_sent (batches out) ++ new /\
    BatchTableWrites_loop batchSize diffs InputClosed m out =
      flush (snd <$> map_to_list m')
        (BatchTableWrites_loop batchSize diffs CtxDone m out) /\
    (forall k b, m' !! k = Some b -> Batch_Type b = k) /\
    forall t, rows_of_type t new ++ open_rows m' t =
              open_rows m t ++ diff_rows_of_type t diffs.
Proof.
  induction diffs as [|diff more IH]; intros m out Hty.
  - exists [], m. simpl. rewrite app_nil_r. repeat split; try assumption.
    intros t. rewrite app_nil_r. reflexivity.
  - cbn [BatchTableWrites_loop].
    set (b0 := match m !! Diff_Type diff with
               | Some batch => batch
               | None => mkBatch (Diff_Type diff) (Row_Table (Diff_Row diff)) []
               end).
    assert (Batch_Type b0 = Diff_Type diff) as Hb0.
    { subst b0. destruct (m !! Diff_Type diff) as [b|] eqn:Hlk; [|reflexivity].
      apply Hty. exact Hlk. }
    assert (Batch_Rows b0 = open_rows m (Diff_Type diff)) as Hrows0.
    { subst b0. unfold open_rows. destruct (m !! Diff_Type diff); reflexivity. }
    cbn [Batch_Rows Batch_Type Batch_Table].
    destruct (len (Batch_Rows b0 ++ [Diff_Row diff]) >=? batchSize).
    + edestruct (IH (<[Diff_Type diff := mkBatch (Batch_Type b0) (Batch_Table b0) []]> m)
                   (enqueueBatch out
                      (mkBatch (Batch_Type b0) (Batch_Table b0)
                         (Batch_Rows b0 ++ [Diff_Row diff]))))
        as (new & m' & Hsent & Hclosed & Hty' & Hrows).
      { intros k b Hlk. destruct (decide (Diff_Type diff = k)) as [<- | Hne].
        - rewrite lookup_insert_eq in Hlk. inversion Hlk. exact Hb0.
        - rewrite lookup_insert_ne in Hlk by exact Hne. apply Hty. exact Hlk. }
      eexists _, m'. split; [|split; [exact Hclosed | split; [exact Hty'|]]].
      * rewrite Hsent. cbn [enqueueBatch batches chan_send chan_sent].
        rewrite <- app_assoc. reflexivity.
      * intros t. cbn [rows_of_type Batch_Type Batch_Rows app diff_rows_of_type].
        rewrite <- app_assoc, Hrows. unfold open_rows at 1.
        destruct (decide (Diff_Type diff = t)) as [<- | Hne].
        -- rewrite lookup_insert_eq. cbn [Batch_Rows].
           destruct (decide (Batch_Type b0 = Diff_Type diff)); [|congruence].
           rewrite Hrows0, <- !app_assoc. reflexivity.
        -- rewrite lookup_insert_ne by exact Hne.
           destruct (decide (Batch_Type b0 = t)); [congruence|].
           reflexivity.
    + edestruct (IH (<[Diff_Type diff := mkBatch (Batch_Type b0) (Batch_Table b0)
                                           (Batch_Rows b0 ++ [Diff_Row diff])]> m) out)
        as (new & m' & Hsent & Hclosed & Hty' & Hrows).
      { intros k b Hlk. destruct (decide (Diff_Type diff = k)) as [<- | Hne].
        - rewrite lookup_insert_eq in Hlk. inversion Hlk. exact Hb0.
        - rewrite lookup_insert_ne in Hlk by exact Hne. apply Hty. exact Hlk. }
      exists new, m'. split; [exact Hsent | split; [exact Hclosed | split; [exact Hty'|]]].
      intros t. rewrite Hrows. unfold open_rows at 1. cbn [diff_rows_of_type].
      destruct (decide (Diff_Type diff = t)) as [<- | Hne].
      * rewrite lookup_insert_eq. cbn [Batch_Rows].
        rewrite Hrows0, <- !app_assoc. reflexivity.
      * rewrite lookup_insert_ne by exact Hne. reflexivity.
Qed.

Lemma empty_map_typed (k : DiffType) (b : Batch) :
  (∅ : gmap DiffType Batch) !! k = Some b -> Batch_Type b = k.
Proof. rewrite lookup_empty. discriminate. Qed.

(** X7. When its input is closed, [BatchTableWrites] has sent, type by type,
    exactly the rows of the diffs it received, in the order in which it
    received them: no row is lost, sent twice or moved to a batch of
    another type. This holds for every batch size. *)
Theorem BatchTableWrites_sends_every_row (batchSize : Z) (diffs : list Diff) (out : Out) :
  exists new,
    chan_sent (batches (BatchTableWrites batchSize diffs InputClosed out)) =
      chan_sent (batches out) ++ new /\
    forall t, rows_of_type t new = diff_rows_of_type t diffs.
Proof.
  unfold BatchTableWrites.
  destruct (BatchTableWrites_loop_rows batchSize diffs ∅ out empty_map_typed)
    as (new & m' & Hsent & Hclosed & Hty' & Hrows).
  exists (new ++ List.filter has_rows (snd <$> map_to_list m')). split.
  - rewrite Hclosed, BatcherFacts.flush_sent, Hsent, <- app_assoc. reflexivity.
  - intros t. rewrite rows_of_type_app, (flushed_rows m' t Hty'), Hrows.
    unfold open_rows. rewrite lookup_empty. reflexivity.
Qed.

(** X8. When [BatchTableWrites] ends on the cancellation, what it has sent
    is the beginning of what it would have sent had its input been
    closed at that point; type by type, the rows sent are the first of
    the rows received and the rest is what the open batches held. *)
Theorem BatchTableWrites_cancelled_sends_prefix (batchSize : Z) (diffs : list Diff)
    (out : Out) :
  exists sent held,
    chan_sent (batches (BatchTableWrites batchSize diffs CtxDone out)) =
      chan_sent (batches out) ++ sent /\
    chan_sent (batches (BatchTableWrites batchSize diffs InputClosed out)) =
      chan_sent (batches out) ++ sent ++ held /\
    forall t, rows_of_type t sent ++ rows_of_type t held = diff_rows_of_type t diffs.
Proof.
  unfold BatchTableWrites.
  destruct (BatchTableWrites_loop_rows batchSize diffs ∅ out empty_map_typed)
    as (new & m' & Hsent & Hclosed & Hty' & Hrows).
  exists new, (List.filter has_rows (snd <$> map_to_list m')).
  split; [exact Hsent|]. split.
  - rewrite Hclosed, BatcherFacts.flush_sent, Hsent, <- app_assoc. reflexivity.
  - intros t. rewrite (flushed_rows m' t Hty'), Hrows.
    unfold open_rows. rewrite lookup_empty. reflexivity.
Qed.

(** With a batch size of one or less every open batch is full as soon
    as it gets a row, so nothing is ever held back. *)
Lemma BatchTableWrites_loop_unit (batchSize : Z) (fin : ending) (diffs : list Diff) :
  batchSize <= 1 ->
  forall (m : gmap DiffType Batch) (out : Out),
  (forall t b, m !! t = Some b -> Batch_Type b = t /\ Batch_Rows b = []) ->
  exists new,
    chan_sent (batches (BatchTableWrites_loop batchSize diffs fin m out)) =
      chan_sent (batches out) ++ new /\
    Batch_Rows <$> new = (fun d => [Diff_Row d]) <$> diffs /\
    Batch_Type <$> new = Diff_Type <$> diffs.
Proof.
  intros Hsize. induction diffs as [|diff more IH]; intros m out Hm.
  - exists []. split; [|split; reflexivity]. simpl. destruct fin; [|rewrite app_nil_r; reflexivity].
    rewrite BatcherFacts.flush_sent. f_equal.
    assert (forall l : list (DiffType * Batch),
              (forall t b, (t, b) ∈ l -> Batch_Rows b = []) ->
              List.filter has_rows (l.*2) = []) as Hnone.
    { induction l as [|[t b] l IHl]; intros Hl; [reflexivity|].
      rewrite fmap_cons. cbn [List.filter snd].
      rewrite (Hl t b) by left. cbn. apply IHl.
      intros t' b' H. apply (Hl t' b'). right. exact H. }
    apply Hnone. intros t b Hin. apply elem_of_map_to_list in Hin.
    apply (Hm t b Hin).
  - cbn [BatchTableWrites_loop].
    set (b0 := match m !! Diff_Type diff with
               | Some batch => batch
               | None => mkBatch (Diff_Type diff) (Row_Table (Diff_Row diff)) []
               end).
    assert (Batch_Type b0 = Diff_Type diff /\ Batch_Rows b0 = []) as [Hb0t Hb0r].
    { subst b0. destruct (m !! Diff_Type diff) as [b|] eqn:Hlk; [|split; reflexivity].
      apply Hm. exact Hlk. }
    cbn [Batch_Rows Batch_Type Batch_Table]. rewrite Hb0r. cbn [app].
    replace (len [Diff_Row diff] >=? batchSize) with true
      by (symmetry; rewrite Z.geb_leb; apply Z.leb_le; unfold len; cbn [length]; lia).
    edestruct (IH (<[Diff_Type diff := mkBatch (Batch_Type b0) (Batch_Table b0) []]> m)
                 (enqueueBatch out
                    (mkBatch (Batch_Type b0) (Batch_Table b0) [Diff_Row diff])))
      as (new & Hsent & Hrows & Htypes).
    { intros t b Hlk. destruct (decide (Diff_Type diff = t)) as [<- | Hne].
      - rewrite lookup_insert_eq in Hlk. inversion Hlk. split; [exact Hb0t | reflexivity].
      - rewrite lookup_insert_ne in Hlk by exact Hne. apply Hm. exact Hlk. }
    exists (mkBatch (Batch_Type b0) (Batch_Table b0) [Diff_Row diff] :: new).
    split; [|split].
    + rewrite Hsent. cbn [enqueueBatch batches chan_send chan_sent].
      rewrite <- app_assoc. reflexivity.
    + rewrite !fmap_cons, Hrows. reflexivity.
    + rewrite !fmap_cons, Htypes. cbn [Batch_Type]. rewrite Hb0t. reflexivity.
Qed.

(** X9. With a batch size of one or less (zero and negative sizes
    included), [BatchTableWrites] sends one batch per diff, as it
    receives them: the batches carry the rows and the types of the
    diffs, one row each, in order, however the loop ends. *)
Theorem BatchTableWrites_unit_batches (batchSize : Z) (diffs : list Diff)
    (fin : ending) (out : Out) :
  batchSize <= 1 ->
  exists new,
    chan_sent (batches (BatchTableWrites batchSize diffs fin out)) =
      chan_sent (batches out) ++ new /\
    Batch_Rows <$> new = (fun d => [Diff_Row d]) <$> diffs /\
    Batch_Type <$> new = Diff_Type <$> diffs.
Proof.
  intros Hsize. apply BatchTableWrites_loop_unit; [exact Hsize|].
  intros t b H. rewrite lookup_empty in H. discriminate.
Qed.

Lemma BatchTableWrites_unit_batches_witness :
  0 <= 1 /\
  exists new,
    chan_sent (batches (BatchTableWrites 0 Sample.diffs3 CtxDone Out_init)) =
      chan_sent (batches Out_init) ++ new /\
    Batch_Rows <$> new = (fun d => [Diff_Row d]) <$> Sample.diffs3 /\
    Batch_Type <$> new = Diff_Type <$> Sample.diffs3.
Proof.
  split; [lia|].
  apply (BatchTableWrites_unit_batches 0 Sample.diffs3 CtxDone Out_init). lia.
Defined.

Lemma BatchTableWrites_cancelled_sends_full_batches_witness :
  1 <= 2 /\
  exists new,
    chan_sent (batches (BatchTableWrites 2 Sample.diffs3 CtxDone Out_init)) =
      chan_sent (batches Out_init) ++ new /\
    Forall (fun b => len (Batch_Rows b) = 2) new.
Proof.
  split; [lia|].
  apply (BatcherFacts.BatchTableWrites_cancelled_sends_full_batches 2 Sample.diffs3
           Out_init).
  lia.
Defined.

End BatcherMore.

Module BatchWritesMore.
Import Batcher.

#[local] Abbreviation has_rows := (fun b : Batch => 0 <? len (Batch_Rows b)).

Lemma rows_where_app (p : Batch -> bool) (l1 l2 : list Batch) :
  rows_where p (l1 ++ l2) = rows_where p l1 ++ rows_where p l2.
Proof.
  induction l1 as [|b l1 IH]; simpl; [reflexivity|].
  rewrite IH, app_assoc. reflexivity.
Qed.

Section Bindings.

Context {K : Type}.
Variable p : Batch -> bool.

Lemma rows_where_absent (l : list (K * Batch)) :
  (forall k b, (k, b) ∈ l -> p b = false) ->
  rows_where p (List.filter has_rows (l.*2)) = [].
Proof.
  induction l as [|[k b0] l IH]; intros Hp; [reflexivity|].
  rewrite fmap_cons. cbn [List.filter snd].
  assert (rows_where p (List.filter has_rows (l.*2)) = []) as Hrest
    by (apply IH; intros k' b' H; eapply Hp; right; exact H).
  destruct (0 <? len (Batch_Rows b0)); [|exact Hrest].
  cbn [rows_where]. rewrite Hrest, (Hp k b0) by left. reflexivity.
Qed.

Lemma rows_where_bound (k0 : K) (b : Batch) (l : list (K * Batch)) :
  NoDup (l.*1) -> (k0, b) ∈ l -> p b = true ->
  (forall k b', (k, b') ∈ l -> k <> k0 -> p b' = false) ->
  rows_where p (List.filter has_rows (l.*2)) = Batch_Rows b.
Proof.
  induction l as [|[k b0] l IH]; intros Hnd Hin Hpb Hothers; [inversion Hin|].
  simpl in Hnd. apply NoDup_cons in Hnd as [Hk Hnd].
  rewrite fmap_cons. cbn [List.filter snd].
  apply elem_of_cons in Hin as [Heq | Hin].
  - inversion Heq; subst k b0.
    assert (rows_where p (List.filter has_rows (l.*2)) = []) as Hrest.
    { apply rows_where_absent. intros k' b' H. apply (Hothers k' b'); [right; exact H|].
      intros ->. apply Hk. apply list_elem_of_fmap. exists (k0, b'). split; [reflexivity | exact H]. }
    destruct (0 <? len (Batch_Rows b)) eqn:Hrows.
    + cbn [rows_where]. rewrite Hrest, Hpb, app_nil_r. reflexivity.
    + rewrite Hrest. symmetry. apply BatcherMore.no_rows_nil. exact Hrows.
  - assert (k <> k0) as Hne.
    { intros ->. apply Hk. apply list_elem_of_fmap. exists (k0, b). split; [reflexivity | exact Hin]. }
    assert (rows_where p (List.filter has_rows (l.*2)) = Batch_Rows b) as Hrest.
    { apply IH; try assumption. intros k' b' H. apply Hothers. right. exact H. }
    destruct (0 <? len (Batch_Rows b0)); [|exact Hrest].
    cbn [rows_where]. rewrite (Hothers k b0) by (left || exact Hne). exact Hrest.
Qed.

End Bindings.

Lemma batch_for_true (t : DiffType) (n : string) (b : Batch) :
  Batch_Type b = t -> Table_Name (Batch_Table b) = n -> batch_for t n b = true.
Proof. intros. apply bool_decide_eq_true_2. split; assumption. Qed.

Lemma batch_for_false (t : DiffType) (n : string) (b : Batch) :
  Batch_Type b <> t \/ Table_Name (Batch_Table b) <> n -> batch_for t n b = false.
Proof. intros H. apply bool_decide_eq_false_2. intros [H1 H2]. destruct H; contradiction. Qed.

(** The open batches of one type [t0], taken in the order of the map. *)
Lemma byTable_rows (t0 t : DiffType) (n : string) (byTable : gmap string Batch) :
  (forall name b, byTable !! name = Some b ->
     Batch_Type b = t0 /\ Table_Name (Batch_Table b) = name) ->
  rows_where (batch_for t n) (List.filter has_rows (snd <$> map_to_list byTable)) =
  if decide (t0 = t)
  then match byTable !! n with Some b => Batch_Rows b | None => [] end
  else [].
Proof.
  intros Hkey.
  assert (forall k b, (k, b) ∈ map_to_list byTable ->
            Batch_Type b = t0 /\ Table_Name (Batch_Table b) = k) as Hkey'.
  { intros k b H. apply Hkey. apply elem_of_map_to_list. exact H. }
  destruct (decide (t0 = t)) as [<- | Hne].
  - destruct (byTable !! n) as [b|] eqn:Hlk.
    + apply (rows_where_bound _ n b).
      * apply NoDup_fst_map_to_list.
      * apply elem_of_map_to_list. exact Hlk.
      * destruct (Hkey n b Hlk). apply batch_for_true; assumption.
      * intros k b' H Hk. destruct (Hkey' k b' H) as [_ Hn].
        apply batch_for_false. right. congruence.
    + apply rows_where_absent. intros k b H.
      destruct (Hkey' k b H) as [_ Hn]. apply batch_for_false. right.
      intros Heq. apply elem_of_map_to_list in H. congruence.
  - apply rows_where_absent. intros k b H.
    destruct (Hkey' k b H) as [Ht _]. apply batch_for_false. left. congruence.
Qed.

Lemma filter_has_rows_app (l1 l2 : list Batch) :
  List.filter has_rows (l1 ++ l2) = List.filter has_rows l1 ++ List.filter has_rows l2.
Proof. apply List.filter_app. Qed.

(** The open batches of all types, type after type. *)
Lemma open_list_rows (t : DiffType) (n : string)
    (l : list (DiffType * gmap string Batch)) :
  NoDup (l.*1) ->
  (forall t0 byTable name b, (t0, byTable) ∈ l -> byTable !! name = Some b ->
     Batch_Type b = t0 /\ Table_Name (Batch_Table b) = name) ->
  rows_where (batch_for t n)
    (List.filter has_rows
       (concat ((fun byTable : gmap string Batch => snd <$> map_to_list byTable)
                  <$> (l.*2)))) =
  match list_find (fun e => e.1 = t) l with
  | Some (_, (_, byTable)) =>
      match byTable !! n with Some b => Batch_Rows b | None => [] end
  | None => []
  end.
Proof.
  induction l as [|[t0 byTable] l IH]; intros Hnd Hkey; [reflexivity|].
  simpl in Hnd. apply NoDup_cons in Hnd as [Hk Hnd].
  rewrite !fmap_cons. cbn [concat snd].
  rewrite filter_has_rows_app, rows_where_app.
  rewrite (byTable_rows t0 t n byTable)
    by (intros name b H; eapply Hkey; [left | exact H]).
  assert (forall t1 bt name b, (t1, bt) ∈ l -> bt !! name = Some b ->
            Batch_Type b = t1 /\ Table_Name (Batch_Table b) = name) as Hkey'
    by (intros t1 bt name b H; apply Hkey; right; exact H).
  specialize (IH Hnd Hkey'). rewrite IH.
  cbn [list_find]. simpl. destruct (decide (t0 = t)) as [<- | Hne].
  - simpl. destruct (list_find (fun e => e.1 = t0) l) as [[i [t1 bt]]|] eqn:Hfind.
    + exfalso. apply list_find_Some in Hfind as (Hi & Ht1 & _). simpl in Ht1. subst t1.
      apply Hk. apply list_elem_of_fmap. exists (t0, bt).
      split; [reflexivity | eapply list_elem_of_lookup_2; exact Hi].
    + apply app_nil_r.
  - simpl. destruct (list_find (fun e => e.1 = t) l) as [[i [t1 bt]]|]; reflexivity.
Qed.

(** What the final loops of [BatchWrites] over its open batches send,
    for one type and one table name. *)
Lemma open_batches_rows (m : gmap DiffType (gmap string Batch))
    (t : DiffType) (n : string) :
  keyed m ->
  rows_where (batch_for t n) (List.filter has_rows (open_batches m)) =
  open_rows_for m t n.
Proof.
  intros Hkeyed. unfold open_batches, open_rows_for.
  rewrite (open_list_rows t n (map_to_list m)).
  - destruct (list_find (fun e => e.1 = t) (map_to_list m)) as [[i [t1 bt]]|] eqn:Hfind.
    + apply list_find_Some in Hfind as (Hi & Ht1 & _). simpl in Ht1. subst t1.
      apply list_elem_of_lookup_2, elem_of_map_to_list in Hi. rewrite Hi. reflexivity.
    + destruct (m !! t) as [bt|] eqn:Hlk; [|reflexivity].
      exfalso. apply list_find_None in Hfind. rewrite Forall_forall in Hfind.
      apply (Hfind (t, bt)); [|reflexivity].
      apply elem_of_map_to_list. exact Hlk.
  - apply NoDup_fst_map_to_list.
  - intros t0 bt name b Hin Hlk. apply elem_of_map_to_list in Hin.
    destruct (Hkeyed t0 bt name b Hin Hlk) as (H1 & H2 & _). split; assumption.
Qed.

Lemma open_batches_one_table_name (m : gmap DiffType (gmap string Batch)) :
  keyed m -> Forall one_table_name (open_batches m).
Proof.
  intros Hkeyed. apply Forall_forall. intros b Hb.
  apply BatcherFacts.elem_of_open_batches in Hb as (t & bt & n & Ht & Hn).
  destruct (Hkeyed t bt n b Ht Hn) as (_ & Hname & Hrows).
  unfold one_table_name. rewrite Hname. exact Hrows.
Qed.

Lemma keyed_empty : keyed ∅.
Proof. intros t bt n b H. rewrite lookup_empty in H. discriminate. Qed.

Lemma open_rows_for_empty (t : DiffType) (n : string) : open_rows_for ∅ t n = [].
Proof. unfold open_rows_for. rewrite lookup_empty. reflexivity. Qed.

(** The [readChannel] loop of [BatchWrites], whatever the batch size:
    for each type and table name, the rows sent followed by the rows
    left open are the rows that were open before followed by the rows of
    the diffs of that type and table name, in order. *)
Lemma BatchWrites_loop_rows (batchSize : Z) (diffs : list Diff) :
  forall (m : gmap DiffType (gmap string Batch)) (out : Out),
  keyed m ->
  exists new,
    chan_sent (batches (BatchWrites_loop batchSize diffs m out).2) =
      chan_sent (batches out) ++ new /\
    keyed (BatchWrites_loop batchSize diffs m out).1 /\
    Forall one_table_name new /\
    forall t n,
      rows_where (batch_for t n) new ++
        open_rows_for (BatchWrites_loop batchSize diffs m out).1 t n =
      open_rows_for m t n ++ diff_rows_where (diff_for t n) diffs.
Proof.
  induction diffs as [|diff more IH]; intros m out Hkeyed.
  - exists []. simpl. rewrite app_nil_r.
    split; [reflexivity|]. split; [exact Hkeyed|]. split; [constructor|].
    intros t n. rewrite app_nil_r. reflexivity.
  - cbn [BatchWrites_loop].
    set (name := Table_Name (Row_Table (Diff_Row diff))).
    set (bt := match m !! Diff_Type diff with Some byTable => byTable | None => ∅ end).
    set (m1 := match m !! Diff_Type diff with
               | Some _ => m
               | None => <[Diff_Type diff := ∅]> m
               end).
    replace (match m !! Diff_Type diff with
             | Some batchesByTable => (batchesByTable, m)
             | None => (∅, <[Diff_Type diff := ∅]> m)
             end) with (bt, m1)
      by (subst bt m1; destruct (m !! Diff_Type diff); reflexivity).
    set (b0 := match bt !! name with
               | Some batch => batch
               | None => mkBatch (Diff_Type diff) (Row_Table (Diff_Row diff)) []
               end).
    assert (Batch_Type b0 = Diff_Type diff /\ Table_Name (Batch_Table b0) = name /\
            Forall (fun r => Table_Name (Row_Table r) = name) (Batch_Rows b0)) as Hb0.
    { subst b0. destruct (bt !! name) as [b|] eqn:Hlk.
      - subst bt. destruct (m !! Diff_Type diff) as [byTable|] eqn:Hty.
        + eapply Hkeyed; eassumption.
        + rewrite lookup_empty in Hlk. discriminate.
      - repeat split. constructor. }
    destruct Hb0 as (Hb0t & Hb0n & Hb0r).
    assert (Batch_Rows b0 = open_rows_for m (Diff_Type diff) name) as Hrows0.
    { subst b0 bt. unfold open_rows_for.
      destruct (m !! Diff_Type diff) as [byTable|];
        [destruct (byTable !! name); reflexivity|].
      rewrite lookup_empty. reflexivity. }
    assert (Forall (fun r => Table_Name (Row_Table r) = name)
              (Batch_Rows b0 ++ [Diff_Row diff])) as Hrows1.
    { apply Forall_app. split; [exact Hb0r|]. constructor; [reflexivity | constructor]. }
    (* the map after the assignment, for any batch put back *)
    assert (forall b1,
              Batch_Type b1 = Diff_Type diff -> Table_Name (Batch_Table b1) = name ->
              Forall (fun r => Table_Name (Row_Table r) = name) (Batch_Rows b1) ->
              keyed (<[Diff_Type diff := <[name := b1]> bt]> m1) /\
              forall t n,
                open_rows_for (<[Diff_Type diff := <[name := b1]> bt]> m1) t n =
                if decide (Diff_Type diff = t /\ name = n) then Batch_Rows b1
                else open_rows_for m t n) as Hput.
    { intros b1 H1t H1n H1r. split.
      - intros t byTable n b Hlk Hn.
        destruct (decide (Diff_Type diff = t)) as [<- | Hne].
        + rewrite lookup_insert_eq in Hlk. inversion Hlk; subst byTable.
          destruct (decide (name = n)) as [<- | Hnn].
          * rewrite lookup_insert_eq in Hn. inversion Hn; subst b. auto.
          * rewrite lookup_insert_ne in Hn by exact Hnn. subst bt.
            destruct (m !! Diff_Type diff) as [byTable|] eqn:Hty.
            -- eapply Hkeyed; eassumption.
            -- rewrite lookup_empty in Hn. discriminate.
        + rewrite lookup_insert_ne in Hlk by exact Hne. subst m1.
          destruct (m !! Diff_Type diff) as [byTable'|] eqn:Hty.
          * eapply Hkeyed; eassumption.
          * rewrite lookup_insert_ne in Hlk by exact Hne. eapply Hkeyed; eassumption.
      - intros t n. unfold open_rows_for.
        destruct (decide (Diff_Type diff = t)) as [<- | Hne].
        + rewrite lookup_insert_eq.
          destruct (decide (name = n)) as [<- | Hnn].
          * rewrite lookup_insert_eq.
            destruct (decide (Diff_Type diff = Diff_Type diff /\ name = name)) as [_ | H];
              [reflexivity | exfalso; apply H; split; reflexivity].
          * rewrite lookup_insert_ne by exact Hnn.
            destruct (decide (Diff_Type diff = Diff_Type diff /\ name = n)) as [[_ H] | _];
              [contradiction|].
            subst bt. destruct (m !! Diff_Type diff); [reflexivity|].
            rewrite lookup_empty. reflexivity.
        + rewrite lookup_insert_ne by exact Hne.
          destruct (decide (Diff_Type diff = t /\ name = n)) as [[H _] | _];
            [contradiction|].
          subst m1. destruct (m !! Diff_Type diff) eqn:Hty; [reflexivity|].
          rewrite lookup_insert_ne by exact Hne. reflexivity. }
    assert (forall t n,
              diff_for t n diff = bool_decide (Diff_Type diff = t /\ name = n)) as Hdf
      by reflexivity.
    cbn [Batch_Rows Batch_Type Batch_Table].
    destruct (len (Batch_Rows b0 ++ [Diff_Row diff]) >=? batchSize).
    + destruct (Hput (mkBatch (Batch_Type b0) (Batch_Table b0) []) Hb0t Hb0n)
        as [Hk1 Hopen1]; [constructor|].
      destruct (IH _ (enqueueBatch out
                        (mkBatch (Batch_Type b0) (Batch_Table b0)
                           (Batch_Rows b0 ++ [Diff_Row diff]))) Hk1)
        as (new & Hsent & Hk' & Hnames & Hrows).
      eexists. split; [|split; [exact Hk'|split]].
      * rewrite Hsent. cbn [enqueueBatch batches chan_send chan_sent].
        rewrite <- app_assoc. reflexivity.
      * constructor; [|exact Hnames]. unfold one_table_name. cbn [Batch_Rows Batch_Table].
        rewrite Hb0n. exact Hrows1.
      * intros t n. cbn [rows_where diff_rows_where app].
        rewrite <- app_assoc, Hrows, Hopen1, Hdf. cbn [Batch_Rows].
        unfold batch_for. cbn [Batch_Type Batch_Table]. rewrite Hb0t, Hb0n.
        destruct (decide (Diff_Type diff = t /\ name = n)) as [[<- <-] | Hne].
        -- rewrite !bool_decide_eq_true_2 by (split; reflexivity).
           rewrite Hrows0, <- !app_assoc. reflexivity.
        -- rewrite !bool_decide_eq_false_2 by exact Hne. reflexivity.
    + destruct (Hput (mkBatch (Batch_Type b0) (Batch_Table b0)
                        (Batch_Rows b0 ++ [Diff_Row diff])) Hb0t Hb0n Hrows1)
        as [Hk1 Hopen1].
      destruct (IH _ out Hk1) as (new & Hsent & Hk' & Hnames & Hrows).
      exists new. split; [exact Hsent | split; [exact Hk' | split; [exact Hnames|]]].
      intros t n. cbn [diff_rows_where].
      rewrite Hrows, Hopen1, Hdf. cbn [Batch_Rows].
      destruct (decide (Diff_Type diff = t /\ name = n)) as [[<- <-] | Hne].
      * rewrite bool_decide_eq_true_2 by (split; reflexivity).
        rewrite Hrows0, <- !app_assoc. reflexivity.
      * rewrite bool_decide_eq_false_2 by exact Hne. reflexivity.
Qed.

Lemma BatchWrites_loop_closes (batchSize : Z) (diffs : list Diff) :
  forall (m : gmap DiffType (gmap string Batch)) (out : Out),
  chan_closes (batches (BatchWrites_loop batchSize diffs m out).2) =
  chan_closes (batches out).
Proof.
  induction diffs as [|diff more IH]; intros m out; [reflexivity|].
  cbn [BatchWrites_loop].
  destruct (m !! Diff_Type diff) as [bt|]; cbn [Batch_Rows Batch_Type Batch_Table];
    destruct (len _ >=? batchSize); rewrite IH; reflexivity.
Qed.

(** X10. However its loop ends, [BatchWrites] has sent, for each type and
    table name, exactly the rows of the diffs of that type and table
    name it received, in the order in which it received them; every
    batch holds rows of tables with the name of its own table only; and
    the channel has been closed once more. This holds for every batch
    size. *)
Theorem BatchWrites_sends_every_row (batchSize : Z) (diffs : list Diff) (fin : ending)
    (out : Out) :
  exists new,
    chan_sent (batches (BatchWrites batchSize diffs fin out)) =
      chan_sent (batches out) ++ new /\
    chan_closes (batches (BatchWrites batchSize diffs fin out)) =
      Datatypes.S (chan_closes (batches out)) /\
    Forall one_table_name new /\
    forall t n, rows_where (batch_for t n) new = diff_rows_where (diff_for t n) diffs.
Proof.
  destruct (BatchWrites_loop_rows batchSize diffs ∅ out keyed_empty)
    as (new & Hsent & Hk & Hnames & Hrows).
  pose proof (BatchWrites_loop_closes batchSize diffs ∅ out) as Hcl.
  unfold BatchWrites.
  destruct (BatchWrites_loop batchSize diffs ∅ out) as [m' out'] eqn:Hloop.
  simpl in *.
  exists (new ++ List.filter has_rows (open_batches m')). split; [|split; [|split]].
  - rewrite BatcherFacts.flush_sent, Hsent, <- app_assoc. reflexivity.
  - rewrite BatcherFacts.flush_closes, Hcl. reflexivity.
  - apply Forall_app. split; [exact Hnames|].
    pose proof (open_batches_one_table_name m' Hk) as Hall.
    rewrite Forall_forall in Hall. apply Forall_forall. intros b Hb.
    apply Hall. apply list_elem_of_In, filter_In in Hb as [Hb _].
    apply list_elem_of_In. exact Hb.
  - intros t n. rewrite rows_where_app, (open_batches_rows m' t n Hk), Hrows.
    rewrite open_rows_for_empty. reflexivity.
Qed.

End BatchWritesMore.

(* --------------------------------------------------------------------- *)
(* More on the pipeline of a table                                        *)
(* --------------------------------------------------------------------- *)

Module SupervisorMore.
Import Supervisor.

(* Goroutines side by side *)
















(** The diffs of two chunks when the diff of the second chunk sends
    first. *)
Lemma differTask_second_chunk_first :
  chan_sent (differ_diffs
    (differTask (Some (mkWeighted 4)) Sample.env_two_chunks
       (mkChan (env_GenerateTableChunks Sample.env_two_chunks).1 1) make_chan).2)
  = [mkDiff Insert (Sample.customer 4 "A"); mkDiff Insert (Sample.customer 1 "A")].
Proof. vm_compute. reflexivity. Qed.

(** A semaphore without a permit: the chunker waits in [Acquire] for
    ever when nobody cancels. *)
Lemma chunkerTask_waits_without_permit (env : Env) (limiter : Weighted)
    (chunks : chan Chunk) :
  Weighted_size limiter < 1 ->
  env_chunker_Acquire env = None ->
  chunkerTask (Some limiter) env chunks = (Blocked, chunks).
Proof.
  intros Hsize Hacq. unfold chunkerTask, Weighted_Acquire. rewrite Hacq.
  destruct (Z.ltb_spec (Weighted_size limiter) 1) as [_|Hge]; [reflexivity | lia].
Qed.

(** A writer that leaves at its first batch, and channels without a
    buffer: the batcher has counted its second batch and stays in the
    send of it; the batches channel is never closed, and [g.Wait()]
    does not return. *)
Lemma batcher_stays_in_send :
  let s := runStages Sample.env_not_scheduled Sample.cmd_unbuffered Sample.limiter ∅ in
  st_writer s = Returned (Some (WithStack (ErrorString "not scheduled"))) /\
  st_batcher s = Blocked /\
  chan_sent (st_batches s) = [mkBatch Insert Sample.customers [Sample.customer 1 "A"]] /\
  chan_closes (st_batches s) = 0%nat /\
  CounterVec_value (st_batcher_writesEnqueued s) "customers" "insert" = 2 /\
  CounterVec_value (st_writesEnqueued s) "customers" "insert" = 1 /\
  stages_Wait s = Blocked.
Proof. repeat split; vm_compute; reflexivity. Qed.

(* The writer task *)

Lemma count_of_type_snoc (t : DiffType) (bs : list Batch) (b : Batch) :
  count_of_type t (bs ++ [b]) =
  count_of_type t bs + (if decide (Batch_Type b = t) then len (Batch_Rows b) else 0).
Proof.
  unfold count_of_type. rewrite BatcherMore.rows_of_type_app. simpl.
  rewrite app_nil_r. unfold len. rewrite length_app.
  destruct (decide (Batch_Type b = t)); simpl; lia.
Qed.

(** The loop of the writer task handles the batches in order up to the
    end, or up to the first batch that cannot be scheduled, and that
    one included. *)
Lemma writer_range_handled (env : Env) (received : list Batch) : forall st,
  exists handled,
    handled `prefix_of` received /\
    ((writer_range env received st).2 = None -> handled = received) /\
    let st' := (writer_range env received st).1 in
    writer_inserts st' = writer_inserts st + count_of_type Insert handled /\
    writer_updates st' = writer_updates st + count_of_type Update handled /\
    writer_deletes st' = writer_deletes st + count_of_type Delete handled.
Proof.
  induction received as [|b rest IH]; intros st.
  - exists []. split; [reflexivity|]. split; [reflexivity|].
    unfold count_of_type, len. simpl. rewrite !Z.add_0_r. auto.
  - cbn [writer_range].
    assert (forall t, count_of_type t [b] =
              if decide (Batch_Type b = t) then len (Batch_Rows b) else 0) as Hone.
    { intros t. unfold count_of_type. simpl. rewrite app_nil_r.
      destruct (decide (Batch_Type b = t)); reflexivity. }
    destruct (env_scheduleWriteBatch env b) as [err|].
    + exists [b]. split; [exists rest; reflexivity|]. split; [discriminate|].
      cbn [fst writer_inserts writer_updates writer_deletes]. rewrite !Hone.
      destruct (Batch_Type b); simpl; lia.
    + match goal with
      | |- context [writer_range env rest ?s] => set (st1 := s)
      end.
      destruct (IH st1) as (handled & Hpre & Hall & Hi & Hu & Hd).
      exists (b :: handled). split; [apply prefix_cons; exact Hpre|].
      split; [intros H; f_equal; apply Hall; exact H|].
      cbn zeta in *. rewrite Hi, Hu, Hd.
      assert (forall t, count_of_type t (b :: handled) =
                count_of_type t [b] + count_of_type t handled) as Hcons.
      { intros t. change (b :: handled) with ([b] ++ handled).
        unfold count_of_type, len. rewrite BatcherMore.rows_of_type_app, length_app. lia. }
      rewrite !Hcons, !Hone. subst st1.
      cbn [writer_inserts writer_updates writer_deletes].
      destruct (Batch_Type b); simpl; lia.
Qed.

(** X12. When every batch can be scheduled, the three counts that the writer
    task keeps for the log are the numbers of rows of the batches it
    received, type by type. *)
Theorem writerTask_counts_rows (env : Env) (batches : chan Batch)
    (vec : gmap (string * string) Z) :
  (forall b, env_scheduleWriteBatch env b = None) ->
  let w := (writerTask env batches vec).2 in
  writer_inserts w = count_of_type Insert (chan_sent batches) /\
  writer_updates w = count_of_type Update (chan_sent batches) /\
  writer_deletes w = count_of_type Delete (chan_sent batches).
Proof.
  intros Hok. unfold writerTask.
  assert (forall received st, (writer_range env received st).2 = None) as Hnone.
  { induction received as [|b rest IH]; intros st; [reflexivity|].
    cbn [writer_range]. rewrite Hok. apply IH. }
  destruct (writer_range_handled env (chan_sent batches) (mkWriter 0 0 0 vec []))
    as (handled & _ & Hall & Hi & Hu & Hd).
  rewrite (Hall (Hnone _ _)) in *.
  specialize (Hnone (chan_sent batches) (mkWriter 0 0 0 vec [])).
  destruct (writer_range env (chan_sent batches) (mkWriter 0 0 0 vec [])) as [st exit].
  simpl in *. subst exit. destruct (chan_closes batches); simpl; lia.
Qed.

Lemma writerTask_counts_rows_witness :
  (forall b, env_scheduleWriteBatch Sample.env_one_insert b = None) /\
  writer_inserts
    (writerTask Sample.env_one_insert
       (mkChan [mkBatch Insert Sample.customers [Sample.customer 1 "A"]] 1) ∅).2 =
  count_of_type Insert [mkBatch Insert Sample.customers [Sample.customer 1 "A"]].
Proof.
  split; [reflexivity|].
  apply (writerTask_counts_rows Sample.env_one_insert
           (mkChan [mkBatch Insert Sample.customers [Sample.customer 1 "A"]] 1) ∅).
  reflexivity.
Defined.






End SupervisorMore.

Module CounterMore.
Import Supervisor.

Lemma BatchWrites_loop_counted (batchSize : Z) (diffs : list Diff) :
  forall (m : gmap DiffType (gmap string Batch)) (out : Batcher.Out),
  counted out (Batcher.BatchWrites_loop batchSize diffs m out).2.
Proof.
  induction diffs as [|diff more IH]; intros m out; [apply CounterFacts.counted_refl|].
  cbn [Batcher.BatchWrites_loop].
  destruct (m !! Diff_Type diff) as [bt|]; cbn [Batch_Rows Batch_Type Batch_Table];
    destruct (len _ >=? batchSize);
    try (eapply CounterFacts.counted_trans;
         [apply CounterFacts.enqueueBatch_counted | apply IH]);
    apply IH.
Qed.

(** X14. Both batchers keep the counter and the channel in step: for every
    pair of labels, what a run adds to [writes_enqueued] is the number
    of rows of the batches with these labels that it sends. *)
Theorem batchers_count_what_they_send (batchSize : Z) (diffs : list Diff)
    (fin : ending) (out : Batcher.Out) :
  (exists new,
     chan_sent (Batcher.batches (Batcher.BatchTableWrites batchSize diffs fin out)) =
       chan_sent (Batcher.batches out) ++ new /\
     forall table type,
       CounterVec_value
         (Batcher.writesEnqueued (Batcher.BatchTableWrites batchSize diffs fin out))
         table type =
       CounterVec_value (Batcher.writesEnqueued out) table type +
       rows_labelled table type new) /\
  (exists new,
     chan_sent (Batcher.batches (Batcher.BatchWrites batchSize diffs fin out)) =
       chan_sent (Batcher.batches out) ++ new /\
     forall table type,
       CounterVec_value
         (Batcher.writesEnqueued (Batcher.BatchWrites batchSize diffs fin out))
         table type =
       CounterVec_value (Batcher.writesEnqueued out) table type +
       rows_labelled table type new).
Proof.
  split.
  - exact (CounterFacts.BatchTableWrites_loop_counted batchSize fin diffs ∅ out).
  - unfold Batcher.BatchWrites.
    pose proof (BatchWrites_loop_counted batchSize diffs ∅ out) as H1.
    destruct (Batcher.BatchWrites_loop batchSize diffs ∅ out) as [m' out'].
    simpl in H1.
    pose proof (CounterFacts.flush_counted (Batcher.open_batches m') out') as H2.
    destruct (CounterFacts.counted_trans _ _ _ H1 H2) as (new & Hs & Hv).
    exists new. split; [exact Hs | exact Hv].
Qed.


Lemma chunker_refused_leaves_differ_blocked_witness :
  env_chunker_Acquire Sample.env_refused = Some Canceled /\
  stages_Wait (runStages Sample.env_refused Sample.cmd (Some (mkWeighted 4)) ∅) = Blocked.
Proof.
  split; [reflexivity|].
  apply (SupervisorFacts.chunker_refused_leaves_differ_blocked Sample.env_refused
           Sample.cmd (mkWeighted 4) ∅ Canceled).
  reflexivity.
Defined.

End CounterMore.

(* --------------------------------------------------------------------- *)
(* Buffered streams                                                       *)
(* --------------------------------------------------------------------- *)

Module BufferedFacts.
Import Buffered.

Section Source.

Context {R S : Type}.
Variable Next : S -> result (option R) * S.
Variable Close : S -> option error * S.

Lemma readAll_loop_drains (s : S) (rows : list R) (last : S) :
  Drains Next s rows last ->
  forall fuel acc, (length rows < fuel)%nat ->
  readAll_loop Next fuel s acc = Some (Ok (acc ++ rows), last).
Proof.
  induction 1 as [s s' Hend | s row s' rows last Hrow _ IH]; intros fuel acc Hfuel.
  - destruct fuel as [|fuel]; [simpl in Hfuel; lia|].
    simpl. rewrite Hend, app_nil_r. reflexivity.
  - destruct fuel as [|fuel]; [simpl in Hfuel; lia|].
    simpl. rewrite Hrow, IH by (simpl in Hfuel; lia).
    rewrite <- app_assoc. reflexivity.
Qed.

Lemma readAll_loop_breaks (s : S) (rows : list R) (err : error) (last : S) :
  Breaks Next s rows err last ->
  forall fuel acc, (length rows < fuel)%nat ->
  readAll_loop Next fuel s acc = Some (Err (WithStack err), last).
Proof.
  induction 1 as [s err s' Herr | s row s' rows err last Hrow _ IH]; intros fuel acc Hfuel.
  - destruct fuel as [|fuel]; [simpl in Hfuel; lia|].
    simpl. rewrite Herr. reflexivity.
  - destruct fuel as [|fuel]; [simpl in Hfuel; lia|].
    simpl. rewrite Hrow. apply IH. simpl in Hfuel. lia.
Qed.

(** What the loop returns is what the stream gave. *)
Lemma readAll_loop_sound (fuel : nat) : forall s acc r last,
  readAll_loop Next fuel s acc = Some (r, last) ->
  (exists rows, r = Ok (acc ++ rows) /\ Drains Next s rows last /\
                (length rows < fuel)%nat) \/
  (exists rows err, r = Err (WithStack err) /\ Breaks Next s rows err last).
Proof.
  induction fuel as [|fuel IH]; intros s acc r last H; [discriminate|].
  simpl in H. destruct (Next s) as [[[row|]|err] s'] eqn:Hn.
  - apply IH in H as [(rows & -> & Hd & Hlen) | (rows & err & -> & Hb)].
    + left. exists (row :: rows). rewrite <- app_assoc. simpl.
      split; [reflexivity|]. split; [eapply Drains_row; eassumption | lia].
    + right. exists (row :: rows), err. split; [reflexivity|].
      eapply Breaks_row; eassumption.
  - inversion H; subst. left. exists []. rewrite app_nil_r.
    split; [reflexivity|]. split; [apply Drains_end; exact Hn | simpl; lia].
  - inversion H; subst. right. exists [], err. split; [reflexivity|].
    apply Breaks_now. exact Hn.
Qed.

(** X15. [readAll] returns rows exactly when the stream yields these rows
    and then ends, given fuel for one call of [Next] more than there are
    rows; the stream is left closed. *)
Theorem readAll_reads_the_stream (fuel : nat) (s : S) (rows : list R) (closed : S) :
  readAll Next Close fuel s = Some (Ok rows, closed) <->
  exists last, Drains Next s rows last /\ closed = (Close last).2 /\
               (length rows < fuel)%nat.
Proof.
  unfold readAll. split.
  - destruct (readAll_loop Next fuel s []) as [[r last]|] eqn:Hloop; [|discriminate].
    intros H. inversion H; subst r closed.
    apply readAll_loop_sound in Hloop
      as [(rows' & Heq & Hd & Hlen) | (rows' & err & Heq & _)]; [|discriminate].
    simpl in Heq. inversion Heq; subst rows'. exists last. auto.
  - intros (last & Hd & -> & Hlen).
    rewrite (readAll_loop_drains s rows last Hd fuel [] Hlen). reflexivity.
Qed.

(** X16. When the stream fails after some rows, [readAll] returns the error
    wrapped and none of the rows, and still closes the stream; [buffer]
    wraps the error once more. *)
Theorem readAll_drops_rows_on_error (fuel : nat) (s : S) (rows : list R)
    (err : error) (last : S) :
  Breaks Next s rows err last ->
  (length rows < fuel)%nat ->
  readAll Next Close fuel s = Some (Err (WithStack err), (Close last).2) /\
  buffer Next Close fuel s = Some (Err (WithStack (WithStack err)), (Close last).2).
Proof.
  intros Hb Hlen. unfold buffer, readAll.
  rewrite (readAll_loop_breaks s rows err last Hb fuel [] Hlen). split; reflexivity.
Qed.

End Source.

(** Rows held in memory drain as they are, and the stream stays at its
    end. *)
Lemma bufferStream_Drains {R : Type} (rows : list R) :
  Drains bufferStream_Next (stream rows) rows [].
Proof.
  unfold stream. induction rows as [|row rows IH].
  - apply Drains_end. reflexivity.
  - eapply Drains_row; [reflexivity | exact IH].
Qed.

(** X17. [buffer] keeps the rows: if a stream yields [rows] and ends, the
    buffered stream that [buffer] makes of it yields the same rows, and
    reading it with [readAll] gives them back. *)
Theorem buffer_keeps_rows {R S : Type} (Next : S -> result (option R) * S)
    (Close : S -> option error * S) (fuel : nat) (s : S) (rows : list R) (last : S) :
  Drains Next s rows last ->
  (length rows < fuel)%nat ->
  exists buffered,
    buffer Next Close fuel s = Some (Ok buffered, (Close last).2) /\
    Drains bufferStream_Next buffered rows [] /\
    readAll bufferStream_Next bufferStream_Close fuel buffered = Some (Ok rows, []).
Proof.
  intros Hd Hlen. exists (stream rows). split; [|split].
  - unfold buffer.
    replace (readAll Next Close fuel s) with (Some (Ok rows, (Close last).2));
      [reflexivity|].
    symmetry. apply readAll_reads_the_stream. exists last. auto.
  - apply bufferStream_Drains.
  - apply readAll_reads_the_stream. exists []. split; [apply bufferStream_Drains|].
    split; [reflexivity | exact Hlen].
Qed.

Lemma readAll_drops_rows_on_error_witness :
  Breaks Sample.flaky_Next Sample.flaky [1%nat] Canceled [Ok 2%nat] /\
  (1 < 5)%nat /\
  readAll Sample.flaky_Next (fun s => (None, s)) 5 Sample.flaky
  = Some (Err (WithStack Canceled), [Ok 2%nat]).
Proof.
  assert (Breaks Sample.flaky_Next Sample.flaky [1%nat] Canceled [Ok 2%nat]) as H.
  { eapply Breaks_row; [reflexivity|]. apply Breaks_now. reflexivity. }
  split; [exact H|]. split; [lia|].
  apply (readAll_drops_rows_on_error Sample.flaky_Next (fun s => (None, s)) 5
           Sample.flaky [1%nat] Canceled [Ok 2%nat] H).
  simpl. lia.
Defined.

Lemma buffer_keeps_rows_witness :
  Drains bufferStream_Next (stream [1%nat; 2%nat]) [1%nat; 2%nat] [] /\
  (2 < 3)%nat /\
  exists buffered,
    buffer bufferStream_Next bufferStream_Close 3 (stream [1%nat; 2%nat])
      = Some (Ok buffered, []) /\
    Drains bufferStream_Next buffered [1%nat; 2%nat] [] /\
    readAll bufferStream_Next bufferStream_Close 3 buffered = Some (Ok [1%nat; 2%nat], []).
Proof.
  split; [apply bufferStream_Drains|]. split; [simpl; lia|].
  apply (buffer_keeps_rows bufferStream_Next bufferStream_Close 3
           (stream [1%nat; 2%nat]) [1%nat; 2%nat] []).
  - apply bufferStream_Drains.
  - simpl. lia.
Defined.

End BufferedFacts.

(* --------------------------------------------------------------------- *)
(* Rows and their primary key; scanning                                   *)
(* --------------------------------------------------------------------- *)

Module RowFacts.

Section Ops.

Variable PkOfRow : Table -> list Cell -> Z.

(** X18. [Updated] panics exactly when the new values have another primary
    key than the row; otherwise the row it returns has the new values,
    the id and table of the old row, and a primary key equal to its id,
    so it can be updated again. *)
Theorem Updated_keeps_the_key (r : PlainRows.Row) (row : list Cell) :
  (PlainRows.Updated PkOfRow r row = None <->
   PlainRows.PkEqual PkOfRow r row = false) /\
  forall r', PlainRows.Updated PkOfRow r row = Some r' ->
    PlainRows.Row_Data r' = row /\
    PlainRows.Row_ID r' = PlainRows.Row_ID r /\
    PlainRows.Row_Table r' = PlainRows.Row_Table r /\
    PlainRows.PkEqual PkOfRow r' (PlainRows.Row_Data r') = true /\
    PlainRows.PkAfterOrEqual PkOfRow r' (PlainRows.Row_Data r') = true /\
    forall row', PlainRows.PkEqual PkOfRow r row' = true ->
      exists r'', PlainRows.Updated PkOfRow r' row' = Some r''.
Proof.
  unfold PlainRows.Updated, PlainRows.PkEqual, PlainRows.PkAfterOrEqual.
  destruct (Z.eqb_spec (PkOfRow (PlainRows.Row_Table r) row) (PlainRows.Row_ID r))
    as [Heq | Hne]; simpl.
  - split.
    + split; [discriminate|]. intros H. apply Z.eqb_neq in H. congruence.
    + intros r' H. inversion H; subst r'. simpl.
      repeat split; try reflexivity.
      * apply Z.eqb_eq. congruence.
      * rewrite Z.geb_leb. apply Z.leb_le. lia.
      * intros row' H'. apply Z.eqb_eq in H'.
        rewrite (proj2 (Z.eqb_eq _ _)) by congruence. simpl. eauto.
  - split.
    + split; [intros _; apply Z.eqb_neq; congruence | reflexivity].
    + intros r' H. discriminate H.
Qed.

End Ops.

Lemma Updated_keeps_the_key_example :
  PlainRows.Updated Sample.first_column
    (PlainRows.mkRow Sample.customers 1 [CInt 1; CBytes "A"]) [CInt 1; CBytes "Z"]
  = Some (PlainRows.mkRow Sample.customers 1 [CInt 1; CBytes "Z"]) /\
  PlainRows.Updated Sample.first_column
    (PlainRows.mkRow Sample.customers 1 [CInt 1; CBytes "A"]) [CInt 2; CBytes "Z"]
  = None.
Proof. split; reflexivity. Qed.

Section Plain.

Variable asInt64 : Cell -> result Z.

(** [rowStream.Next] of reader.go returns nil only at the end: with a
    row pending, it consumes that row and returns it, an error, or
    panics. *)
Lemma Next_plain_end (table : Table) (rows : Scanner.Rows) :
  (Scanner.Next_plain asInt64 table rows).1 = Gives (Ok None) <->
  Scanner.Rows_pending rows = [].
Proof.
  unfold Scanner.Next_plain.
  destruct (Scanner.Rows_pending rows) as [|values rest]; [split; reflexivity|].
  split; [|discriminate].
  destruct (Scanner.Rows_Columns rows) as [cols|err]; [|discriminate].
  destruct (negb _); [discriminate|].
  destruct (values !! Table_IDColumnIndex table) as [v|]; [|discriminate].
  destruct (asInt64 v); discriminate.
Qed.

(** X19. A row returned by [rowStream.Next] of reader.go: it has the given
    table, as many values as there are columns, its id in the slot of
    the id column, and the driver's values in all other slots; its id is
    the driver's value of the id column, converted. *)
Theorem Next_plain_row (table : Table) (rows rows' : Scanner.Rows)
    (row : PlainRows.Row) :
  Scanner.Next_plain asInt64 table rows = (Gives (Ok (Some row)), rows') ->
  exists values cols v,
    Scanner.Rows_pending rows = values :: Scanner.Rows_pending rows' /\
    Scanner.Rows_Columns rows = Ok cols /\
    PlainRows.Row_Table row = table /\
    length (PlainRows.Row_Data row) = length cols /\
    PlainRows.Row_Data row !! Table_IDColumnIndex table
      = Some (CInt (PlainRows.Row_ID row)) /\
    values !! Table_IDColumnIndex table = Some v /\
    asInt64 v = Ok (PlainRows.Row_ID row) /\
    forall i, i <> Table_IDColumnIndex table ->
      PlainRows.Row_Data row !! i = values !! i.
Proof.
  unfold Scanner.Next_plain.
  destruct (Scanner.Rows_pending rows) as [|values rest] eqn:Hp; [discriminate|].
  destruct (Scanner.Rows_Columns rows) as [cols|err] eqn:Hc; [|discriminate].
  destruct (length values =? length cols)%nat eqn:Hlen; [|discriminate]. simpl.
  apply Nat.eqb_eq in Hlen.
  destruct (values !! Table_IDColumnIndex table) as [v|] eqn:Hv; [|discriminate].
  destruct (asInt64 v) as [id|err] eqn:Hid; [|discriminate].
  intros H. inversion H; subst row rows'. clear H.
  exists values, cols, v. simpl. rewrite Hp. simpl.
  repeat split; try reflexivity; try assumption.
  - rewrite length_insert. exact Hlen.
  - apply list_lookup_insert_eq. eapply lookup_lt_Some. exact Hv.
  - intros i Hi. apply list_lookup_insert_ne. congruence.
Qed.

(** X20. With a row pending whose values are as many as the columns,
    [rowStream.Next] of reader.go panics exactly when the index of the
    id column is not the index of a column. *)
Theorem Next_plain_panics (table : Table) (rows : Scanner.Rows)
    (values : list Cell) (rest : list (list Cell)) (cols : list string) :
  Scanner.Rows_pending rows = values :: rest ->
  Scanner.Rows_Columns rows = Ok cols ->
  length values = length cols ->
  ((Scanner.Next_plain asInt64 table rows).1 = Panics <->
   (length cols <= Table_IDColumnIndex table)%nat).
Proof.
  intros Hp Hc Hlen. unfold Scanner.Next_plain. rewrite Hp, Hc.
  rewrite (proj2 (Nat.eqb_eq _ _) Hlen). simpl.
  destruct (values !! Table_IDColumnIndex table) as [v|] eqn:Hv.
  - apply lookup_lt_Some in Hv. destruct (asInt64 v); simpl; split;
      try discriminate; intros; lia.
  - apply lookup_ge_None in Hv. simpl. split; [intros _; lia | reflexivity].
Qed.

End Plain.

Lemma Next_plain_row_witness :
  Scanner.Next_plain Sample.int_only Sample.customers
    (Scanner.mkRows [[CInt 7; CBytes "A"]] (Ok ["id"; "name"]))
  = (Gives (Ok (Some (PlainRows.mkRow Sample.customers 7 [CInt 7; CBytes "A"]))),
     Scanner.mkRows [] (Ok ["id"; "name"])) /\
  exists values cols v,
    Scanner.Rows_pending (Scanner.mkRows [[CInt 7; CBytes "A"]] (Ok ["id"; "name"]))
      = values :: Scanner.Rows_pending (Scanner.mkRows [] (Ok ["id"; "name"])) /\
    Scanner.Rows_Columns (Scanner.mkRows [[CInt 7; CBytes "A"]] (Ok ["id"; "name"]))
      = Ok cols /\
    PlainRows.Row_Table (PlainRows.mkRow Sample.customers 7 [CInt 7; CBytes "A"])
      = Sample.customers /\
    length (PlainRows.Row_Data (PlainRows.mkRow Sample.customers 7 [CInt 7; CBytes "A"]))
      = length cols /\
    PlainRows.Row_Data (PlainRows.mkRow Sample.customers 7 [CInt 7; CBytes "A"])
      !! Table_IDColumnIndex Sample.customers
      = Some (CInt (PlainRows.Row_ID
                      (PlainRows.mkRow Sample.customers 7 [CInt 7; CBytes "A"]))) /\
    values !! Table_IDColumnIndex Sample.customers = Some v /\
    Sample.int_only v
      = Ok (PlainRows.Row_ID (PlainRows.mkRow Sample.customers 7 [CInt 7; CBytes "A"])) /\
    forall i, i <> Table_IDColumnIndex Sample.customers ->
      PlainRows.Row_Data (PlainRows.mkRow Sample.customers 7 [CInt 7; CBytes "A"]) !! i
      = values !! i.
Proof.
  split; [reflexivity|].
  apply (Next_plain_row Sample.int_only Sample.customers
           (Scanner.mkRows [[CInt 7; CBytes "A"]] (Ok ["id"; "name"]))
           (Scanner.mkRows [] (Ok ["id"; "name"]))
           (PlainRows.mkRow Sample.customers 7 [CInt 7; CBytes "A"])).
  reflexivity.
Defined.

Lemma Next_plain_panics_witness :
  Scanner.Rows_pending (Scanner.mkRows [[CBytes "A"]] (Ok ["name"])) = [CBytes "A"] :: [] /\
  Scanner.Rows_Columns (Scanner.mkRows [[CBytes "A"]] (Ok ["name"])) = Ok ["name"] /\
  length [CBytes "A"] = length ["name"] /\
  ((Scanner.Next_plain Sample.int_only (mkTable "t" "name" "id" 3 3)
      (Scanner.mkRows [[CBytes "A"]] (Ok ["name"]))).1 = Panics <->
   (length ["name"] <= Table_IDColumnIndex (mkTable "t" "name" "id" 3 3))%nat).
Proof.
  split; [reflexivity|]. split; [reflexivity|]. split; [reflexivity|].
  apply (Next_plain_panics Sample.int_only (mkTable "t" "name" "id" 3 3)
           (Scanner.mkRows [[CBytes "A"]] (Ok ["name"])) [CBytes "A"] [] ["name"]);
    reflexivity.
Defined.

(** X21. A row returned by [rowStream.Next] of stream.go: its data are the
    driver's values, and its id and its sharding id are the integers in
    the slots of the id column and of the sharding column; they are the
    same when the two columns are the same. *)
Theorem Next_sharded_row (table : Table) (rows rows' : Scanner.Rows) (row : Row) :
  Scanner.Next_sharded table rows = (Gives (Ok (Some row)), rows') ->
  exists cols,
    Scanner.Rows_pending rows = Row_Data row :: Scanner.Rows_pending rows' /\
    Scanner.Rows_Columns rows = Ok cols /\
    Row_Table row = table /\
    length (Row_Data row) = length cols /\
    Row_Data row !! Table_IDColumnIndex table = Some (CInt (Row_ID row)) /\
    Row_Data row !! Table_ShardingColumnIndex table = Some (CInt (Row_ShardingID row)) /\
    (Table_ShardingColumnIndex table = Table_IDColumnIndex table ->
     Row_ShardingID row = Row_ID row).
Proof.
  unfold Scanner.Next_sharded.
  destruct (Scanner.Rows_pending rows) as [|values rest] eqn:Hp; [discriminate|].
  destruct (Scanner.Rows_Columns rows) as [cols|err] eqn:Hc; [|discriminate].
  destruct (negb (Table_IDColumnIndex table <? length cols)%nat); [discriminate|].
  destruct (negb (Table_ShardingColumnIndex table <? length cols)%nat); [discriminate|].
  destruct (length values =? length cols)%nat eqn:Hlen.
  - apply Nat.eqb_eq in Hlen.
    destruct (values !! Table_IDColumnIndex table) as [[|id|]|] eqn:Hid;
      try discriminate.
    destruct (values !! Table_ShardingColumnIndex table) as [[|sid|]|] eqn:Hsid;
      try discriminate.
    intros H. inversion H; subst row rows'. clear H. simpl.
    exists cols. rewrite Hp. simpl. repeat split; try assumption.
    intros Heq. rewrite Heq in Hsid. congruence.
  - match goal with
    | |- context [?l !! Table_IDColumnIndex table] =>
        destruct (l !! Table_IDColumnIndex table) as [[|id|]|]; try discriminate
    end.
    match goal with
    | |- context [?l !! Table_ShardingColumnIndex table] =>
        destruct (l !! Table_ShardingColumnIndex table) as [[|sid|]|]; discriminate
    end.
Qed.

Lemma Next_sharded_row_witness :
  Scanner.Next_sharded Sample.customers
    (Scanner.mkRows [[CInt 7; CBytes "A"]] (Ok ["id"; "name"]))
  = (Gives (Ok (Some (Sample.customer 7 "A"))), Scanner.mkRows [] (Ok ["id"; "name"])) /\
  exists cols,
    Scanner.Rows_pending (Scanner.mkRows [[CInt 7; CBytes "A"]] (Ok ["id"; "name"]))
      = Row_Data (Sample.customer 7 "A")
        :: Scanner.Rows_pending (Scanner.mkRows [] (Ok ["id"; "name"])) /\
    Scanner.Rows_Columns (Scanner.mkRows [[CInt 7; CBytes "A"]] (Ok ["id"; "name"]))
      = Ok cols /\
    Row_Table (Sample.customer 7 "A") = Sample.customers /\
    length (Row_Data (Sample.customer 7 "A")) = length cols /\
    Row_Data (Sample.customer 7 "A") !! Table_IDColumnIndex Sample.customers
      = Some (CInt (Row_ID (Sample.customer 7 "A"))) /\
    Row_Data (Sample.customer 7 "A") !! Table_ShardingColumnIndex Sample.customers
      = Some (CInt (Row_ShardingID (Sample.customer 7 "A"))) /\
    (Table_ShardingColumnIndex Sample.customers = Table_IDColumnIndex Sample.customers ->
     Row_ShardingID (Sample.customer 7 "A") = Row_ID (Sample.customer 7 "A")).
Proof.
  split; [reflexivity|].
  apply (Next_sharded_row Sample.customers
           (Scanner.mkRows [[CInt 7; CBytes "A"]] (Ok ["id"; "name"]))
           (Scanner.mkRows [] (Ok ["id"; "name"])) (Sample.customer 7 "A")).
  reflexivity.
Defined.

End RowFacts.

(* --------------------------------------------------------------------- *)
(* The limited reader                                                     *)
(* --------------------------------------------------------------------- *)

Module LimitedFacts.
Import Limited.

(** X22. [QueryContext] and the limiter's token. A token that was handed
    out gets one call and one only: [OnSuccess] when rows are returned,
    [OnDropped] when an error is. The reader underneath is asked, and
    the wait observed, only when the limiter said ok; without ok the
    result is an error that wraps the context's error if there is one.
    Rows are returned exactly when the limiter said ok and the reader
    returned them. The call panics only when the limiter said ok and
    gave no token. *)
Theorem QueryContext_settles_the_token {Rows : Type} (token ok : bool)
    (ctxErr : option error) (answer : result Rows) :
  match QueryContext token ok ctxErr answer with
  | Returns r eff =>
      queried eff = ok /\ observed eff = ok /\
      token_calls eff =
        (if token
         then [match r with inl _ => OnSuccess | inr _ => OnDropped end]
         else []) /\
      (ok = true -> token = true) /\
      match r with
      | inl rows => ok = true /\ answer = Ok rows
      | inr (Stack err) => ok = true /\ answer = Err err
      | inr (Wrap err _) => ok = false /\ ctxErr = Some err
      | inr (New _) => ok = false /\ ctxErr = None
      end
  | Panicking eff =>
      ok = true /\ token = false /\ token_calls eff = [] /\ queried eff = true
  end.
Proof.
  unfold QueryContext.
  destruct ok, token, ctxErr as [e|], answer as [rows|err]; simpl;
    repeat split; try reflexivity; try discriminate.
Qed.

End LimitedFacts.

(* --------------------------------------------------------------------- *)
(* More on the rejecting stream and the shard gate                        *)
(* --------------------------------------------------------------------- *)

Module ShardGateMore.
Import ShardGate StreamSteps.

Section Rejecting.

Context {S : Type}.
Variable source_Next : S -> result (option Row) * S.
Variable reject : Row -> result bool.

Lemma rejectStream_Next_total (rows : list Row) : forall (fuel : nat) (s : S),
  finite_source source_Next s rows ->
  (length rows < fuel)%nat ->
  exists r s', rejectStream_Next source_Next reject fuel s = Some (r, s').
Proof.
  induction rows as [|row rows IH]; intros fuel s Hfin Hlen;
    (destruct fuel as [|fuel]; [simpl in Hlen; lia|]); cbn [rejectStream_Next].
  - destruct Hfin as [Hy | (err & Hf)].
    + inversion Hy as [? s1 Hn|]; subst. unfold source_rel in Hn. rewrite Hn. eauto.
    + inversion Hf as [? ? s1 Hn|]; subst. unfold source_rel in Hn. rewrite Hn. eauto.
  - assert (exists s1, source_Next s = (Ok (Some row), s1) /\
                      finite_source source_Next s1 rows)
      as (s1 & Hn & Hrest).
    { destruct Hfin as [Hy | (err & Hf)].
      - inversion Hy as [|? ? s1 ? Hn Hrest]; subst. exists s1.
        split; [exact Hn | left; exact Hrest].
      - inversion Hf as [|? ? s1 ? ? Hn Hrest]; subst. exists s1.
        split; [exact Hn | right; exists err; exact Hrest]. }
    rewrite Hn. destruct (reject row) as [[|]|err]; eauto.
    apply IH; [exact Hrest | simpl in Hlen; lia].
Qed.

(** X23. One call of [rejectStream.Next], for any reject function: it takes
    rows from the source as long as they are rejected, and nothing more.
    It returns the first row that is not rejected; or nil when the
    source ends; or, wrapped, the first error of the source or of the
    reject function. The call returns this, and nothing else, as soon
    as its loop may run once more than the number of rows to skip; and
    it does return when its loop may run once more than the number of
    rows that the source has before its end or its first error. *)
Theorem rejectStream_Next_skips_rejected (fuel : nat) (s s' : S)
    (r : result (option Row)) :
  (rejectStream_Next source_Next reject fuel s = Some (r, s') <->
   exists skipped mid,
     Steps source_Next s skipped mid /\
     Forall (fun row => reject row = Ok true) skipped /\
     (length skipped < fuel)%nat /\
     match r with
     | Ok (Some row) => source_Next mid = (Ok (Some row), s') /\ reject row = Ok false
     | Ok None => source_Next mid = (Ok None, s')
     | Err err =>
         exists cause, err = WithStack cause /\
           (source_Next mid = (Err cause, s') \/
            exists row, source_Next mid = (Ok (Some row), s') /\ reject row = Err cause)
     end) /\
  (forall rows,
     finite_source source_Next s rows -> (length rows < fuel)%nat ->
     exists r0 s0, rejectStream_Next source_Next reject fuel s = Some (r0, s0)).
Proof.
  split; [split|].
  - revert s. induction fuel as [|fuel IH]; intros s H; [discriminate|].
    simpl in H. destruct (source_Next s) as [[[row|]|err] s1] eqn:Hn.
    + destruct (reject row) as [[|]|err] eqn:Hr.
      * destruct (IH s1 H) as (skipped & mid & Hsteps & Hall & Hlen & Hres).
        exists (row :: skipped), mid. split; [eapply Steps_row; eassumption|].
        split; [constructor; assumption|]. split; [simpl; lia | exact Hres].
      * inversion H; subst. exists [], s. split; [constructor|].
        split; [constructor|]. split; [simpl; lia|]. split; assumption.
      * inversion H; subst. exists [], s. split; [constructor|].
        split; [constructor|]. split; [simpl; lia|].
        exists err. split; [reflexivity|]. right. exists row. split; assumption.
    + inversion H; subst. exists [], s. split; [constructor|].
      split; [constructor|]. split; [simpl; lia | exact Hn].
    + inversion H; subst. exists [], s. split; [constructor|].
      split; [constructor|]. split; [simpl; lia|].
      exists err. split; [reflexivity|]. left. exact Hn.
  - intros (skipped & mid & Hsteps & Hall & Hlen & Hres). revert fuel Hall Hlen Hres.
    induction Hsteps as [s | s r0 s1 rows s2 Hn _ IH]; intros fuel Hall Hlen Hres.
    + destruct fuel as [|fuel]; [simpl in Hlen; lia|]. cbn [rejectStream_Next].
      destruct r as [[row|]|err].
      * destruct Hres as [Hmid Hrow]. rewrite Hmid, Hrow. reflexivity.
      * rewrite Hres. reflexivity.
      * destruct Hres as (cause & -> & [Hmid | (row & Hmid & Hrow)]).
        -- rewrite Hmid. reflexivity.
        -- rewrite Hmid, Hrow. reflexivity.
    + destruct fuel as [|fuel]; [simpl in Hlen; lia|].
      inversion Hall as [|? ? Hr0 Hrest]; subst.
      cbn [rejectStream_Next]. rewrite Hn, Hr0.
      apply IH; [exact Hrest | simpl in Hlen; lia | exact Hres].
  - intros rows Hfin Hlen. exact (rejectStream_Next_total rows fuel s Hfin Hlen).
Qed.

(** X24. A call of [rejectStream.Next] returns the first row that is not
    rejected as soon as there is fuel for the rows to skip and one more. *)
Theorem rejectStream_Next_returns (fuel : nat) (s mid s' : S) (skipped : list Row)
    (row : Row) :
  Steps source_Next s skipped mid ->
  Forall (fun row => reject row = Ok true) skipped ->
  source_Next mid = (Ok (Some row), s') ->
  reject row = Ok false ->
  (length skipped < fuel)%nat ->
  rejectStream_Next source_Next reject fuel s = Some (Ok (Some row), s').
Proof.
  intros Hsteps. revert fuel.
  induction Hsteps as [s | s r0 s1 rows s2 Hn _ IH]; intros fuel Hall Hmid Hrow Hlen.
  - destruct fuel as [|fuel]; [simpl in Hlen; lia|].
    simpl. rewrite Hmid, Hrow. reflexivity.
  - destruct fuel as [|fuel]; [simpl in Hlen; lia|].
    inversion Hall as [|? ? Hr0 Hrest]; subst.
    simpl. rewrite Hn, Hr0. apply IH; try assumption. simpl in Hlen. lia.
Qed.

End Rejecting.

Lemma rejectStream_Next_skips_rejected_witness :
  (exists skipped mid,
     Steps bufferStream_Next Sample.rows4 skipped mid /\
     Forall (fun row => shardReject Sample.low_byte [Sample.range_2_4] row = Ok true)
       skipped /\
     (length skipped < 3)%nat /\
     bufferStream_Next mid
       = (Ok (Some (Sample.customer 2 "B")),
          [Sample.customer 3 "C"; Sample.customer 4 "D"]) /\
     shardReject Sample.low_byte [Sample.range_2_4] (Sample.customer 2 "B") = Ok false) /\
  rejectStream_Next bufferStream_Next
    (shardReject Sample.low_byte [Sample.range_2_4]) 3 Sample.rows4
  = Some (Ok (Some (Sample.customer 2 "B")),
          [Sample.customer 3 "C"; Sample.customer 4 "D"]).
Proof.
  assert (exists skipped mid,
     Steps bufferStream_Next Sample.rows4 skipped mid /\
     Forall (fun row => shardReject Sample.low_byte [Sample.range_2_4] row = Ok true)
       skipped /\
     (length skipped < 3)%nat /\
     bufferStream_Next mid
       = (Ok (Some (Sample.customer 2 "B")),
          [Sample.customer 3 "C"; Sample.customer 4 "D"]) /\
     shardReject Sample.low_byte [Sample.range_2_4] (Sample.customer 2 "B") = Ok false)
    as H.
  { exists [Sample.customer 1 "A"],
      [Sample.customer 2 "B"; Sample.customer 3 "C"; Sample.customer 4 "D"].
    split; [eapply Steps_row; [reflexivity | constructor]|].
    split; [constructor; [reflexivity | constructor]|].
    split; [simpl; lia|]. split; reflexivity. }
  split; [exact H|].
  apply (rejectStream_Next_skips_rejected bufferStream_Next
           (shardReject Sample.low_byte [Sample.range_2_4]) 3 Sample.rows4
           [Sample.customer 3 "C"; Sample.customer 4 "D"]
           (Ok (Some (Sample.customer 2 "B")))).
  exact H.
Defined.

Lemma rejectStream_Next_returns_witness :
  Steps bufferStream_Next Sample.rows4 [Sample.customer 1 "A"]
    [Sample.customer 2 "B"; Sample.customer 3 "C"; Sample.customer 4 "D"] /\
  (1 < 3)%nat /\
  rejectStream_Next bufferStream_Next
    (shardReject Sample.low_byte [Sample.range_2_4]) 3 Sample.rows4
  = Some (Ok (Some (Sample.customer 2 "B")),
          [Sample.customer 3 "C"; Sample.customer 4 "D"]).
Proof.
  assert (Steps bufferStream_Next Sample.rows4 [Sample.customer 1 "A"]
            [Sample.customer 2 "B"; Sample.customer 3 "C"; Sample.customer 4 "D"]) as H.
  { eapply Steps_row; [reflexivity | constructor]. }
  split; [exact H|]. split; [lia|].
  apply (rejectStream_Next_returns bufferStream_Next
           (shardReject Sample.low_byte [Sample.range_2_4]) 3 Sample.rows4
           [Sample.customer 2 "B"; Sample.customer 3 "C"; Sample.customer 4 "D"]
           [Sample.customer 3 "C"; Sample.customer 4 "D"]
           [Sample.customer 1 "A"] (Sample.customer 2 "B") H).
  - constructor; [reflexivity | constructor].
  - reflexivity.
  - reflexivity.
  - simpl. lia.
Defined.

Section Gate.

Variable vhash : Z -> list Byte.byte.

(** X25. A filter made of two lists of key ranges admits an id exactly when
    one of the two lists does; so adding ranges to a filter never
    turns away a row that was admitted. *)
Theorem InShard_app (id : Z) (f1 f2 : list (option KeyRange)) :
  InShard vhash id (f1 ++ f2) = InShard vhash id f1 || InShard vhash id f2.
Proof.
  unfold InShard. induction f1 as [|kr f1 IH]; simpl; [reflexivity|].
  destruct (KeyRangeContains kr (vhash id)); [reflexivity | exact IH].
Qed.

End Gate.

Lemma Fails_filtered_witness :
  Fails (source_rel Sample.failing_Next) Sample.failing
    [Sample.customer 1 "A"; Sample.customer 2 "B"] Canceled /\
  Fails (filtered_rel Sample.low_byte Sample.failing_Next Sample.customers
           [Sample.range_2_4]) Sample.failing
    [Sample.customer 2 "B"] (WithStack Canceled).
Proof.
  assert (Fails (source_rel Sample.failing_Next) Sample.failing
            [Sample.customer 1 "A"; Sample.customer 2 "B"] Canceled) as H.
  { eapply Fails_row; [reflexivity|]. eapply Fails_row; [reflexivity|].
    eapply Fails_now. reflexivity. }
  split; [exact H|].
  apply (ShardGateFacts.Fails_filtered Sample.low_byte Sample.failing_Next
           Sample.customers [Sample.range_2_4] Sample.failing
           [Sample.customer 1 "A"; Sample.customer 2 "B"] Canceled H).
Defined.

End ShardGateMore.
